(** * Word-search puzzle: seeded generator and gesture matching

    A shallow embedding of the TypeScript sources of the word-search game:

    - [hashSeed], [mulberry32] and [pickWords], the word picker;
    - [gridContainsWord] and [generatePuzzleGuaranteed], the grid
      generator of the application file;
    - the pointer handlers [onDown], [onMove] and [onUp], in the two
      variants the repository holds: [src/App.tsx] (module [App]) and the
      second copy of the application file (module [AppB]), which resolves
      cells with [cellFromClient] and derives the direction again at
      release.

    Conventions.  A JavaScript string is the list of its UTF-16 code units
    ([jsstring]); [charCodeAt], [s[i]], [length], [split("")] and
    [reverse] all work on code units.  JavaScript numbers that hold
    integers are [Z] (array lengths and loop counters are [nat]); the
    32-bit conversions of the bit operators are written out, and sums that
    the source takes on numbers are sums of integers where they stay below
    [2^53]; the state of [mulberry32], which grows call after call, is
    rounded to binary64 ([JS.plus]).  Screen coordinates, and all that the
    handlers compute from them, are binary64 numbers with the operations
    of IEEE 754 ([SpecFloat] of the Standard Library, module [F64]).
    React state and refs are fields of one state record: what a handler
    sets is what the next handler reads.

    The first part holds the definitions, the second part the proofs. *)

From Stdlib Require Import ZArith Lia SpecFloat.
From stdpp Require Import base list gmap strings.

Local Open Scope Z_scope.

(** ** Binary64 numbers *)

(** JavaScript numbers as [spec_float] with 53 bits of mantissa: every
    operation rounds to the nearest number, ties to even, and produces
    infinities and NaN as IEEE 754 prescribes. *)
Module F64.

Definition prec : Z := 53.
Definition emax : Z := 1024.

Definition add : spec_float -> spec_float -> spec_float := SFadd prec emax.
Definition sub : spec_float -> spec_float -> spec_float := SFsub prec emax.
Definition mul : spec_float -> spec_float -> spec_float := SFmul prec emax.
Definition div : spec_float -> spec_float -> spec_float := SFdiv prec emax.
(** [Math.sqrt] *)
Definition sqrt : spec_float -> spec_float := SFsqrt prec emax.
(** [Math.abs] *)
Definition abs : spec_float -> spec_float := SFabs.
(** [a < b]; [a > b] is [ltb b a].  Every comparison with NaN is
    [false]. *)
Definition ltb : spec_float -> spec_float -> bool := SFltb.
(** [a <= b]; [a >= b] is [leb b a]. *)
Definition leb : spec_float -> spec_float -> bool := SFleb.

(** The number nearest to the integer [n]: [n] itself up to [2^53]. *)
Definition ofZ (n : Z) : spec_float := binary_normalize prec emax n 0 false.

(** The number nearest to [n / d]: what a decimal literal such as [0.58]
    (58 / 100) denotes. *)
Definition ratio (n : Z) (d : positive) : spec_float :=
  match n with
  | Z0 => S754_zero false
  | Zpos p => div (S754_finite false p 0) (S754_finite false d 0)
  | Zneg p => div (S754_finite true p 0) (S754_finite false d 0)
  end.

(** [Math.min]: NaN if either is NaN, and [-0] below [+0]. *)
Definition min (x y : spec_float) : spec_float :=
  match SFcompare x y with
  | None => S754_nan
  | Some Lt => x
  | Some Gt => y
  | Some Eq => match y with S754_zero true => y | _ => x end
  end.

(** [Math.max] *)
Definition max (x y : spec_float) : spec_float :=
  match SFcompare x y with
  | None => S754_nan
  | Some Lt => y
  | Some Gt => x
  | Some Eq => match y with S754_zero false => y | _ => x end
  end.

(** [Math.sign] as the integer it is on numbers: [-1], [0] (for both
    zeros) or [1].  The handlers apply it to differences of pointer
    coordinates, which are never NaN ([sub_number]); NaN is given [0]. *)
Definition sign (x : spec_float) : Z :=
  match x with
  | S754_zero _ | S754_nan => 0
  | S754_infinity s | S754_finite s _ _ => if s then -1 else 1
  end.

(** [Math.floor] of a finite number; infinities and NaN have no integer. *)
Definition floor (x : spec_float) : option Z :=
  match x with
  | S754_zero _ => Some 0
  | S754_finite s m e => Some (Z.shiftl (cond_Zopp s (Zpos m)) e)
  | _ => None
  end.

(** A finite number: what a pointer event reports and what a layout
    rectangle holds. *)
Inductive fin : Type :=
| Zero (s : bool)
| Num (s : bool) (m : positive) (e : Z).

Definition val (x : fin) : spec_float :=
  match x with
  | Zero s => S754_zero s
  | Num s m e => S754_finite s m e
  end.

(** A number that is finite, as a finite number; it is used to write
    down pointer positions and is applied to finite numbers only. *)
Definition toFin (x : spec_float) : fin :=
  match x with
  | S754_zero s => Zero s
  | S754_finite s m e => Num s m e
  | _ => Zero false
  end.

(** The coordinate at the integer [n], and at the decimal [n / d]. *)
Definition finZ (n : Z) : fin := toFin (ofZ n).
Definition finRatio (n : Z) (d : positive) : fin := toFin (ratio n d).

(** A finite number above zero: the width and height of a grid that is
    laid out. *)
Record pos : Type := mkPos { mant : positive; expo : Z }.

Definition valPos (x : pos) : spec_float := S754_finite false (mant x) (expo x).

(** The width of [n] pixels. *)
Definition posZ (n : positive) : pos :=
  match ofZ (Zpos n) with
  | S754_finite _ m e => mkPos m e
  | _ => mkPos 1 0
  end.

(** Not NaN. *)
Definition number (x : spec_float) : Prop := x ≠ S754_nan.

(** The sign bit of [x] is [s]; NaN has none and passes. *)
Definition signed (s : bool) (x : spec_float) : Prop :=
  match x with
  | S754_zero s' | S754_infinity s' | S754_finite s' _ _ => s' = s
  | S754_nan => True
  end.

(** A number other than zero. *)
Definition nonzero (x : spec_float) : Prop :=
  match x with
  | S754_infinity _ | S754_finite _ _ _ => True
  | _ => False
  end.

End F64.

(** ** JavaScript 32-bit integer operators *)

Module JS.

(** [ToInt32]: wrap to the signed 32-bit range. *)
Definition toInt32 (x : Z) : Z := (x + 2 ^ 31) mod 2 ^ 32 - 2 ^ 31.

(** [ToUint32], i.e. [x >>> 0]. *)
Definition toUint32 (x : Z) : Z := x mod 2 ^ 32.

(** [a ^ b]: both operands through [ToInt32], the result a signed
    32-bit integer. *)
Definition xor (a b : Z) : Z := toInt32 (Z.lxor (toInt32 a) (toInt32 b)).

(** [a | b] *)
Definition or (a b : Z) : Z := toInt32 (Z.lor (toInt32 a) (toInt32 b)).

(** [a << k] *)
Definition shl (a k : Z) : Z := toInt32 (Z.shiftl (toInt32 a) (k mod 32)).

(** [a >>> k] *)
Definition shru (a k : Z) : Z := Z.shiftr (toUint32 a) (k mod 32).

(** [Math.imul(a, b)] *)
Definition imul (a b : Z) : Z := toInt32 (toInt32 a * toInt32 b).

(** [Math.floor(x * n)] for [x = u / 4294967296], the shape of every
    number [mulberry32] returns.  The quotient [u / 2^32] is exact in
    binary64, and so is its product with an integer [n] below [2^21]
    ([u * n < 2^53]): the generator calls it with 8, 10 and 26, the
    picker with an index into the bank. *)
Definition floorMul (u n : Z) : Z := (u * n) / 2 ^ 32.

(** [x + y] on numbers that hold integers: the sum, rounded to the
    nearest binary64 number as IEEE 754 addition rounds it.  Below [2^53]
    in size the sum is kept as it is ([plus_exact]); above, it is an
    integer still.  No sum of a number and [0x6d2b79f5] overflows. *)
Definition plus (x y : Z) : Z :=
  match F64.floor (F64.ofZ (x + y)) with
  | Some n => n
  | None => 0
  end.

End JS.

(** A string as its UTF-16 code units. *)
Abbreviation jsstring := (list Z) (only parsing).

(** The code units of an ASCII literal. *)
Fixpoint str (s : string) : jsstring :=
  match s with
  | EmptyString => []
  | String a rest => Z.of_N (Ascii.N_of_ascii a) :: str rest
  end.

(** ** Seeded random numbers *)

(** The body of the closure returned by [mulberry32(a)]: one call.  The
    captured variable [a] is the state, a number that holds an integer
    ([hashSeed] returns one); the result is the numerator [u] of the
    returned number [u / 4294967296] together with the new [a].  The
    source adds [0x6d2b79f5] to [a] as a number: without wrapping, and
    rounded to binary64 once the sum passes [2^53]. *)
Definition mulberry32 (a : Z) : Z * Z :=
  let a := JS.plus a 0x6d2b79f5 in
  let t := a in
  let t := JS.imul (JS.xor t (JS.shru t 15)) (JS.or t 1) in
  let t := JS.xor t (t + JS.imul (JS.xor t (JS.shru t 7)) (JS.or t 61)) in
  (JS.toUint32 (JS.xor t (JS.shru t 14)), a).

(** One round of the loop of [hashSeed]. *)
Definition hashStep (h c : Z) : Z :=
  let h := JS.xor h c in
  h + (JS.shl h 1 + JS.shl h 4 + JS.shl h 7 + JS.shl h 8 + JS.shl h 24).

Fixpoint hashLoop (s : jsstring) (h : Z) : Z :=
  match s with
  | [] => h
  | c :: rest => hashLoop rest (hashStep h c)
  end.

(** [hashSeed(str)] *)
Definition hashSeed (s : jsstring) : Z :=
  JS.toUint32 (hashLoop s 2166136261).

(** The 32-bit FNV-1a reference, as the specification words it:
    [h = (h XOR c) * prime (mod 2^32)] from the offset basis. *)
Definition fnv1a (s : jsstring) : Z :=
  fold_left (fun h c => (Z.lxor h c * 16777619) mod 2 ^ 32) s 2166136261.

(** A random stream is a state of the generator closure; its numbers are
    what successive calls return. *)
Section Stream.

Context {R : Type} (rng : R -> Z * R).

(** The state after [k] calls. *)
Definition advance (k : nat) (s : R) : R :=
  Nat.iter k (fun s => snd (rng s)) s.

(** The [k]-th number of the stream that starts in state [s], counting
    from 0. *)
Definition streamNth (s : R) (k : nat) : Z := fst (rng (advance k s)).

End Stream.

(** ** Word picker *)

(** [[shuffled[i], shuffled[j]] = [shuffled[j], shuffled[i]]]: the right
    side is read first, then position [i] and then position [j] are
    written.  Both indices are inside the array at every call
    ([shuffle_index_range]); outside it the array is left as it is. *)
Definition swapAt {A} (arr : list A) (i j : nat) : list A :=
  match arr !! j, arr !! i with
  | Some aj, Some ai => <[j := ai]> (<[i := aj]> arr)
  | _, _ => arr
  end.

(** [for (let i = shuffled.length - 1; i > 0; i--)], entered with the
    current [i]; [a] is the state of the closure [rand]. *)
Fixpoint shuffleLoop (i : nat) (shuffled : list jsstring) (a : Z) : list jsstring :=
  match i with
  | O => shuffled
  | S i' =>
      let '(u, a') := mulberry32 a in
      let j := Z.to_nat (JS.floorMul u (Z.of_nat i + 1)) in
      shuffleLoop i' (swapAt shuffled i j) a'
  end.

Section Picker.

(** [String.prototype.toUpperCase], a built-in. *)
Variable toUpperCase : jsstring -> jsstring.

(** [pickWords(bank, count, gridSize, seed)]; [count] and [gridSize] are
    unsigned integers. *)
Definition pickWords (bank : list jsstring) (count gridSize : nat)
    (seed : jsstring) : list jsstring :=
  let rand := hashSeed seed in
  let usable := filter (fun w : jsstring => (length w <= gridSize)%nat) bank in
  let shuffled := shuffleLoop (length usable - 1) usable rand in
  map toUpperCase (take count shuffled).

(** *** The reference definition, from the words of the specification *)

(** Exchange of positions [i] and [j], position by position. *)
Definition exchange {A} (i j : nat) (l : list A) : list A :=
  imap (fun k x =>
          if decide (k = i) then default x (l !! j)
          else if decide (k = j) then default x (l !! i)
          else x) l.

(** Fisher-Yates: index [i] runs from [length - 1] down to [1]; the
    [k]-th step (from 0) has [i = length - 1 - k] and exchanges position
    [i] with [floor(rand() * (i + 1))]. *)
Definition fisherYates (rand : nat -> Z) (l : list jsstring) : list jsstring :=
  fold_left
    (fun acc k =>
       let i := (length l - 1 - k)%nat in
       exchange i (Z.to_nat (JS.floorMul (rand k) (Z.of_nat i + 1))) acc)
    (seq 0 (length l - 1)) l.

Definition pickWordsRef (bank : list jsstring) (count gridSize : nat)
    (seed : jsstring) : list jsstring :=
  let fits := filter (fun w : jsstring => (length w <= gridSize)%nat) bank in
  map toUpperCase (take count (fisherYates (streamNth mulberry32 (hashSeed seed)) fits)).

End Picker.

(** ** Grid generator *)

Module Cell.
Record t : Type := mk { r : Z; c : Z }.
End Cell.

Definition GRID_SIZE : Z := 10.

(** [string[][]]: each cell holds a string, empty before it is filled. *)
Abbreviation Grid := (list (list jsstring)) (only parsing).

(** The eight directions, in the order of the array [dirs]. *)
Definition dirs : list Cell.t :=
  [ Cell.mk 0 1; Cell.mk 0 (-1); Cell.mk 1 0; Cell.mk (-1) 0;
    Cell.mk 1 1; Cell.mk 1 (-1); Cell.mk (-1) 1; Cell.mk (-1) (-1) ].

(** [rr < 0 || rr >= GRID_SIZE || cc < 0 || cc >= GRID_SIZE] *)
Definition offGrid (rr cc : Z) : bool :=
  (rr <? 0) || (rr >=? GRID_SIZE) || (cc <? 0) || (cc >=? GRID_SIZE).

(** [grid[rr][cc]]; [None] is [undefined], also where the source would
    raise a [TypeError] because [grid[rr]] is [undefined].  The generator
    indexes the grid only after the bounds test, and every grid the
    sources index is 10 by 10. *)
Definition cellAt (grid : Grid) (rr cc : Z) : option jsstring :=
  if (rr <? 0) || (cc <? 0) then None
  else grid !! Z.to_nat rr ≫= fun row => row !! Z.to_nat cc.

(** [w[i]]: the one-unit string at index [i], or [undefined]. *)
Definition charAt (w : jsstring) (i : nat) : option jsstring :=
  (fun u => [u]) <$> w !! i.

(** The innermost loop of [gridContainsWord], over the indices [todo] still
    to visit, with the current [okF] and [okR]. *)
Fixpoint scanWord (grid : Grid) (word rev : jsstring) (r c : Z) (d : Cell.t)
    (todo : list nat) (okF okR : bool) : bool * bool :=
  match todo with
  | [] => (okF, okR)
  | i :: rest =>
      let rr := r + Cell.r d * Z.of_nat i in
      let cc := c + Cell.c d * Z.of_nat i in
      if offGrid rr cc then (false, false)
      else
        let okF := if decide (cellAt grid rr cc ≠ charAt word i) then false else okF in
        let okR := if decide (cellAt grid rr cc ≠ charAt rev i) then false else okR in
        scanWord grid word rev r c d rest okF okR
  end.

(** The rows and columns [0 .. GRID_SIZE - 1], in loop order. *)
Definition gridIndices : list Z := map Z.of_nat (seq 0 (Z.to_nat GRID_SIZE)).

(** [gridContainsWord(grid, word)]: the three nested loops return [true]
    at the first start cell and direction with [okF || okR]. *)
Definition gridContainsWord (grid : Grid) (word : jsstring) : bool :=
  let rev := reverse word in
  existsb (fun r =>
    existsb (fun c =>
      existsb (fun d =>
        let '(okF, okR) :=
          scanWord grid word rev r c d (seq 0 (length word)) true true in
        okF || okR) dirs) gridIndices) gridIndices.

(** [Array.from({ length: GRID_SIZE }, () => Array(GRID_SIZE).fill(v))] *)
Definition filledGrid (v : jsstring) : Grid :=
  replicate (Z.to_nat GRID_SIZE) (replicate (Z.to_nat GRID_SIZE) v).

(** [grid[rr][cc] = v], for a position on the grid; the sources write
    nowhere else. *)
Definition setCell (grid : Grid) (rr cc : Z) (v : jsstring) : Grid :=
  if (rr <? 0) || (cc <? 0) then grid
  else
    match grid !! Z.to_nat rr with
    | Some row => <[Z.to_nat rr := <[Z.to_nat cc := v]> row]> grid
    | None => grid
    end.

Definition letters : jsstring := str "ABCDEFGHIJKLMNOPQRSTUVWXYZ".

Section Generator.

(** The closure [rng]: its captured state and one call, which yields the
    numerator [u] of the number [u / 2^32] in [[0, 1)] and the next
    state. *)
Context {R : Type} (rng : R -> Z * R).

(** The validity loop of one placement: [ok] stays [true] when no
    letter position is off the grid or holds another letter. *)
Definition canPlace (grid : Grid) (w : jsstring) (r c : Z) (d : Cell.t) : bool :=
  forallb (fun i =>
    let rr := r + Cell.r d * Z.of_nat i in
    let cc := c + Cell.c d * Z.of_nat i in
    negb (offGrid rr cc
          || match cellAt grid rr cc with
             | Some ((_ :: _) as cell) => bool_decide (Some cell ≠ charAt w i)
             | _ => false
             end))
    (seq 0 (length w)).

(** The loop that writes the letters of [w]. *)
Definition writeWord (grid : Grid) (w : jsstring) (r c : Z) (d : Cell.t) : Grid :=
  fold_left (fun g i =>
    setCell g (r + Cell.r d * Z.of_nat i) (c + Cell.c d * Z.of_nat i)
            (default [] (charAt w i)))
    (seq 0 (length w)) grid.

(** [dirs[Math.floor(rng() * dirs.length)]].  The index is below 8 for
    every [u < 2^32]; the first direction stands for the unreachable
    [undefined]. *)
Definition pickDir (u : Z) : Cell.t :=
  nth (Z.to_nat (JS.floorMul u (Z.of_nat (length dirs)))) dirs (Cell.mk 0 1).

(** [for (let t = 0; t < 600 && !placed; t++)] with [t] tries left:
    three draws per try, the first valid placement is written. *)
Fixpoint tryPlace (t : nat) (grid : Grid) (w : jsstring) (s : R) : option Grid * R :=
  match t with
  | O => (None, s)
  | S t' =>
      let '(u1, s) := rng s in
      let d := pickDir u1 in
      let '(u2, s) := rng s in
      let r := JS.floorMul u2 GRID_SIZE in
      let '(u3, s) := rng s in
      let c := JS.floorMul u3 GRID_SIZE in
      if canPlace grid w r c d then (Some (writeWord grid w r c d), s)
      else tryPlace t' grid w s
  end.

(** [for (const w of words)]: [None] is [fail = true]. *)
Fixpoint placeWords (words : list jsstring) (grid : Grid) (s : R) : option Grid * R :=
  match words with
  | [] => (Some grid, s)
  | w :: rest =>
      match tryPlace 600 grid w s with
      | (Some grid', s') => placeWords rest grid' s'
      | (None, s') => (None, s')
      end
  end.

(** The fill loops, over the cells [(r, c)] still to visit in row-major
    order: an empty cell draws a letter. *)
Fixpoint fillCells (cells : list (Z * Z)) (grid : Grid) (s : R) : Grid * R :=
  match cells with
  | [] => (grid, s)
  | (r, c) :: rest =>
      match cellAt grid r c with
      | Some (_ :: _) => fillCells rest grid s
      | _ =>
          let '(u, s') := rng s in
          let letter := default [] (charAt letters (Z.to_nat (JS.floorMul u (Z.of_nat (length letters))))) in
          fillCells rest (setCell grid r c letter) s'
      end
  end.

Definition allCells : list (Z * Z) :=
  r ← gridIndices; c ← gridIndices; [(r, c)].

(** One pass of the body of the outer loop, from a fresh empty grid:
    [Some grid] when it reaches [return grid], [None] when it ends in
    [continue] or falls out of the body. *)
Definition attempt (words : list jsstring) (s : R) : option Grid * R :=
  let grid := filledGrid [] in
  match placeWords words grid s with
  | (None, s') => (None, s')
  | (Some grid, s') =>
      let '(grid, s'') := fillCells allCells grid s' in
      if forallb (gridContainsWord grid) words then (Some grid, s'')
      else (None, s'')
  end.

(** [for (let a = 0; a < 40; a++)] with [n] passes left, then the grid
    of ["X"]. *)
Fixpoint attempts (n : nat) (words : list jsstring) (s : R) : Grid * R :=
  match n with
  | O => (filledGrid (str "X"), s)
  | S n' =>
      match attempt words s with
      | (Some grid, s') => (grid, s')
      | (None, s') => attempts n' words s'
      end
  end.

(** [generatePuzzleGuaranteed(words, seed)] once [rng] is created: the
    grid returned and the state [rng] is left in. *)
Definition generatePuzzleGuaranteed (words : list jsstring) (s : R) : Grid * R :=
  attempts 40 words s.

End Generator.

(** Modelled from the spec: the module [./utils/seededRandom] that exports
    [createSeededRandom] is not among the sources.  Section 4.1 gives the
    stream of a seed as [stream(hash(seed))], with the hash and the
    generator that [pickWords] uses; its state is the variable [a]. *)
Definition createSeededRandom (seed : jsstring) : Z := hashSeed seed.

(** [generateGrid(words, seed)] of the specification. *)
Definition generateGrid (words : list jsstring) (seed : jsstring) : Grid :=
  fst (generatePuzzleGuaranteed mulberry32 words (createSeededRandom seed)).

Definition sentinel : Grid := filledGrid (str "X").

(** ** The generator on one stream, from the words of the specification *)

(** Section 4.3: up to 40 outer attempts, each from a fresh empty grid,
    on the same stream, which continues from where the previous attempt
    left it.  The stream is read by position: nothing here holds a
    closure or its state. *)
Section OneStream.

(** The one stream of the call: [u k] is the numerator of its [k]-th
    number, counting from 0. *)
Variable u : nat -> Z.

(** The [j]-th random placement of a word whose placements start at
    position [k] of the stream: a direction index, a start row and a
    start column, from three numbers in a row. *)
Definition candidate (k j : nat) : Cell.t * Z * Z :=
  (pickDir (u (k + 3 * j)%nat),
   JS.floorMul (u (k + 3 * j + 1)%nat) GRID_SIZE,
   JS.floorMul (u (k + 3 * j + 2)%nat) GRID_SIZE).

Definition validAt (grid : Grid) (w : jsstring) (p : Cell.t * Z * Z) : bool :=
  let '(d, r, c) := p in canPlace grid w r c d.

(** Step 1 for one word: the first valid of up to 600 placements is
    committed, and the stream stands after the placements that were
    tried. *)
Definition placeOnStream (grid : Grid) (w : jsstring) (k : nat) : option Grid * nat :=
  match List.find (fun j => validAt grid w (candidate k j)) (seq 0 600) with
  | Some j =>
      let '(d, r, c) := candidate k j in
      (Some (writeWord grid w r c d), (k + 3 * (j + 1))%nat)
  | None => (None, (k + 3 * 600)%nat)
  end.

(** Steps 1 and 2 for every word in turn; once a word has found no
    placement the attempt is abandoned and the stream is read no
    further. *)
Definition placeAllOnStream (words : list jsstring) (grid : Grid) (k : nat)
    : option Grid * nat :=
  fold_left (fun acc w =>
               match acc with
               | (Some g, k) => placeOnStream g w k
               | (None, k) => (None, k)
               end)
            words (Some grid, k).

(** Step 3: every cell that is still empty takes the next number of the
    stream, in row-major order. *)
Definition fillOnStream (grid : Grid) (k : nat) : Grid * nat :=
  fold_left (fun acc rc =>
               let '(g, k) := acc in
               match cellAt g (fst rc) (snd rc) with
               | Some (_ :: _) => (g, k)
               | _ =>
                   let i := Z.to_nat (JS.floorMul (u k) (Z.of_nat (length letters))) in
                   (setCell g (fst rc) (snd rc) (default [] (charAt letters i)), S k)
               end)
            allCells (grid, k).

(** One attempt that starts at position [k], with the position the
    stream is left at. *)
Definition attemptOnStream (words : list jsstring) (k : nat) : option Grid * nat :=
  match placeAllOnStream words (filledGrid []) k with
  | (Some g, k') =>
      let '(g', k'') := fillOnStream g k' in
      if forallb (gridContainsWord g') words then (Some g', k'') else (None, k'')
  | (None, k') => (None, k')
  end.

(** Up to [n] attempts: each one starts where the one before it stopped;
    step 5 returns the first that passes, and after the last the
    sentinel grid is returned. *)
Fixpoint attemptsOnStream (n : nat) (words : list jsstring) (k : nat) : Grid * nat :=
  match n with
  | O => (sentinel, k)
  | S n' =>
      match attemptOnStream words k with
      | (Some g, k') => (g, k')
      | (None, k') => attemptsOnStream n' words k'
      end
  end.

(** The grid of the call, and how many numbers of the stream it read. *)
Definition generateOnStream (words : list jsstring) : Grid * nat :=
  attemptsOnStream 40 words 0.

End OneStream.

(** ** Findability *)

(** The letters read from [grid], [n] cells from [(r, c)] along [d];
    [None] when a position leaves the grid. *)
Definition readCells (grid : Grid) (r c : Z) (d : Cell.t) (n : nat) : option (list jsstring) :=
  mapM (fun i : nat =>
          let rr := r + Cell.r d * Z.of_nat i in
          let cc := c + Cell.c d * Z.of_nat i in
          if offGrid rr cc then None else cellAt grid rr cc)
       (seq 0 n).

(** A word as a sequence of one-letter cells. *)
Definition lettersOf (w : jsstring) : list jsstring := (fun u => [u]) <$> w.

(** Some start cell of the grid and one of the eight directions read
    [w], forward or reversed, within bounds. *)
Definition findable (grid : Grid) (w : jsstring) : Prop :=
  ∃ r c d,
    0 <= r < GRID_SIZE ∧ 0 <= c < GRID_SIZE ∧ d ∈ dirs ∧
    (readCells grid r c d (length w) = Some (lettersOf w) ∨
     readCells grid r c d (length w) = Some (lettersOf (reverse w))).

(** ** Pointer gestures: shared vocabulary *)

(** A pointer position [(clientX, clientY)]: finite numbers. *)
Module Vec.
Record t : Type := mk { x : F64.fin; y : F64.fin }.
(** The position at whole pixels. *)
Definition ofZ (x y : Z) : t := mk (F64.finZ x) (F64.finZ y).
End Vec.

(** [Vec] of the source, [{ x: number; y: number }], as [center] and the
    lines hold it: computed numbers. *)
Module Pt.
Record t : Type := mk { x : spec_float; y : spec_float }.
End Pt.

Inductive Page : Type := home | packs | game.

Definition isGame (p : Page) : bool :=
  match p with game => true | _ => false end.

(** [getBoundingClientRect()] of the grid element, once the grid is laid
    out: finite edges, a width and a height above zero. *)
Record Rect : Type :=
  mkRect { left : F64.fin; top : F64.fin; width : F64.pos; height : F64.pos }.

(** [GRID_SIZE] as the number the handlers compute with. *)
Definition gridSize : spec_float := F64.ofZ GRID_SIZE.

(** [center(c)] *)
Definition center (rect : Rect) (c : Cell.t) : Pt.t :=
  Pt.mk (F64.mul (F64.add (F64.ofZ (Cell.c c)) (F64.ratio 5 10))
                 (F64.div (F64.valPos (width rect)) gridSize))
        (F64.mul (F64.add (F64.ofZ (Cell.r c)) (F64.ratio 5 10))
                 (F64.div (F64.valPos (height rect)) gridSize)).

(** The live line every [onMove] sets: from the centre of the start cell
    to the pointer, relative to the grid. *)
Definition liveLineTo (rect : Rect) (start : Cell.t) (p : Vec.t) : Pt.t * Pt.t :=
  (center rect start,
   Pt.mk (F64.sub (F64.val (Vec.x p)) (F64.val (left rect)))
         (F64.sub (F64.val (Vec.y p)) (F64.val (top rect)))).

(** [Array.from({ length: w.length }, (_, i) => ({ r: sr + stepR * i,
    c: sc + stepC * i }))] *)
Definition cellsFrom (start step : Cell.t) (n : nat) : list Cell.t :=
  (fun i : nat => Cell.mk (Cell.r start + Cell.r step * Z.of_nat i)
                          (Cell.c start + Cell.c step * Z.of_nat i)) <$> seq 0 n.

(** [cells.map((c) => grid[c.r][c.c]).join("")]; [join] writes
    [undefined] as the empty string. *)
Definition textOf (grid : Grid) (cells : list Cell.t) : jsstring :=
  concat ((fun c => default [] (cellAt grid (Cell.r c) (Cell.c c))) <$> cells).

(** The displacement [(dx, dy)] of the pointer [p] from the start point
    [sp]: [e.clientX - startPoint.current.x] and the same for [y]. *)
Definition dxOf (sp p : Vec.t) : spec_float :=
  F64.sub (F64.val (Vec.x p)) (F64.val (Vec.x sp)).
Definition dyOf (sp p : Vec.t) : spec_float :=
  F64.sub (F64.val (Vec.y p)) (F64.val (Vec.y sp)).

(** The direction lock of [onMove], for the three constants of a variant. *)
Section DirectionLock.

Variables MIN_PIXELS DIAGONAL_SLOP AXIS_DOMINANCE : spec_float.

(** [adx < MIN_PIXELS && ady < MIN_PIXELS] *)
Definition belowThreshold (dx dy : spec_float) : bool :=
  F64.ltb (F64.abs dx) MIN_PIXELS && F64.ltb (F64.abs dy) MIN_PIXELS.

(** The [if] chain that assigns [dirLock.current]; [None] leaves it
    unassigned. *)
Definition classify (dx dy : spec_float) : option Cell.t :=
  let adx := F64.abs dx in
  let ady := F64.abs dy in
  let min := F64.min adx ady in
  let max := F64.max adx ady in
  if F64.leb DIAGONAL_SLOP (F64.div min max) then Some (Cell.mk (F64.sign dy) (F64.sign dx))
  else if F64.leb (F64.mul adx AXIS_DOMINANCE) ady then Some (Cell.mk (F64.sign dy) 0)
  else if F64.leb (F64.mul ady AXIS_DOMINANCE) adx then Some (Cell.mk 0 (F64.sign dx))
  else None.

End DirectionLock.

(** ** The handlers of [src/App.tsx] *)

Module App.

Record State : Type := mkState {
  page : Page;
  gameReady : bool;
  packComplete : bool;
  found : gset (list Z);
  lockedLines : list (Pt.t * Pt.t);
  liveLine : option (Pt.t * Pt.t);
  startCell : option Cell.t;
  dirLock : option Cell.t;
  startPoint : option Vec.t
}.

Definition MIN_PIXELS : spec_float := F64.ofZ 14.
Definition DIAGONAL_SLOP : spec_float := F64.ratio 58 100.
Definition AXIS_DOMINANCE : spec_float := F64.ratio 26 10.

Section Handlers.

(** Fixed while a puzzle is on screen: the rectangle of the grid, the
    puzzle words and the grid. *)
Variables (rect : Rect) (words : list jsstring) (grid : Grid).

(** [((clientY - r.top) / r.height) * GRID_SIZE], and the same for the
    column. *)
Definition rowOf (p : Vec.t) : spec_float :=
  F64.mul (F64.div (F64.sub (F64.val (Vec.y p)) (F64.val (top rect)))
                   (F64.valPos (height rect))) gridSize.
Definition colOf (p : Vec.t) : spec_float :=
  F64.mul (F64.div (F64.sub (F64.val (Vec.x p)) (F64.val (left rect)))
                   (F64.valPos (width rect))) gridSize.

(** The cell under a point, as [onDown] computes it: [Math.floor] of
    [rowOf] and [colOf]; [None] off the grid.  An infinite index is off
    the grid, and the indices are never NaN ([rowOf_number]). *)
Definition cellOfPoint (p : Vec.t) : option Cell.t :=
  match F64.floor (rowOf p), F64.floor (colOf p) with
  | Some rr, Some cc => if offGrid rr cc then None else Some (Cell.mk rr cc)
  | _, _ => None
  end.

Definition onDown (p : Vec.t) (st : State) : State :=
  if negb (isGame (page st)) then st
  else if negb (gameReady st) then st
  else if packComplete st then st
  else
    match cellOfPoint p with
    | None => st
    | Some cell =>
        mkState (page st) (gameReady st) (packComplete st) (found st)
          (lockedLines st) (liveLine st) (Some cell) None (Some p)
    end.

Definition onMove (p : Vec.t) (st : State) : State :=
  if negb (isGame (page st)) then st
  else if negb (gameReady st) then st
  else
    match startCell st with
    | None => st
    | Some start =>
        if packComplete st then st
        else
          let lock :=
            match dirLock st, startPoint st with
            | None, Some sp =>
                let dx := dxOf sp p in
                let dy := dyOf sp p in
                if belowThreshold MIN_PIXELS dx dy then None
                else classify DIAGONAL_SLOP AXIS_DOMINANCE dx dy
            | lock, _ => lock
            end in
          mkState (page st) (gameReady st) (packComplete st) (found st)
            (lockedLines st) (Some (liveLineTo rect start p)) (startCell st)
            lock (startPoint st)
    end.

(** [dist(a, b)] *)
Definition dist (a b : Pt.t) : spec_float :=
  let dx := F64.sub (Pt.x a) (Pt.x b) in
  let dy := F64.sub (Pt.y a) (Pt.y b) in
  F64.sqrt (F64.add (F64.mul dx dx) (F64.mul dy dy)).

(** [END_TOLERANCE]: [CELL_RADIUS * 0.99] with
    [CELL_RADIUS = r.width / GRID_SIZE / 2]. *)
Definition END_TOLERANCE : spec_float :=
  let CELL_RADIUS := F64.div (F64.div (F64.valPos (width rect)) gridSize) (F64.ofZ 2) in
  F64.mul CELL_RADIUS (F64.ratio 99 100).

(** [Math.min(dStart, dEnd) > END_TOLERANCE] *)
Definition fingerTooFar (fingerPos startCenter endCenter : Pt.t) : bool :=
  let dStart := dist fingerPos startCenter in
  let dEnd := dist fingerPos endCenter in
  F64.ltb END_TOLERANCE (F64.min dStart dEnd).

(** What the body of [for (const w of words)] does with one word. *)
Inductive Tried : Type :=
| Continue                          (* [continue] *)
| Matched (line : Pt.t * Pt.t)      (* found, with the line to lock *)
| TypeError.                        (* [center(undefined)] *)

(** The body of the loop for a word that is not yet found.  The empty
    word has no cells: [cells[0]] is [undefined] and [center] raises a
    [TypeError], which leaves the loop. *)
Definition tryWord (st : State) (start lock : Cell.t) (w : jsstring) : Tried :=
  let cells := cellsFrom start lock (length w) in
  if existsb (fun c => offGrid (Cell.r c) (Cell.c c)) cells then Continue
  else
    let text := textOf grid cells in
    let rev := reverse text in
    if bool_decide (text ≠ w) && bool_decide (rev ≠ w) then Continue
    else
      match head cells, last cells with
      | Some startCell, Some endCell =>
          let fingerPos :=
            match liveLine st with
            | Some (_, e) => e
            | None => center rect endCell
            end in
          let startCenter := center rect startCell in
          let endCenter := center rect endCell in
          if fingerTooFar fingerPos startCenter endCenter then Continue
          else Matched (startCenter, endCenter)
      | _, _ => TypeError
      end.

(** The loop over [words]: words already found are skipped, the first
    word found ends the loop. *)
Fixpoint matchLoop (st : State) (start lock : Cell.t) (ws : list jsstring)
    : option (jsstring * (Pt.t * Pt.t)) :=
  match ws with
  | [] => None
  | w :: rest =>
      if bool_decide (w ∈ found st) then matchLoop st start lock rest
      else
        match tryWord st start lock w with
        | Matched line => Some (w, line)
        | Continue => matchLoop st start lock rest
        | TypeError => None
        end
  end.

(** The [finally] block. *)
Definition release (st : State) : State :=
  mkState (page st) (gameReady st) (packComplete st) (found st)
    (lockedLines st) None None None None.

(** The [try] block of [onUp]. *)
Definition onUpBody (st : State) : State :=
  if negb (isGame (page st)) then st
  else if negb (gameReady st) then st
  else
    match startCell st, dirLock st with
    | Some start, Some lock =>
        if packComplete st then st
        else
          match matchLoop st start lock words with
          | Some (w, line) =>
              mkState (page st) (gameReady st) (packComplete st)
                ({[w]} ∪ found st) (lockedLines st ++ [line]) (liveLine st)
                (startCell st) (dirLock st) (startPoint st)
          | None => st
          end
    | _, _ => st
    end.

Definition onUp (st : State) : State := release (onUpBody st).

(** A gesture: pointer-down at [p0], pointer-moves in order, then
    pointer-up. *)
Definition drag (p0 : Vec.t) (moves : list Vec.t) (st : State) : State :=
  fold_left (fun st p => onMove p st) moves (onDown p0 st).

Definition gesture (p0 : Vec.t) (moves : list Vec.t) (st : State) : State :=
  onUp (drag p0 moves st).

End Handlers.

End App.

(** ** The handlers of the second copy of the application file *)

Module AppB.

Record State : Type := mkState {
  page : Page;
  gameReady : bool;
  packComplete : bool;
  found : gset (list Z);
  lockedLines : list (Pt.t * Pt.t);
  liveLine : option (Pt.t * Pt.t);
  startCell : option Cell.t;
  dirLock : option Cell.t;
  startPoint : option Vec.t;
  lastClient : option Vec.t
}.

Definition MIN_PIXELS : spec_float := F64.ofZ 10.
Definition DIAGONAL_SLOP : spec_float := F64.ratio 38 100.
Definition AXIS_DOMINANCE : spec_float := F64.ratio 24 10.
Definition END_TOL : Z := 1.

Section Handlers.

(** Fixed while a puzzle is on screen: the rectangle of the grid, the
    puzzle words, the grid, and the hit test [cellFromClient], which
    asks the document for the element under a point and reads the
    [data-r] and [data-c] of the enclosing cell, if there is one. *)
Variables (rect : Rect) (words : list jsstring) (grid : Grid).
Variable cellFromClient : Vec.t -> option Cell.t.

Definition onDown (p : Vec.t) (st : State) : State :=
  if negb (isGame (page st)) then st
  else if negb (gameReady st) then st
  else if packComplete st then st
  else
    match cellFromClient p with
    | None => st
    | Some cell =>
        mkState (page st) (gameReady st) (packComplete st) (found st)
          (lockedLines st) (Some (liveLineTo rect cell p))
          (Some cell) None (Some p) (Some p)
    end.

Definition onMove (p : Vec.t) (st : State) : State :=
  if negb (isGame (page st)) then st
  else if negb (gameReady st) then st
  else
    match startCell st with
    | None => st
    | Some start =>
        if packComplete st then st
        else
          let lock :=
            match dirLock st, startPoint st with
            | None, Some sp =>
                let dx := dxOf sp p in
                let dy := dyOf sp p in
                if belowThreshold MIN_PIXELS dx dy then None
                else classify DIAGONAL_SLOP AXIS_DOMINANCE dx dy
            | lock, _ => lock
            end in
          mkState (page st) (gameReady st) (packComplete st) (found st)
            (lockedLines st) (Some (liveLineTo rect start p)) (startCell st)
            lock (startPoint st) (Some p)
    end.

(** "Determine direction from drag (8 directions)": the step that
    [onUp] computes from the start point and the last pointer
    position; [None] is the [return] on a tiny drag. *)
Definition stepOf (st : State) (start : Cell.t) (lift : Vec.t)
    (liftCell : option Cell.t) : option Cell.t :=
  match startPoint st with
  | Some sp =>
      let dx := dxOf sp lift in
      let dy := dyOf sp lift in
      let adx := F64.abs dx in
      let ady := F64.abs dy in
      if F64.ltb adx (F64.ofZ 8) && F64.ltb ady (F64.ofZ 8) then None
      else if F64.ltb (F64.mul adx (F64.ofZ 2)) ady then Some (Cell.mk (F64.sign dy) 0)
      else if F64.ltb (F64.mul ady (F64.ofZ 2)) adx then Some (Cell.mk 0 (F64.sign dx))
      else Some (Cell.mk (F64.sign dy) (F64.sign dx))
  | None =>
      match liftCell with
      | Some lc =>
          Some (Cell.mk (Z.sgn (Cell.r lc - Cell.r start))
                        (Z.sgn (Cell.c lc - Cell.c start)))
      | None => Some (Cell.mk 0 0)
      end
  end.

(** [liftCloseTo(end, tol)] *)
Definition liftCloseTo (liftCell : option Cell.t) (endCell : Cell.t) (tol : Z) : bool :=
  match liftCell with
  | None => true
  | Some lc =>
      let d := Z.max (Z.abs (Cell.r lc - Cell.r endCell))
                     (Z.abs (Cell.c lc - Cell.c endCell)) in
      d <=? tol
  end.

(** The end cell of a word from [start] along [step]. *)
Definition endOf (start step : Cell.t) (w : jsstring) : Cell.t :=
  Cell.mk (Cell.r start + Cell.r step * (Z.of_nat (length w) - 1))
          (Cell.c start + Cell.c step * (Z.of_nat (length w) - 1)).

(** The body of [for (const w of words)] for a word not yet found:
    [true] when the word matches. *)
Definition wordMatches (liftCell : option Cell.t) (start step : Cell.t)
    (w : jsstring) : bool :=
  let endCell := endOf start step w in
  if offGrid (Cell.r endCell) (Cell.c endCell) then false
  else if negb (liftCloseTo liftCell endCell END_TOL) then false
  else
    let cells := cellsFrom start step (length w) in
    let forward := textOf grid cells in
    let backward := textOf grid (reverse cells) in
    negb (bool_decide (forward ≠ w) && bool_decide (backward ≠ w)).

Fixpoint matchLoop (st : State) (liftCell : option Cell.t) (start step : Cell.t)
    (ws : list jsstring) : option jsstring :=
  match ws with
  | [] => None
  | w :: rest =>
      if bool_decide (w ∈ found st) then matchLoop st liftCell start step rest
      else if wordMatches liftCell start step w then Some w
      else matchLoop st liftCell start step rest
  end.

(** The [finally] block. *)
Definition release (st : State) : State :=
  mkState (page st) (gameReady st) (packComplete st) (found st)
    (lockedLines st) None None None None None.

(** The [try] block of [onUp].  The locked line runs between the
    centres of the first and the last cell of the word.  The empty word
    has no cells: [cells[0]] is [undefined] and the updater handed to
    [setLockedLines] raises a [TypeError] when React runs it; the render
    fails, the tree is unmounted and neither update is ever shown.  The
    state is then left as it is. *)
Definition onUpBody (st : State) : State :=
  if negb (isGame (page st)) then st
  else if negb (gameReady st) then st
  else if packComplete st then st
  else
    match startCell st, lastClient st with
    | Some start, Some lift =>
        let liftCell := cellFromClient lift in
        match stepOf st start lift liftCell with
        | None => st
        | Some step =>
            if (Cell.r step =? 0) && (Cell.c step =? 0) then st
            else
              match matchLoop st liftCell start step words with
              | Some w =>
                  let cells := cellsFrom start step (length w) in
                  match head cells, last cells with
                  | Some firstCell, Some lastCell =>
                      mkState (page st) (gameReady st) (packComplete st)
                        ({[w]} ∪ found st)
                        (lockedLines st ++ [(center rect firstCell, center rect lastCell)])
                        (liveLine st) (startCell st) (dirLock st) (startPoint st)
                        (lastClient st)
                  | _, _ => st
                  end
              | None => st
              end
        end
    | _, _ => st
    end.

Definition onUp (st : State) : State := release (onUpBody st).

Definition drag (p0 : Vec.t) (moves : list Vec.t) (st : State) : State :=
  fold_left (fun st p => onMove p st) moves (onDown p0 st).

Definition gesture (p0 : Vec.t) (moves : list Vec.t) (st : State) : State :=
  onUp (drag p0 moves st).

End Handlers.

End AppB.

(** ** Properties *)

(** The classification in the words of the specification: which lock a
    displacement [(dx, dy)] above the threshold produces. *)
Definition locksAs (DIAGONAL_SLOP AXIS_DOMINANCE dx dy : spec_float)
    (lock : option Cell.t) : Prop :=
  let adx := F64.abs dx in
  let ady := F64.abs dy in
  let min := F64.min adx ady in
  let max := F64.max adx ady in
  let diagonal := F64.leb DIAGONAL_SLOP (F64.div min max) = true in
  let vertical := F64.leb (F64.mul adx AXIS_DOMINANCE) ady = true in
  let horizontal := F64.leb (F64.mul ady AXIS_DOMINANCE) adx = true in
  (diagonal -> lock = Some (Cell.mk (F64.sign dy) (F64.sign dx))) ∧
  (¬ diagonal -> vertical -> lock = Some (Cell.mk (F64.sign dy) 0)) ∧
  (¬ diagonal -> ¬ vertical -> horizontal -> lock = Some (Cell.mk 0 (F64.sign dx))) ∧
  (¬ diagonal -> ¬ vertical -> ¬ horizontal -> lock = None).

(** Both components of the displacement from [sp] to [p], as the
    handlers compute it, are below [m]: [|dx| < m] and [|dy| < m]. *)
Definition within (m : spec_float) (sp p : Vec.t) : Prop :=
  F64.ltb (F64.abs (dxOf sp p)) m = true ∧ F64.ltb (F64.abs (dyOf sp p)) m = true.

(** A drag is under way: the game is on and [onDown] has recorded the
    start cell and the start point. *)
Definition draggingA (st : App.State) (start : Cell.t) (sp : Vec.t) : Prop :=
  App.page st = game ∧ App.gameReady st = true ∧ App.packComplete st = false ∧
  App.startCell st = Some start ∧ App.startPoint st = Some sp.

Definition draggingB (st : AppB.State) (start : Cell.t) (sp : Vec.t) : Prop :=
  AppB.page st = game ∧ AppB.gameReady st = true ∧ AppB.packComplete st = false ∧
  AppB.startCell st = Some start ∧ AppB.startPoint st = Some sp.

(** The cells from [start] along [step] are on the grid and read [w],
    forward or reversed. *)
Definition readsAlong (grid : Grid) (start step : Cell.t) (w : jsstring) : Prop :=
  let cells := cellsFrom start step (length w) in
  (∀ c, c ∈ cells -> offGrid (Cell.r c) (Cell.c c) = false) ∧
  (textOf grid cells = w ∨ reverse (textOf grid cells) = w).

(** The end cell of [w] from [start] along [step] is on the grid, and the
    cells read [w], in their order or in the opposite order. *)
Definition readsTo (grid : Grid) (start step : Cell.t) (w : jsstring) : Prop :=
  let cells := cellsFrom start step (length w) in
  offGrid (Cell.r (AppB.endOf start step w)) (Cell.c (AppB.endOf start step w)) = false ∧
  (textOf grid cells = w ∨ textOf grid (reverse cells) = w).

(** The pointer position that [onUp] of [src/App.tsx] measures from. *)
Definition fingerPosA (rect : Rect) (st : App.State) (endCell : Cell.t) : Pt.t :=
  match App.liveLine st with
  | Some (_, e) => e
  | None => center rect endCell
  end.

(** Chebyshev distance between two cells. *)
Definition chebyshev (a b : Cell.t) : Z :=
  Z.max (Z.abs (Cell.r a - Cell.r b)) (Z.abs (Cell.c a - Cell.c b)).

(** Between gestures the refs are cleared. *)
Definition restingA (st : App.State) : Prop :=
  App.startCell st = None ∧ App.dirLock st = None.

Definition restingB (st : AppB.State) : Prop :=
  AppB.startCell st = None ∧ AppB.dirLock st = None.

(** ** A worked puzzle *)

Module Example.

(** A grid of 300 by 300 pixels at the origin: cells of 30 pixels. *)
Definition rect : Rect :=
  mkRect (F64.finZ 0) (F64.finZ 0) (F64.posZ 300) (F64.posZ 300).

(** ["CAT"] placed eastward from row 2, column 1; ["X"] elsewhere. *)
Definition catGrid : Grid :=
  writeWord (filledGrid (str "X")) (str "CAT") 2 1 (Cell.mk 0 1).

(** ["CAT"] placed eastward from row 0, column 1. *)
Definition topGrid : Grid :=
  writeWord (filledGrid (str "X")) (str "CAT") 0 1 (Cell.mk 0 1).

(** A hit test for cells laid out edge to edge over [rect]. *)
Definition hit : Vec.t -> option Cell.t := App.cellOfPoint rect.

Definition east : Cell.t := Cell.mk 0 1.
Definition north : Cell.t := Cell.mk (-1) 0.

(** No gesture under way, the game running, nothing found yet. *)
Definition idleA : App.State :=
  App.mkState game true false ∅ [] None None None None.
Definition idleB : AppB.State :=
  AppB.mkState game true false ∅ [] None None None None None.

(** The game running with ["CAT"] found. *)
Definition foundCat : App.State :=
  App.mkState game true false {[str "CAT"]} [] None None None None.

(** A grid of 350 by 350 pixels at the origin: cells of 35 pixels, the
    centre of cell (2,1), and a point at distance 17.325000000000003
    from it. *)
Definition wide : Rect :=
  mkRect (F64.finZ 0) (F64.finZ 0) (F64.posZ 350) (F64.posZ 350).
Definition c21 : Vec.t := Vec.mk (F64.finRatio 525 10) (F64.finRatio 875 10).
Definition off21 : Vec.t :=
  Vec.mk (F64.finRatio 5653443649105773 100000000000000)
         (F64.finRatio 7065129241752882 100000000000000).

(** A closure whose state counts its calls; every number it returns is
    0, but the one at position 1807, which makes a row index of 1. *)
Definition counting (k : nat) : Z * nat :=
  (if (k =? 1807)%nat then 429496730 else 0, S k).

(** Two words of ten letters: each fills a row or a column. *)
Definition tenA : jsstring := str "AAAAAAAAAA".
Definition tenB : jsstring := str "BBBBBBBBBB".

(** Centre of cell (2,1), and of cell (2,3). *)
Definition p21 : Vec.t := Vec.ofZ 45 75.
Definition p23 : Vec.t := Vec.ofZ 105 75.
(** 20 pixels above the centre of cell (2,1). *)
Definition p21up : Vec.t := Vec.ofZ 45 55.

End Example.

(** ** Grid shape and what the generator keeps *)

(** Ten rows of ten cells. *)
Definition wellFormed (grid : Grid) : Prop :=
  length grid = Z.to_nat GRID_SIZE ∧
  Forall (fun row : list jsstring => length row = Z.to_nat GRID_SIZE) grid.

(** Every cell that holds a letter in [g] holds the same letter in [g']. *)
Definition keeps (g g' : Grid) : Prop :=
  ∀ r c cell, cellAt g r c = Some cell -> cell ≠ [] -> cellAt g' r c = Some cell.

(** No cell holds more than one code unit. *)
Definition lettersOnly (grid : Grid) : Prop :=
  ∀ r c cell, cellAt grid r c = Some cell -> (length cell <= 1)%nat.

(** Every cell on the grid holds exactly one code unit. *)
Definition fullyLettered (grid : Grid) : Prop :=
  ∀ r c, 0 <= r < GRID_SIZE -> 0 <= c < GRID_SIZE -> ∃ u, cellAt grid r c = Some [u].

(** The word lies in the grid from [(r, c)] along [d], letter by letter. *)
Definition liesAt (grid : Grid) (w : jsstring) (r c : Z) (d : Cell.t) : Prop :=
  ∀ i u, w !! i = Some u ->
    offGrid (r + Cell.r d * Z.of_nat i) (c + Cell.c d * Z.of_nat i) = false ∧
    cellAt grid (r + Cell.r d * Z.of_nat i) (c + Cell.c d * Z.of_nat i) = Some [u].

(** The word lies somewhere in the grid, along one of the eight
    directions. *)
Definition placed (grid : Grid) (w : jsstring) : Prop :=
  ∃ r c d, d ∈ dirs ∧ liesAt grid w r c d.

(** ** The global cleanup and the advance effect *)

(** The listener [clear] that [src/App.tsx] installs on the window for
    pointer-up and pointer-cancel. *)
Definition clearA (st : App.State) : App.State :=
  App.mkState (App.page st) (App.gameReady st) (App.packComplete st) (App.found st)
    (App.lockedLines st) None None None None.

(** The same listener in the second copy; it leaves [lastClient]. *)
Definition clearB (st : AppB.State) : AppB.State :=
  AppB.mkState (AppB.page st) (AppB.gameReady st) (AppB.packComplete st) (AppB.found st)
    (AppB.lockedLines st) None None None None (AppB.lastClient st).

Definition PACK_SIZE : nat := 5.

(** The state the advance effect of [src/App.tsx] works on: the state of
    the handlers and [puzzleIndex]. *)
Record Pack : Type := mkPack { view : App.State; puzzleIndex : nat }.

(** The effect "Advance puzzles / complete pack", run on the words of
    the current puzzle.  Sound, vibration and the saving of the best time
    are left out. *)
Definition advanceEffect (words : list jsstring) (p : Pack) : Pack :=
  let st := view p in
  if negb (isGame (App.page st)) then p
  else if negb (App.gameReady st) then p
  else if App.packComplete st then p
  else if negb (size (App.found st) =? length words)%nat || (length words =? 0)%nat then p
  else if (puzzleIndex p <? PACK_SIZE - 1)%nat then
    mkPack (App.mkState (App.page st) (App.gameReady st) (App.packComplete st)
              ∅ [] None None None None)
           (puzzleIndex p + 1)
  else
    mkPack (App.mkState (App.page st) (App.gameReady st) true (App.found st)
              (App.lockedLines st) (App.liveLine st) (App.startCell st)
              (App.dirLock st) (App.startPoint st))
           (puzzleIndex p).

(** A session on one puzzle: gestures, each a pointer-down, pointer-moves
    and a pointer-up, one after the other. *)
Definition gesturesA (rect : Rect) (words : list jsstring) (grid : Grid)
    (gs : list (Vec.t * list Vec.t)) (st : App.State) : App.State :=
  fold_left (fun st g => App.gesture rect words grid (fst g) (snd g) st) gs st.

Definition gesturesB (rect : Rect) (words : list jsstring) (grid : Grid)
    (cellFromClient : Vec.t -> option Cell.t)
    (gs : list (Vec.t * list Vec.t)) (st : AppB.State) : AppB.State :=
  fold_left (fun st g => AppB.gesture rect words grid cellFromClient (fst g) (snd g) st) gs st.

(** The opposite direction. *)
Definition opposite (d : Cell.t) : Cell.t := Cell.mk (- Cell.r d) (- Cell.c d).

(** * Verification *)

(** ** Binary64 rounding *)

Section Rounding.

Lemma digits2_pos_bounds p :
  2 ^ (Zpos (digits2_pos p) - 1) <= Zpos p < 2 ^ Zpos (digits2_pos p).
Proof.
  induction p as [p IH | p IH |]; cbn [digits2_pos].
  - rewrite Pos2Z.inj_succ. change (Zpos p~1) with (2 * Zpos p + 1).
    replace (Z.succ (Zpos (digits2_pos p)) - 1) with (Z.succ (Zpos (digits2_pos p) - 1)) by lia.
    rewrite !Z.pow_succ_r by lia.
    assert (H : 2 ^ Zpos (digits2_pos p) = 2 * 2 ^ (Zpos (digits2_pos p) - 1)).
    { rewrite <- Z.pow_succ_r by lia. f_equal. lia. }
    lia.
  - rewrite Pos2Z.inj_succ. change (Zpos p~0) with (2 * Zpos p).
    replace (Z.succ (Zpos (digits2_pos p)) - 1) with (Z.succ (Zpos (digits2_pos p) - 1)) by lia.
    rewrite !Z.pow_succ_r by lia.
    assert (H : 2 ^ Zpos (digits2_pos p) = 2 * 2 ^ (Zpos (digits2_pos p) - 1)).
    { rewrite <- Z.pow_succ_r by lia. f_equal. lia. }
    lia.
  - simpl. lia.
Qed.

Lemma Zdigits2_lower (m j : Z) : 0 <= j -> 2 ^ j <= m -> j + 1 <= Zdigits2 m.
Proof.
  intros Hj Hm. destruct m as [| p | p]; try (pose proof (Z.pow_pos_nonneg 2 j); lia).
  simpl. pose proof (digits2_pos_bounds p) as [_ Hhi].
  assert (2 ^ j < 2 ^ Zpos (digits2_pos p)) by lia.
  apply Z.pow_lt_mono_r_iff in H; lia.
Qed.

Lemma Zdigits2_upper (m : Z) : 0 < m -> 2 ^ (Zdigits2 m - 1) <= m ∧ 1 <= Zdigits2 m.
Proof.
  destruct m as [| p | p]; try lia. intros _. simpl.
  split; [apply digits2_pos_bounds | lia].
Qed.

Lemma shr_1_m mrs : 0 <= shr_m mrs -> shr_m (shr_1 mrs) = shr_m mrs / 2.
Proof.
  destruct mrs as [m r s]. simpl. intros Hm. rewrite <- Z.div2_div.
  destruct m as [| [p | p |] | p]; try reflexivity. lia.
Qed.

Lemma iter_pos_shr p : ∀ mrs,
  0 <= shr_m mrs -> shr_m (SpecFloat.iter_pos shr_1 p mrs) = shr_m mrs / 2 ^ Zpos p.
Proof.
  induction p as [p IH | p IH |]; intros mrs Hm; cbn [SpecFloat.iter_pos].
  - assert (H1 : 0 <= shr_m (shr_1 mrs)) by (rewrite shr_1_m by lia; apply Z.div_pos; lia).
    assert (H2 : 0 <= shr_m (SpecFloat.iter_pos shr_1 p (shr_1 mrs))).
    { rewrite IH by lia. apply Z.div_pos; [lia | apply Z.pow_pos_nonneg; lia]. }
    rewrite IH, IH, shr_1_m by lia.
    rewrite !Z.div_div by (try apply Z.pow_pos_nonneg; lia).
    f_equal. replace (Zpos p~1) with (1 + Zpos p + Zpos p) by lia.
    rewrite !Z.pow_add_r by lia. lia.
  - assert (H2 : 0 <= shr_m (SpecFloat.iter_pos shr_1 p mrs)).
    { rewrite IH by lia. apply Z.div_pos; [lia | apply Z.pow_pos_nonneg; lia]. }
    rewrite IH, IH by lia.
    rewrite !Z.div_div by (try apply Z.pow_pos_nonneg; lia).
    f_equal. replace (Zpos p~0) with (Zpos p + Zpos p) by lia.
    rewrite !Z.pow_add_r by lia. lia.
  - rewrite shr_1_m by lia. reflexivity.
Qed.

Lemma shr_spec mrs e n :
  0 <= shr_m mrs ->
  shr_m (fst (shr mrs e n)) = shr_m mrs / 2 ^ Z.max n 0 ∧
  snd (shr mrs e n) = e + Z.max n 0.
Proof.
  intros Hm. destruct n as [| p | p]; simpl.
  - rewrite Z.div_1_r. split; [reflexivity | lia].
  - rewrite iter_pos_shr by assumption. split; reflexivity.
  - rewrite Z.div_1_r. split; [reflexivity | lia].
Qed.

Lemma shr_record_of_loc_m m l : shr_m (shr_record_of_loc m l) = m.
Proof. destruct l as [| []]; reflexivity. Qed.

Lemma round_nearest_even_bounds m l :
  m <= round_nearest_even m l <= m + 1.
Proof.
  unfold round_nearest_even. destruct l as [| []]; try lia. destruct (Z.even m); lia.
Qed.

(** The two shifts of [binary_round_aux] on a mantissa [m >= 0]. *)
Lemma binary_round_aux_shape s m e l :
  0 <= m ->
  ∃ m1 m2 k1 k2,
    0 <= k1 ∧ 0 <= k2 ∧
    k1 = Z.max (SpecFloat.fexp F64.prec F64.emax (Zdigits2 m + e) - e) 0 ∧
    m / 2 ^ k1 <= m1 <= m / 2 ^ k1 + 1 ∧
    k2 = Z.max (SpecFloat.fexp F64.prec F64.emax (Zdigits2 m1 + (e + k1)) - (e + k1)) 0 ∧
    m2 = m1 / 2 ^ k2 ∧
    binary_round_aux F64.prec F64.emax s m e l =
      match m2 with
      | Z0 => S754_zero s
      | Zpos p => if e + k1 + k2 <=? F64.emax - F64.prec
                  then S754_finite s p (e + k1 + k2) else S754_infinity s
      | Zneg _ => S754_nan
      end.
Proof.
  intros Hm. unfold binary_round_aux, shr_fexp.
  set (n1 := SpecFloat.fexp F64.prec F64.emax (Zdigits2 m + e) - e).
  destruct (shr_spec (shr_record_of_loc m l) e n1) as [H1 H1e].
  { now rewrite shr_record_of_loc_m. }
  rewrite shr_record_of_loc_m in H1.
  destruct (shr (shr_record_of_loc m l) e n1) as [mrs1 e1]. simpl in H1, H1e.
  set (m1 := round_nearest_even (shr_m mrs1) (loc_of_shr_record mrs1)).
  pose proof (round_nearest_even_bounds (shr_m mrs1) (loc_of_shr_record mrs1)) as Hr.
  fold m1 in Hr. rewrite H1 in Hr.
  assert (Hm1 : 0 <= m1).
  { assert (0 <= m / 2 ^ Z.max n1 0) by (apply Z.div_pos; [lia | apply Z.pow_pos_nonneg; lia]).
    lia. }
  set (n2 := SpecFloat.fexp F64.prec F64.emax (Zdigits2 m1 + e1) - e1).
  destruct (shr_spec (shr_record_of_loc m1 loc_Exact) e1 n2) as [H2 H2e].
  { now rewrite shr_record_of_loc_m. }
  rewrite shr_record_of_loc_m in H2.
  destruct (shr (shr_record_of_loc m1 loc_Exact) e1 n2) as [mrs2 e2]. simpl in H2, H2e.
  exists m1, (shr_m mrs2), (Z.max n1 0), (Z.max n2 0).
  subst e1 e2. repeat split; try lia; try assumption.
Qed.

Lemma binary_round_aux_number s m e l :
  0 <= m -> F64.number (binary_round_aux F64.prec F64.emax s m e l) ∧
            F64.signed s (binary_round_aux F64.prec F64.emax s m e l).
Proof.
  intros Hm.
  destruct (binary_round_aux_shape s m e l Hm)
    as (m1 & m2 & k1 & k2 & Hk1 & Hk2 & _ & Hm1 & _ & Hm2 & ->).
  assert (0 <= m2).
  { subst m2. apply Z.div_pos; [| apply Z.pow_pos_nonneg; lia].
    assert (0 <= m / 2 ^ k1) by (apply Z.div_pos; [lia | apply Z.pow_pos_nonneg; lia]). lia. }
  unfold F64.number. destruct m2 as [| p | p]; [| destruct (_ <=? _) | lia];
    (split; [discriminate | reflexivity]).
Qed.

Lemma binary_round_aux_signed s m e l :
  F64.signed s (binary_round_aux F64.prec F64.emax s m e l).
Proof.
  unfold binary_round_aux.
  destruct (shr_fexp _ _ _ _ _) as [mrs1 e1].
  destruct (shr_fexp _ _ _ _ _) as [mrs2 e2].
  destruct (shr_m mrs2); [| destruct (_ <=? _) |]; reflexivity.
Qed.

(** No underflow: a positive mantissa whose number is at least
    [2^-1022] rounds to a number that is not zero. *)
Lemma binary_round_aux_nonzero s p e l :
  -1021 <= Zdigits2 (Zpos p) + e ->
  F64.nonzero (binary_round_aux F64.prec F64.emax s (Zpos p) e l).
Proof.
  intros Hbig.
  destruct (binary_round_aux_shape s (Zpos p) e l ltac:(lia))
    as (m1 & m2 & k1 & k2 & Hk1 & Hk2 & Hk1' & Hm1 & Hk2' & Hm2 & ->).
  set (d := Zdigits2 (Zpos p)) in *.
  destruct (Zdigits2_upper (Zpos p) ltac:(lia)) as [Hlow Hd]. fold d in Hlow, Hd.
  unfold SpecFloat.fexp, SpecFloat.emin, F64.prec, F64.emax in Hk1', Hk2'.
  assert (Hk1d : k1 <= d - 1) by lia.
  assert (Hq : 2 ^ (d - 1 - k1) <= Zpos p / 2 ^ k1).
  { apply Z.div_le_lower_bound; [apply Z.pow_pos_nonneg; lia |].
    rewrite <- Z.pow_add_r by lia. replace (k1 + (d - 1 - k1)) with (d - 1) by lia. exact Hlow. }
  assert (Hm1low : 2 ^ (d - 1 - k1) <= m1) by lia.
  assert (Hm1pos : 0 < m1) by (pose proof (Z.pow_pos_nonneg 2 (d - 1 - k1)); lia).
  pose proof (Zdigits2_lower m1 (d - 1 - k1) ltac:(lia) Hm1low) as Hd1.
  destruct (Zdigits2_upper m1 Hm1pos) as [Hlow1 Hd1'].
  set (d1 := Zdigits2 m1) in *.
  assert (Hk2d : k2 <= d1 - 1) by lia.
  assert (Hm2pos : 1 <= m2).
  { subst m2. apply Z.div_le_lower_bound; [apply Z.pow_pos_nonneg; lia |].
    rewrite Z.mul_1_r. apply Z.le_trans with (2 ^ (d1 - 1)); [| exact Hlow1].
    apply Z.pow_le_mono_r; lia. }
  destruct m2 as [| q | q]; try lia. now destruct (_ <=? _).
Qed.

Lemma iter_xO_digits p d :
  digits2_pos (Pos.iter xO p d) = (digits2_pos p + d)%positive.
Proof.
  induction d as [| d IH] using Pos.peano_ind.
  - simpl. lia.
  - rewrite Pos.iter_succ. cbn [digits2_pos]. rewrite IH. lia.
Qed.

Lemma iter_xO_value p d : Zpos (Pos.iter xO p d) = Zpos p * 2 ^ Zpos d.
Proof.
  induction d as [| d IH] using Pos.peano_ind.
  - simpl. lia.
  - rewrite Pos.iter_succ, Pos2Z.inj_succ, Z.pow_succ_r by lia.
    change (Zpos (Pos.iter xO p d)~0) with (2 * Zpos (Pos.iter xO p d)). rewrite IH. lia.
Qed.

(** A mantissa of 53 bits with an exponent in range is kept. *)
Lemma binary_round_aux_exact s m e :
  digits2_pos m = 53%positive -> -1074 <= e <= 971 ->
  binary_round_aux F64.prec F64.emax s (Zpos m) e loc_Exact = S754_finite s m e.
Proof.
  intros Hd He. unfold binary_round_aux, shr_fexp.
  cbn [Zdigits2 shr_record_of_loc]. rewrite Hd.
  assert (Hf : SpecFloat.fexp F64.prec F64.emax (53 + e) - e = 0).
  { unfold SpecFloat.fexp, SpecFloat.emin, F64.prec, F64.emax. lia. }
  rewrite Hf. cbn [shr shr_m loc_of_shr_record round_nearest_even Zdigits2 shr_record_of_loc].
  rewrite Hd, Hf. cbn [shr shr_m].
  unfold F64.emax, F64.prec. destruct (Z.leb_spec e (1024 - 53)); [reflexivity | lia].
Qed.

(** Integers below [2^53] are numbers. *)
Lemma floor_ofZ n : 0 <= n < 2 ^ 53 -> F64.floor (F64.ofZ n) = Some n.
Proof.
  intros Hn. unfold F64.ofZ, binary_normalize. destruct n as [| p | p]; [reflexivity | | lia].
  unfold binary_round, shl_align.
  pose proof (digits2_pos_bounds p) as [Hlo Hhi].
  remember (digits2_pos p) as d eqn:Hdp.
  assert (Hd : Zpos d <= 53).
  { destruct (Z.le_gt_cases (Zpos d) 53) as [H | H]; [exact H |].
    assert (2 ^ 53 <= 2 ^ (Zpos d - 1)) by (apply Z.pow_le_mono_r; lia). lia. }
  assert (Hf : SpecFloat.fexp F64.prec F64.emax (Zpos d + 0) = Zpos d - 53).
  { unfold SpecFloat.fexp, SpecFloat.emin, F64.prec, F64.emax. lia. }
  rewrite Hf. replace (Zpos d - 53 - 0) with (Zpos d - 53) by lia.
  destruct (Zpos d - 53) as [| q | q] eqn:Hk; try lia.
  - rewrite binary_round_aux_exact; [| lia | lia].
    cbn [F64.floor cond_Zopp]. now rewrite Z.shiftl_0_r.
  - rewrite binary_round_aux_exact; [| rewrite iter_xO_digits; lia | lia].
    cbn [F64.floor cond_Zopp]. rewrite iter_xO_value.
    change (Z.shiftl (Zpos p * 2 ^ Zpos q) (Zneg q))
      with (Z.shiftr (Zpos p * 2 ^ Zpos q) (Zpos q)).
    rewrite Z.shiftr_div_pow2 by lia. rewrite Z.div_mul; [reflexivity |].
    apply Z.pow_nonzero; lia.
Qed.

Lemma plus_exact x y : 0 <= x + y < 2 ^ 53 -> JS.plus x y = x + y.
Proof. intros H. unfold JS.plus. now rewrite floor_ofZ. Qed.

End Rounding.

Section Numbers.

Lemma binary_round_number s m e :
  F64.number (binary_round F64.prec F64.emax s m e).
Proof.
  unfold binary_round. destruct (shl_align _ _ _) as [mz ez].
  apply binary_round_aux_number. lia.
Qed.

Lemma binary_normalize_number m e sz :
  F64.number (binary_normalize F64.prec F64.emax m e sz).
Proof.
  destruct m; simpl; [discriminate | apply binary_round_number ..].
Qed.

(** The difference of two finite numbers is a number. *)
Lemma sub_number (a b : F64.fin) : F64.number (F64.sub (F64.val a) (F64.val b)).
Proof.
  destruct a as [sa | sa ma ea], b as [sb | sb mb eb]; unfold F64.sub; simpl.
  - destruct sa, sb; discriminate.
  - discriminate.
  - discriminate.
  - apply binary_normalize_number.
Qed.

Lemma abs_signed x : F64.signed false (F64.abs x).
Proof. destruct x; reflexivity. Qed.

Lemma abs_zero x : F64.abs x = S754_zero false -> F64.sign x = 0.
Proof. destruct x; simpl; [reflexivity | discriminate ..]. Qed.

Lemma sign_unit x : -1 <= F64.sign x <= 1.
Proof. destruct x as [| s | | s m e]; simpl; try destruct s; lia. Qed.

Lemma sign_zero x :
  F64.sign x = 0 -> F64.abs x = S754_zero false ∨ x = S754_nan.
Proof.
  destruct x as [s | s | | s m e]; simpl; intros H;
    [now left | destruct s; lia | now right | destruct s; lia].
Qed.

Lemma mul_signed sx sy x y :
  F64.signed sx x -> F64.signed sy y -> F64.signed (xorb sx sy) (F64.mul x y).
Proof.
  destruct x as [s1 | s1 | | s1 m1 e1], y as [s2 | s2 | | s2 m2 e2];
    simpl; intros; subst; try reflexivity.
  apply binary_round_aux_signed.
Qed.

(** Nothing with a clear sign bit is below zero, and only zero is at or
    below it. *)
Lemma ltb_zero x : F64.signed false x -> F64.ltb x (S754_zero false) = false.
Proof. destruct x as [s | s | | s m e]; simpl; intros; subst; reflexivity. Qed.

Lemma leb_zero x :
  F64.signed false x -> F64.leb x (S754_zero false) = true -> x = S754_zero false.
Proof.
  destruct x as [s | s | | s m e]; simpl; intros; subst;
    (reflexivity || discriminate).
Qed.

(** A number not below a number of exponent [e0] has an exponent at
    least [e0]. *)
Lemma ltb_false_exponent m e m0 e0 :
  F64.ltb (S754_finite false m e) (S754_finite false m0 e0) = false -> e0 <= e.
Proof.
  unfold F64.ltb, SFltb. simpl. destruct (Z.compare_spec e e0); intros; (lia || discriminate).
Qed.

(** The product of a number of exponent at least [-1021 - digits - ed]
    with a positive constant does not underflow to zero. *)
Lemma mul_nonzero m e md ed :
  -1021 <= Zdigits2 (Zpos md) + e + ed ->
  F64.nonzero (F64.mul (S754_finite false m e) (S754_finite false md ed)).
Proof.
  intros H. unfold F64.mul, SFmul. cbn [xorb]. apply binary_round_aux_nonzero.
  destruct (Zdigits2_upper (Zpos md) ltac:(lia)) as [Hlow Hd].
  assert (Hle : 2 ^ (Zdigits2 (Zpos md) - 1) <= Zpos (m * md)).
  { rewrite Pos2Z.inj_mul. nia. }
  pose proof (Zdigits2_lower (Zpos (m * md)) (Zdigits2 (Zpos md) - 1) ltac:(lia) Hle). lia.
Qed.

Lemma nonzero_not_zero x : F64.nonzero x -> x ≠ S754_zero false.
Proof. destruct x; simpl; intros H; (contradiction || discriminate). Qed.

End Numbers.

(** ** Hash: the source against FNV-1a *)

Section HashFacts.

Lemma toInt32_mod x : JS.toInt32 x mod 2 ^ 32 = x mod 2 ^ 32.
Proof.
  unfold JS.toInt32.
  rewrite Zminus_mod, Zmod_mod, <- Zminus_mod.
  f_equal. lia.
Qed.

Lemma toInt32_range x : - 2 ^ 31 <= JS.toInt32 x < 2 ^ 31.
Proof.
  unfold JS.toInt32.
  pose proof (Z.mod_pos_bound (x + 2 ^ 31) (2 ^ 32)). lia.
Qed.

Lemma lxor_mod_pow2 a b n :
  0 <= n -> Z.lxor a b mod 2 ^ n = Z.lxor (a mod 2 ^ n) (b mod 2 ^ n) mod 2 ^ n.
Proof.
  intros Hn. apply Z.bits_inj'. intros i Hi.
  destruct (Z.lt_ge_cases i n) as [Hlt | Hge].
  - rewrite !Z.mod_pow2_bits_low, !Z.lxor_spec, !Z.mod_pow2_bits_low by lia.
    reflexivity.
  - rewrite !Z.mod_pow2_bits_high by lia. reflexivity.
Qed.

Lemma xor_mod a b :
  JS.xor a b mod 2 ^ 32 = Z.lxor (a mod 2 ^ 32) b mod 2 ^ 32.
Proof.
  unfold JS.xor.
  rewrite toInt32_mod, lxor_mod_pow2, !toInt32_mod by lia.
  rewrite (lxor_mod_pow2 (a mod 2 ^ 32) b) by lia.
  now rewrite Zmod_mod.
Qed.

Lemma shl_mod a k :
  0 <= k < 32 -> JS.shl a k mod 2 ^ 32 = (a * 2 ^ k) mod 2 ^ 32.
Proof.
  intros Hk. unfold JS.shl.
  rewrite toInt32_mod, (Z.mod_small k 32) by lia.
  rewrite Z.shiftl_mul_pow2 by lia.
  rewrite Zmult_mod, toInt32_mod, <- Zmult_mod. reflexivity.
Qed.

Lemma add_mod_congr m a a' b b' :
  a mod m = a' mod m -> b mod m = b' mod m -> (a + b) mod m = (a' + b') mod m.
Proof.
  intros Ha Hb. rewrite (Zplus_mod a b), (Zplus_mod a' b'), Ha, Hb. reflexivity.
Qed.

(** A round multiplies by the FNV prime modulo [2^32]:
    [1 + 2 + 16 + 128 + 256 + 2^24 = 16777619]. *)
Lemma hashStep_mod h c :
  hashStep h c mod 2 ^ 32 = (Z.lxor (h mod 2 ^ 32) c * 16777619) mod 2 ^ 32.
Proof.
  unfold hashStep.
  set (x := JS.xor h c).
  assert (Hx : x mod 2 ^ 32 = Z.lxor (h mod 2 ^ 32) c mod 2 ^ 32)
    by apply xor_mod.
  rewrite (Zmult_mod (Z.lxor _ _)), <- Hx, <- Zmult_mod.
  replace (x * 16777619)
    with (x + (x * 2 ^ 1 + x * 2 ^ 4 + x * 2 ^ 7 + x * 2 ^ 8 + x * 2 ^ 24))
    by lia.
  repeat apply add_mod_congr; try reflexivity; apply shl_mod; lia.
Qed.

Lemma hashLoop_mod s : forall h,
  hashLoop s h mod 2 ^ 32 =
  fold_left (fun h c => (Z.lxor h c * 16777619) mod 2 ^ 32) s (h mod 2 ^ 32).
Proof.
  induction s as [| c rest IH]; intros h; simpl.
  - reflexivity.
  - rewrite IH, hashStep_mod. reflexivity.
Qed.

(** The sums of [hashSeed] are taken on binary64 numbers; they stay far
    below [2^53], so they are sums of integers. *)
Lemma hashStep_exact h c : Z.abs (hashStep h c) < 2 ^ 53.
Proof.
  unfold hashStep, JS.shl, JS.xor.
  repeat match goal with
         | |- context [JS.toInt32 ?e] =>
             lazymatch goal with
             | _ : _ <= JS.toInt32 e < _ |- _ => fail
             | _ => pose proof (toInt32_range e)
             end;
             generalize dependent (JS.toInt32 e); intros
         end.
  lia.
Qed.

End HashFacts.

(** C2.  [hashSeed] is 32-bit FNV-1a over the code units: offset basis
    2166136261, then [h = (h XOR c) * 16777619] modulo [2^32] for each
    character code; the string "test" hashes to 2949673445. *)
Theorem hashSeed_is_fnv1a :
  (forall s : jsstring, hashSeed s = fnv1a s) /\
  hashSeed (str "test") = 2949673445.
Proof.
  split.
  - intros s. unfold hashSeed, fnv1a, JS.toUint32.
    rewrite hashLoop_mod. reflexivity.
  - vm_compute. reflexivity.
Qed.

(** ** Findability *)

Lemma offGrid_false rr cc :
  offGrid rr cc = false <-> 0 <= rr < GRID_SIZE ∧ 0 <= cc < GRID_SIZE.
Proof.
  unfold offGrid. rewrite !orb_false_iff, !Z.ltb_ge, !Z.geb_leb, !Z.leb_gt. lia.
Qed.

Section Findability.

Lemma scanWord_sound grid word rev r c d todo : forall okF okR okF' okR',
  scanWord grid word rev r c d todo okF okR = (okF', okR') ->
  (okF' = true -> okF = true ∧
     ∀ i, i ∈ todo ->
       offGrid (r + Cell.r d * Z.of_nat i) (c + Cell.c d * Z.of_nat i) = false ∧
       cellAt grid (r + Cell.r d * Z.of_nat i) (c + Cell.c d * Z.of_nat i) = charAt word i) ∧
  (okR' = true -> okR = true ∧
     ∀ i, i ∈ todo ->
       offGrid (r + Cell.r d * Z.of_nat i) (c + Cell.c d * Z.of_nat i) = false ∧
       cellAt grid (r + Cell.r d * Z.of_nat i) (c + Cell.c d * Z.of_nat i) = charAt rev i).
Proof.
  induction todo as [| i rest IH]; intros okF okR okF' okR' Hscan; simpl in Hscan.
  - inversion Hscan; subst. split; intros ->; (split; [reflexivity |]);
      intros i Hi; inversion Hi.
  - destruct (offGrid _ _) eqn:Hoff.
    { inversion Hscan; subst. split; intros ?; discriminate. }
    apply IH in Hscan as [HF HR]. split.
    + intros H. destruct (HF H) as [Hok Hall].
      destruct (decide (cellAt grid _ _ ≠ charAt word i)) as [| Heq]; [discriminate |].
      split; [assumption |].
      intros k Hk. apply elem_of_cons in Hk as [-> | Hk]; [| auto].
      split; [assumption |]. now apply dec_stable.
    + intros H. destruct (HR H) as [Hok Hall].
      destruct (decide (cellAt grid _ _ ≠ charAt rev i)) as [| Heq]; [discriminate |].
      split; [assumption |].
      intros k Hk. apply elem_of_cons in Hk as [-> | Hk]; [| auto].
      split; [assumption |]. now apply dec_stable.
Qed.

Lemma readCells_letters grid r c d (w : jsstring) :
  (∀ i, i ∈ seq 0 (length w) ->
     offGrid (r + Cell.r d * Z.of_nat i) (c + Cell.c d * Z.of_nat i) = false ∧
     cellAt grid (r + Cell.r d * Z.of_nat i) (c + Cell.c d * Z.of_nat i) = charAt w i) ->
  readCells grid r c d (length w) = Some (lettersOf w).
Proof.
  intros Hall. unfold readCells. apply mapM_Some.
  apply Forall2_same_length_lookup_2.
  - unfold lettersOf. now rewrite length_seq, length_fmap.
  - intros i k cell Hk Hcell.
    apply lookup_seq in Hk as [-> Hlt]. simpl.
    destruct (Hall i) as [Hoff Hat].
    { apply elem_of_seq. lia. }
    rewrite Hoff, Hat. unfold charAt, lettersOf in *.
    rewrite list_lookup_fmap in Hcell. exact Hcell.
Qed.

Lemma gridIndices_range r : r ∈ gridIndices -> 0 <= r < GRID_SIZE.
Proof.
  unfold gridIndices. intros H.
  apply list_elem_of_fmap in H as (n & -> & Hn).
  apply elem_of_seq in Hn. unfold GRID_SIZE in *. lia.
Qed.

(** What a positive answer of [gridContainsWord] means. *)
Lemma gridContainsWord_findable grid w :
  gridContainsWord grid w = true -> findable grid w.
Proof.
  unfold gridContainsWord. intros H.
  apply existsb_exists in H as (r & Hr & H).
  apply existsb_exists in H as (c & Hc & H).
  apply existsb_exists in H as (d & Hd & H).
  apply list_elem_of_In in Hr, Hc, Hd.
  destruct (scanWord _ _ _ _ _ _ _ _ _) as [okF okR] eqn:Hscan.
  apply scanWord_sound in Hscan as [HF HR].
  exists r, c, d. repeat split; try (now apply gridIndices_range); try assumption.
  apply orb_true_iff in H as [-> | ->].
  - left. apply readCells_letters. now apply HF.
  - right. rewrite <- (length_reverse w). apply readCells_letters.
    rewrite length_reverse. now apply HR.
Qed.

Context {R : Type} (rng : R -> Z * R).

(** A pass that returns a grid has checked every word. *)
Lemma attempt_verified words s grid s' :
  attempt rng words s = (Some grid, s') ->
  forallb (gridContainsWord grid) words = true.
Proof.
  unfold attempt. intros H.
  destruct (placeWords _ _ _ _) as [[g1 |] s1]; [| discriminate].
  destruct (fillCells _ _ _ _) as [g2 s2].
  destruct (forallb _ _) eqn:Hall; [| discriminate].
  inversion H; subst. exact Hall.
Qed.

(** The outer loop returns the grid of ["X"] or a verified grid. *)
Lemma attempts_verified n words : forall s,
  fst (attempts rng n words s) = sentinel ∨
  forallb (gridContainsWord (fst (attempts rng n words s))) words = true.
Proof.
  induction n as [| n IH]; intros s; cbn [attempts].
  - left. reflexivity.
  - destruct (attempt rng words s) as [[g |] s'] eqn:Hatt.
    + right. simpl. eapply attempt_verified, Hatt.
    + apply IH.
Qed.

End Findability.

(** C1.  Every word of [words] can be found in a grid that
    [generateGrid(words, seed)] returns, unless that grid is the sentinel:
    some start cell and one of the eight directions read the word, forward
    or reversed, without leaving the grid.  [rng] in state [s0] is the
    closure that [createSeededRandom(seed)] returns, whatever it is. *)
Theorem generateGrid_findable {R : Type} (rng : R -> Z * R) (s0 : R)
    (words : list jsstring) (w : jsstring) :
  fst (generatePuzzleGuaranteed rng words s0) ≠ sentinel ->
  w ∈ words ->
  findable (fst (generatePuzzleGuaranteed rng words s0)) w.
Proof.
  intros Hns Hw. unfold generatePuzzleGuaranteed in *.
  destruct (attempts_verified rng 40 words s0) as [Hs | Hall]; [contradiction |].
  apply gridContainsWord_findable.
  rewrite forallb_forall in Hall. apply Hall. now apply list_elem_of_In.
Qed.

Lemma generateGrid_findable_witness :
  findable (generateGrid [str "CAT"; str "DOG"] (str "seed")) (str "DOG").
Proof.
  apply (generateGrid_findable mulberry32 (createSeededRandom (str "seed"))
           [str "CAT"; str "DOG"] (str "DOG")).
  - vm_compute. discriminate.
  - apply list_elem_of_In. simpl. right. left. reflexivity.
Defined.

(** ** Exhaustion *)

Section Exhaustion.

Context {R : Type} (rng : R -> Z * R).

Lemma pickDir_dirs u : pickDir u ∈ dirs.
Proof.
  unfold pickDir. apply list_elem_of_In.
  destruct (Nat.lt_ge_cases (Z.to_nat (JS.floorMul u (Z.of_nat (length dirs)))) (length dirs))
    as [Hlt | Hge].
  - now apply nth_In.
  - rewrite nth_overflow by assumption. simpl. left. reflexivity.
Qed.

(** A word longer than the grid fits nowhere: one of its first eleven
    positions is off the grid in every direction. *)
Lemma canPlace_too_long grid (w : jsstring) r c d :
  d ∈ dirs -> (Z.to_nat GRID_SIZE < length w)%nat -> canPlace grid w r c d = false.
Proof.
  intros Hd Hlen. apply not_true_is_false. intros Hok.
  unfold canPlace in Hok. rewrite forallb_forall in Hok.
  assert (H0 := Hok 0%nat). assert (H10 := Hok 10%nat).
  rewrite <- list_elem_of_In, elem_of_seq in H0, H10.
  unfold GRID_SIZE in Hlen. simpl in Hlen.
  specialize (H0 ltac:(lia)). specialize (H10 ltac:(lia)).
  apply negb_true_iff, orb_false_iff in H0 as [H0 _].
  apply negb_true_iff, orb_false_iff in H10 as [H10 _].
  apply offGrid_false in H0, H10. unfold GRID_SIZE in H0, H10.
  unfold dirs in Hd. rewrite !elem_of_cons in Hd.
  destruct Hd as [-> | [-> | [-> | [-> | [-> | [-> | [-> | [-> | Hd]]]]]]]];
    [.. | inversion Hd]; simpl in H0, H10; lia.
Qed.

Lemma tryPlace_too_long t : forall grid (w : jsstring) s,
  (Z.to_nat GRID_SIZE < length w)%nat -> fst (tryPlace rng t grid w s) = None.
Proof.
  induction t as [| t IH]; intros grid w s Hlen; simpl.
  - reflexivity.
  - destruct (rng s) as [u1 s1]. destruct (rng s1) as [u2 s2].
    destruct (rng s2) as [u3 s3].
    rewrite canPlace_too_long by (apply pickDir_dirs || assumption).
    now apply IH.
Qed.

Lemma placeWords_too_long words : forall grid s (w : jsstring),
  w ∈ words -> (Z.to_nat GRID_SIZE < length w)%nat ->
  fst (placeWords rng words grid s) = None.
Proof.
  induction words as [| v rest IH]; intros grid s w Hin Hlen.
  - inversion Hin.
  - cbn [placeWords]. destruct (tryPlace rng 600 grid v s) as [[g |] s'] eqn:Htry.
    + apply elem_of_cons in Hin as [-> | Hin].
      * pose proof (tryPlace_too_long 600 grid v s Hlen) as Hnone.
        rewrite Htry in Hnone. discriminate.
      * eapply IH; eassumption.
    + reflexivity.
Qed.

Lemma attempt_too_long words s (w : jsstring) :
  w ∈ words -> (Z.to_nat GRID_SIZE < length w)%nat ->
  fst (attempt rng words s) = None.
Proof.
  intros Hin Hlen. unfold attempt.
  pose proof (placeWords_too_long words (filledGrid []) s w Hin Hlen) as H.
  destruct (placeWords _ _ _ _) as [[g |] s']; [discriminate | reflexivity].
Qed.

Lemma attempts_too_long n words (w : jsstring) : forall s,
  w ∈ words -> (Z.to_nat GRID_SIZE < length w)%nat ->
  fst (attempts rng n words s) = sentinel.
Proof.
  induction n as [| n IH]; intros s Hin Hlen; cbn [attempts].
  - reflexivity.
  - pose proof (attempt_too_long words s w Hin Hlen) as H.
    destruct (attempt rng words s) as [[g |] s']; [discriminate |].
    now apply IH.
Qed.

End Exhaustion.

Lemma sentinel_cells r c :
  0 <= r < GRID_SIZE -> 0 <= c < GRID_SIZE -> cellAt sentinel r c = Some (str "X").
Proof.
  intros Hr Hc. unfold cellAt, sentinel, filledGrid, GRID_SIZE in *.
  destruct (Z.ltb_spec r 0), (Z.ltb_spec c 0); try lia. cbn [orb].
  rewrite lookup_replicate_2 by lia. cbn [mbind option_bind].
  apply lookup_replicate_2. lia.
Qed.

(** C3.  With a word longer than the grid size in [words],
    [generateGrid(words, seed)] returns the sentinel, each of whose
    10 x 10 cells holds ["X"]; no grid that holds the other words is
    returned.  [rng] in state [s0] is the closure that
    [createSeededRandom(seed)] returns, whatever it is. *)
Theorem generateGrid_too_long {R : Type} (rng : R -> Z * R) (s0 : R)
    (words : list jsstring) (w : jsstring) :
  w ∈ words ->
  (Z.to_nat GRID_SIZE < length w)%nat ->
  fst (generatePuzzleGuaranteed rng words s0) = sentinel ∧
  length (fst (generatePuzzleGuaranteed rng words s0)) = Z.to_nat GRID_SIZE ∧
  ∀ r c, 0 <= r < GRID_SIZE -> 0 <= c < GRID_SIZE ->
         cellAt (fst (generatePuzzleGuaranteed rng words s0)) r c = Some (str "X").
Proof.
  intros Hin Hlen.
  assert (Hs : fst (generatePuzzleGuaranteed rng words s0) = sentinel).
  { unfold generatePuzzleGuaranteed. eapply attempts_too_long; eassumption. }
  rewrite Hs. split; [reflexivity |]. split.
  - unfold sentinel, filledGrid. now rewrite length_replicate.
  - apply sentinel_cells.
Qed.

Lemma generateGrid_too_long_witness :
  generateGrid [str "CAT"; str "ABCDEFGHIJK"] (str "seed") = sentinel.
Proof.
  apply (generateGrid_too_long mulberry32 (createSeededRandom (str "seed"))
           [str "CAT"; str "ABCDEFGHIJK"] (str "ABCDEFGHIJK")).
  - apply list_elem_of_In. simpl. right. left. reflexivity.
  - vm_compute. lia.
Defined.

(** ** One stream for the whole call *)

Section SingleStream.

Context {R : Type} (rng : R -> Z * R) (s0 : R).

(** A call in the state that [k] calls lead to returns the [k]-th
    number of the stream and leaves the state of [k + 1] calls. *)
Lemma rng_advance k :
  rng (advance rng k s0) = (streamNth rng s0 k, advance rng (S k) s0).
Proof.
  change (advance rng (S k) s0) with (snd (rng (advance rng k s0))).
  unfold streamNth. apply surjective_pairing.
Qed.

(** The tries [j0], [j0 + 1], ... of a word whose tries start at
    position [k]. *)
Lemma tryPlace_onStream t : ∀ grid w k j0,
  tryPlace rng t grid w (advance rng (k + 3 * j0)%nat s0) =
  match List.find (fun j => validAt grid w (candidate (streamNth rng s0) k j)) (seq j0 t) with
  | Some j =>
      let '(d, r, c) := candidate (streamNth rng s0) k j in
      (Some (writeWord grid w r c d), advance rng (k + 3 * (j + 1))%nat s0)
  | None => (None, advance rng (k + 3 * (j0 + t))%nat s0)
  end.
Proof.
  induction t as [| t IH]; intros grid w k j0.
  - cbn [tryPlace seq List.find]. now rewrite Nat.add_0_r.
  - cbn [tryPlace seq List.find]. rewrite !rng_advance.
    unfold validAt at 1. unfold candidate at 1.
    replace (S (k + 3 * j0)) with (k + 3 * j0 + 1)%nat by lia.
    replace (S (k + 3 * j0 + 1)) with (k + 3 * j0 + 2)%nat by lia.
    destruct (canPlace _ _ _ _ _) eqn:Hok.
    + unfold candidate.
      replace (S (k + 3 * j0 + 2)) with (k + 3 * (j0 + 1))%nat by lia. reflexivity.
    + replace (S (k + 3 * j0 + 2)) with (k + 3 * S j0)%nat by lia.
      rewrite IH. replace (S j0 + t)%nat with (j0 + S t)%nat by lia. reflexivity.
Qed.

Lemma tryPlace_placeOnStream grid w k :
  tryPlace rng 600 grid w (advance rng k s0) =
  (fst (placeOnStream (streamNth rng s0) grid w k), advance rng (snd (placeOnStream (streamNth rng s0) grid w k)) s0).
Proof.
  pose proof (tryPlace_onStream 600 grid w k 0) as H.
  replace (k + 3 * 0)%nat with k in H by lia. rewrite H. unfold placeOnStream.
  destruct (List.find _ _) as [j |]; [| reflexivity].
  now destruct (candidate (streamNth rng s0) k j) as [[d r] c].
Qed.

(** Once a word has failed, the words after it change nothing. *)
Lemma placeAllOnStream_failed words k :
  fold_left (fun acc w =>
               match acc with
               | (Some g, k) => placeOnStream (streamNth rng s0) g w k
               | (None, k) => (None, k)
               end)
            words (None, k) = (None, k).
Proof. induction words as [| w rest IH]; [reflexivity | exact IH]. Qed.

Lemma placeWords_onStream words : ∀ grid k,
  placeWords rng words grid (advance rng k s0) =
  (fst (placeAllOnStream (streamNth rng s0) words grid k),
   advance rng (snd (placeAllOnStream (streamNth rng s0) words grid k)) s0).
Proof.
  induction words as [| w rest IH]; intros grid k; [reflexivity |].
  cbn [placeWords]. rewrite tryPlace_placeOnStream.
  unfold placeAllOnStream. cbn [fold_left].
  destruct (placeOnStream (streamNth rng s0) grid w k) as [[g |] k'] eqn:Hone; cbn [fst snd].
  - apply IH.
  - now rewrite placeAllOnStream_failed.
Qed.

Lemma fillCells_onStream cells : ∀ grid k,
  fillCells rng cells grid (advance rng k s0) =
  let acc :=
    fold_left (fun acc rc =>
                 let '(g, k) := acc in
                 match cellAt g (fst rc) (snd rc) with
                 | Some (_ :: _) => (g, k)
                 | _ =>
                     let i := Z.to_nat (JS.floorMul (streamNth rng s0 k) (Z.of_nat (length letters))) in
                     (setCell g (fst rc) (snd rc) (default [] (charAt letters i)), S k)
                 end)
              cells (grid, k) in
  (fst acc, advance rng (snd acc) s0).
Proof.
  induction cells as [| [r c] rest IH]; intros grid k; [reflexivity |].
  cbn [fillCells fold_left fst snd].
  destruct (cellAt grid r c) as [[| x cell] |].
  - rewrite rng_advance. apply IH.
  - apply IH.
  - rewrite rng_advance. apply IH.
Qed.

Lemma attempt_onStream words k :
  attempt rng words (advance rng k s0) =
  (fst (attemptOnStream (streamNth rng s0) words k), advance rng (snd (attemptOnStream (streamNth rng s0) words k)) s0).
Proof.
  unfold attempt, attemptOnStream. rewrite placeWords_onStream.
  destruct (placeAllOnStream (streamNth rng s0) words (filledGrid []) k) as [[g |] k']; cbn [fst snd];
    [| reflexivity].
  rewrite fillCells_onStream. unfold fillOnStream. cbn zeta.
  destruct (fold_left _ allCells (g, k')) as [g' k'']. cbn [fst snd].
  now destruct (forallb _ _).
Qed.

Lemma attempts_onStream n words : ∀ k,
  attempts rng n words (advance rng k s0) =
  (fst (attemptsOnStream (streamNth rng s0) n words k), advance rng (snd (attemptsOnStream (streamNth rng s0) n words k)) s0).
Proof.
  induction n as [| n IH]; intros k; [reflexivity |].
  cbn [attempts attemptsOnStream]. rewrite attempt_onStream.
  destruct (attemptOnStream (streamNth rng s0) words k) as [[g |] k']; cbn [fst snd]; [reflexivity |].
  apply IH.
Qed.

End SingleStream.

(** C5.  [generatePuzzleGuaranteed] creates [rng] once, before the outer
    loop, and every pass calls that one closure.  So the call is the
    generator of section 4.3 read off one stream by position, the stream
    of the state [s0] the closure is created in: the grid is the same,
    and the closure is left in the state that as many calls lead to as
    the generator on the stream read numbers.  There a pass that fails
    at position [k'] is followed by a pass that starts at [k'], from a
    fresh empty grid: the [k]-th number consumed anywhere in the call is
    the [k]-th number of the one stream.  For [generateGrid(words,
    seed)] the stream is that of [mulberry32] from the state
    [createSeededRandom seed].  On a closure that counts its calls, with
    two words of ten letters: the first pass places the first word in
    row 0, tries the second word 600 times in the same place and fails
    after 1803 numbers; the second pass reads on from position 1803,
    places the second word in row 1 with the number at position 1807,
    and the call returns its grid after 1889 numbers. *)
Theorem generateGrid_single_stream {R : Type} (rng : R -> Z * R) (s0 : R)
    (words : list jsstring) :
  generatePuzzleGuaranteed rng words s0
  = (fst (generateOnStream (streamNth rng s0) words),
     advance rng (snd (generateOnStream (streamNth rng s0) words)) s0) ∧
  (∀ seed,
     generateGrid words seed
     = fst (generateOnStream (streamNth mulberry32 (createSeededRandom seed)) words)) ∧
  attempt Example.counting [Example.tenA; Example.tenB] 0%nat = (None, 1803%nat) ∧
  generatePuzzleGuaranteed Example.counting [Example.tenA; Example.tenB] 0%nat
  = (writeWord (filledGrid (str "A")) Example.tenB 1 0 Example.east, 1889%nat).
Proof.
  split; [| split; [| split]].
  - exact (attempts_onStream rng s0 40 words 0).
  - intros seed. unfold generateGrid.
    change (generatePuzzleGuaranteed mulberry32 words (createSeededRandom seed))
      with (attempts mulberry32 40 words (advance mulberry32 0 (createSeededRandom seed))).
    now rewrite attempts_onStream.
  - vm_compute. reflexivity.
  - vm_compute. reflexivity.
Qed.

(** ** The word picker against its reference definition *)

Section PickerFacts.

Lemma mulberry32_range a : 0 <= fst (mulberry32 a) < 2 ^ 32.
Proof. unfold mulberry32, JS.toUint32. cbn [fst]. apply Z.mod_pos_bound. lia. Qed.

Lemma mulberry32_stream a0 k :
  mulberry32 (advance mulberry32 k a0)
  = (streamNth mulberry32 a0 k, advance mulberry32 (S k) a0).
Proof.
  change (advance mulberry32 (S k) a0)
    with (snd (mulberry32 (advance mulberry32 k a0))).
  unfold streamNth. apply surjective_pairing.
Qed.

(** The source lets the state [a] grow where the specification wraps it
    to 32 bits; the numbers are the same, since a call reads [a] through
    [ToInt32] and [ToUint32] only. *)
Lemma toInt32_congr x y : x mod 2 ^ 32 = y mod 2 ^ 32 -> JS.toInt32 x = JS.toInt32 y.
Proof.
  intros H. unfold JS.toInt32. f_equal. apply add_mod_congr; [exact H | reflexivity].
Qed.

Lemma mulberry32_wraps a a' :
  0 <= a + 0x6d2b79f5 < 2 ^ 53 -> 0 <= a' + 0x6d2b79f5 < 2 ^ 53 ->
  a mod 2 ^ 32 = a' mod 2 ^ 32 -> fst (mulberry32 a) = fst (mulberry32 a').
Proof.
  intros Ha Ha' H.
  assert (Hc : (a + 0x6d2b79f5) mod 2 ^ 32 = (a' + 0x6d2b79f5) mod 2 ^ 32)
    by (apply add_mod_congr; [exact H | reflexivity]).
  unfold mulberry32. rewrite !plus_exact by assumption.
  unfold JS.xor, JS.or, JS.shru, JS.imul, JS.toUint32. cbn [fst].
  rewrite (toInt32_congr _ _ Hc), Hc. reflexivity.
Qed.

(** After [k] calls the state is [a + k * 0x6d2b79f5], as long as that is
    below [2^53]: from a seed of 32 bits, for some 4.9 million calls. *)
Lemma advance_mulberry32 a k :
  0 <= a -> a + Z.of_nat k * 0x6d2b79f5 < 2 ^ 53 ->
  advance mulberry32 k a = a + Z.of_nat k * 0x6d2b79f5.
Proof.
  intros Ha. induction k as [| k IH]; intros Hk.
  - simpl. lia.
  - change (advance mulberry32 (S k) a)
      with (snd (mulberry32 (advance mulberry32 k a))).
    rewrite IH by lia. unfold mulberry32. cbn [snd]. rewrite plus_exact by lia. lia.
Qed.

Lemma streamNth_range a0 k : 0 <= streamNth mulberry32 a0 k < 2 ^ 32.
Proof. unfold streamNth. apply mulberry32_range. Qed.

(** [floor(rand() * (i + 1))] is an index between 0 and [i]. *)
Lemma shuffle_index_range u (i : nat) :
  0 <= u < 2 ^ 32 -> (Z.to_nat (JS.floorMul u (Z.of_nat i + 1)) <= i)%nat.
Proof.
  intros Hu. unfold JS.floorMul.
  assert (u * (Z.of_nat i + 1) / 2 ^ 32 < Z.of_nat i + 1).
  { apply Z.div_lt_upper_bound; nia. }
  assert (0 <= u * (Z.of_nat i + 1) / 2 ^ 32).
  { apply Z.div_pos; nia. }
  lia.
Qed.

Lemma swapAt_exchange {A} (arr : list A) i j :
  (i < length arr)%nat -> (j < length arr)%nat -> swapAt arr i j = exchange i j arr.
Proof.
  intros Hi Hj. unfold swapAt, exchange.
  destruct (lookup_lt_is_Some_2 arr i Hi) as [ai Hai].
  destruct (lookup_lt_is_Some_2 arr j Hj) as [aj Haj].
  rewrite Hai, Haj. apply list_eq. intros k.
  rewrite list_lookup_imap.
  destruct (decide (k = j)) as [-> | Hkj].
  - rewrite list_lookup_insert_eq by (rewrite length_insert; lia).
    rewrite Haj. simpl. destruct (decide (j = i)) as [-> | Hji].
    + congruence.
    + reflexivity.
  - rewrite list_lookup_insert_ne by congruence.
    destruct (decide (k = i)) as [-> | Hki].
    + rewrite list_lookup_insert_eq by assumption.
      rewrite Hai. simpl. rewrite ?Haj. reflexivity.
    + rewrite list_lookup_insert_ne by congruence.
      destruct (arr !! k); reflexivity.
Qed.

Lemma exchange_length {A} (l : list A) i j : length (exchange i j l) = length l.
Proof. unfold exchange. apply length_imap. Qed.

(** The loop entered with [i], after [k0] numbers have been drawn, runs
    the remaining steps of the reference shuffle. *)
Lemma shuffleLoop_steps a0 (len : nat) : forall (i k0 : nat) (acc : list jsstring),
  length acc = len -> (i + k0 = len - 1)%nat -> (i < len)%nat ->
  shuffleLoop i acc (advance mulberry32 k0 a0) =
  fold_left
    (fun acc k =>
       let i := (len - 1 - k)%nat in
       exchange i (Z.to_nat (JS.floorMul (streamNth mulberry32 a0 k) (Z.of_nat i + 1))) acc)
    (seq k0 i) acc.
Proof.
  induction i as [| i IH]; intros k0 acc Hlen Hsum Hlt.
  - reflexivity.
  - cbn [shuffleLoop seq fold_left]. rewrite mulberry32_stream.
    replace (len - 1 - k0)%nat with (S i) by lia.
    pose proof (streamNth_range a0 k0) as Hu.
    pose proof (shuffle_index_range _ (S i) Hu) as Hj.
    rewrite swapAt_exchange by lia.
    apply IH; [now rewrite exchange_length | lia | lia].
Qed.

Lemma shuffleLoop_length i : forall (arr : list jsstring) a,
  length (shuffleLoop i arr a) = length arr.
Proof.
  induction i as [| i IH]; intros arr a; cbn [shuffleLoop].
  - reflexivity.
  - destruct (mulberry32 a) as [u a']. rewrite IH. unfold swapAt.
    destruct (arr !! _), (arr !! S i); now rewrite ?length_insert.
Qed.

Lemma shuffle_is_fisherYates (usable : list jsstring) a0 :
  shuffleLoop (length usable - 1) usable a0
  = fisherYates (streamNth mulberry32 a0) usable.
Proof.
  unfold fisherYates. destruct usable as [| w rest]; [reflexivity |].
  apply (shuffleLoop_steps a0 (length (w :: rest)) _ 0%nat); simpl; lia.
Qed.

End PickerFacts.

(** C4.  [pickWords] is the reference definition: the words of [bank] of
    length at most [gridSize] in their order, shuffled by Fisher-Yates
    with [i] from [length - 1] down to [1] and [floor(rand() * (i + 1))]
    on the stream of the hashed seed, cut to the first [count] and put in
    upper case.  It returns fewer than [count] words exactly when fewer
    than [count] words fit, never more than [count], and every index the
    shuffle uses is inside the array. *)
Theorem pickWords_reference (toUpperCase : list Z -> list Z) (bank : list jsstring)
    (count gridSize : nat) (seed : jsstring) :
  let fits := filter (fun w : jsstring => (length w <= gridSize)%nat) bank in
  pickWords toUpperCase bank count gridSize seed
    = pickWordsRef toUpperCase bank count gridSize seed ∧
  ((length (pickWords toUpperCase bank count gridSize seed) < count)%nat
     <-> (length fits < count)%nat) ∧
  length (pickWords toUpperCase bank count gridSize seed) = Nat.min count (length fits) ∧
  (∀ a i, (Z.to_nat (JS.floorMul (fst (mulberry32 a)) (Z.of_nat i + 1)) <= i)%nat).
Proof.
  intros fits.
  assert (Hlen : length (pickWords toUpperCase bank count gridSize seed)
                 = Nat.min count (length fits)).
  { unfold pickWords. fold fits.
    now rewrite length_map, length_take, shuffleLoop_length. }
  split; [| split; [| split]].
  - unfold pickWords, pickWordsRef. fold fits.
    now rewrite shuffle_is_fisherYates.
  - rewrite Hlen. lia.
  - exact Hlen.
  - intros a i. apply shuffle_index_range, mulberry32_range.
Qed.

(** ** Direction lock *)

Section LockFacts.

Lemma belowThreshold_within m sp p :
  belowThreshold m (dxOf sp p) (dyOf sp p) = true <-> within m sp p.
Proof. unfold belowThreshold, within. now rewrite andb_true_iff. Qed.

Lemma classify_locksAs slop dom dx dy :
  locksAs slop dom dx dy (classify slop dom dx dy).
Proof.
  unfold locksAs, classify.
  destruct (F64.leb slop _) eqn:Hd.
  { repeat split; intros; (reflexivity || congruence). }
  destruct (F64.leb (F64.mul (F64.abs dx) dom) _) eqn:Hv.
  { repeat split; intros; (reflexivity || congruence). }
  destruct (F64.leb (F64.mul (F64.abs dy) dom) _) eqn:Hh.
  { repeat split; intros; (reflexivity || congruence). }
  repeat split; intros; (reflexivity || congruence).
Qed.

End LockFacts.

Section MoveFacts.

Variable rect : Rect.

Lemma onMoveA_unlocked st start sp p :
  draggingA st start sp -> App.dirLock st = None ->
  App.dirLock (App.onMove rect p st) =
    if belowThreshold App.MIN_PIXELS (dxOf sp p) (dyOf sp p) then None
    else classify App.DIAGONAL_SLOP App.AXIS_DOMINANCE (dxOf sp p) (dyOf sp p).
Proof.
  intros (Hp & Hr & Hc & Hs & Hsp) Hl. unfold App.onMove.
  rewrite Hp, Hr, Hc, Hs, Hsp, Hl. reflexivity.
Qed.

Lemma onMoveA_locked st d p :
  App.dirLock st = Some d -> App.dirLock (App.onMove rect p st) = Some d.
Proof.
  intros Hl. unfold App.onMove.
  destruct (negb (isGame _)), (negb (App.gameReady st)), (App.startCell st),
    (App.packComplete st); simpl; rewrite ?Hl; reflexivity.
Qed.

Lemma onMovesA_locked moves : forall st d,
  App.dirLock st = Some d ->
  App.dirLock (fold_left (fun st p => App.onMove rect p st) moves st) = Some d.
Proof.
  induction moves as [| p rest IH]; intros st d Hl; simpl.
  - exact Hl.
  - apply IH. now apply onMoveA_locked.
Qed.

Lemma onMoveB_unlocked st start sp p :
  draggingB st start sp -> AppB.dirLock st = None ->
  AppB.dirLock (AppB.onMove rect p st) =
    if belowThreshold AppB.MIN_PIXELS (dxOf sp p) (dyOf sp p) then None
    else classify AppB.DIAGONAL_SLOP AppB.AXIS_DOMINANCE (dxOf sp p) (dyOf sp p).
Proof.
  intros (Hp & Hr & Hc & Hs & Hsp) Hl. unfold AppB.onMove.
  rewrite Hp, Hr, Hc, Hs, Hsp, Hl. reflexivity.
Qed.

Lemma onMoveB_locked st d p :
  AppB.dirLock st = Some d -> AppB.dirLock (AppB.onMove rect p st) = Some d.
Proof.
  intros Hl. unfold AppB.onMove.
  destruct (negb (isGame _)), (negb (AppB.gameReady st)), (AppB.startCell st),
    (AppB.packComplete st); simpl; rewrite ?Hl; reflexivity.
Qed.

Lemma onMovesB_locked moves : forall st d,
  AppB.dirLock st = Some d ->
  AppB.dirLock (fold_left (fun st p => AppB.onMove rect p st) moves st) = Some d.
Proof.
  induction moves as [| p rest IH]; intros st d Hl; simpl.
  - exact Hl.
  - apply IH. now apply onMoveB_locked.
Qed.

End MoveFacts.

(** C6.  While a drag has no locked direction, a pointer-move whose
    displacement [(dx, dy)] from the start point is below the
    minimum-pixel threshold in both axes locks nothing, and one that is
    not locks the diagonal [(sign dy, sign dx)] when
    [min / max >= DIAGONAL_SLOP], else the vertical [(sign dy, 0)] when
    [ady >= adx * AXIS_DOMINANCE], else the horizontal [(0, sign dx)] when
    [adx >= ady * AXIS_DOMINANCE], else nothing; and no later pointer-move
    changes a lock.  The differences, the quotient, the products and the
    comparisons are those of binary64 numbers.  This holds in
    [src/App.tsx] (14 pixels, 0.58, 2.6) and in the second copy (10
    pixels, 0.38, 2.4).  A move from (45, 0) to (77, 18.56) locks the
    diagonal in [src/App.tsx]: the quotient 18.56 / 32 rounds to the
    number that [0.58] denotes. *)
Theorem onMove_direction_lock (rect : Rect) (p : Vec.t) :
  (∀ st start sp,
     draggingA st start sp -> App.dirLock st = None ->
     (within App.MIN_PIXELS sp p -> App.dirLock (App.onMove rect p st) = None) ∧
     (¬ within App.MIN_PIXELS sp p ->
      locksAs App.DIAGONAL_SLOP App.AXIS_DOMINANCE (dxOf sp p) (dyOf sp p)
        (App.dirLock (App.onMove rect p st)))) ∧
  (∀ st d moves,
     App.dirLock st = Some d ->
     App.dirLock (fold_left (fun st p => App.onMove rect p st) moves st) = Some d) ∧
  (∀ st start sp,
     draggingB st start sp -> AppB.dirLock st = None ->
     (within AppB.MIN_PIXELS sp p -> AppB.dirLock (AppB.onMove rect p st) = None) ∧
     (¬ within AppB.MIN_PIXELS sp p ->
      locksAs AppB.DIAGONAL_SLOP AppB.AXIS_DOMINANCE (dxOf sp p) (dyOf sp p)
        (AppB.dirLock (AppB.onMove rect p st)))) ∧
  (∀ st d moves,
     AppB.dirLock st = Some d ->
     AppB.dirLock (fold_left (fun st p => AppB.onMove rect p st) moves st) = Some d) ∧
  App.dirLock (App.drag Example.rect (Vec.ofZ 45 0)
                 [Vec.mk (F64.finZ 77) (F64.finRatio 1856 100)] Example.idleA)
    = Some (Cell.mk 1 1).
Proof.
  split; [| split; [| split; [| split]]].
  - intros st start sp Hdrag Hl.
    rewrite (onMoveA_unlocked rect st start sp p Hdrag Hl).
    destruct (belowThreshold _ _ _) eqn:Hb.
    + apply belowThreshold_within in Hb. split; [reflexivity | contradiction].
    + split; [| intros _; apply classify_locksAs].
      intros Hw. apply belowThreshold_within in Hw. congruence.
  - intros st d moves Hl. now apply onMovesA_locked.
  - intros st start sp Hdrag Hl.
    rewrite (onMoveB_unlocked rect st start sp p Hdrag Hl).
    destruct (belowThreshold _ _ _) eqn:Hb.
    + apply belowThreshold_within in Hb. split; [reflexivity | contradiction].
    + split; [| intros _; apply classify_locksAs].
      intros Hw. apply belowThreshold_within in Hw. congruence.
  - intros st d moves Hl. now apply onMovesB_locked.
  - vm_compute. reflexivity.
Qed.

Lemma onMove_direction_lock_witness :
  locksAs App.DIAGONAL_SLOP App.AXIS_DOMINANCE
    (dxOf Example.p21 Example.p23) (dyOf Example.p21 Example.p23)
    (App.dirLock (App.onMove Example.rect Example.p23
                    (App.onDown Example.rect Example.p21 Example.idleA))).
Proof.
  apply (proj1 (onMove_direction_lock Example.rect Example.p23)
           (App.onDown Example.rect Example.p21 Example.idleA) (Cell.mk 2 1) Example.p21).
  - vm_compute. repeat split; reflexivity.
  - vm_compute. reflexivity.
  - intros [H _]. vm_compute in H. discriminate.
Defined.

(** ** What pointer-up can match *)

Section UpFacts.

Variables (rect : Rect) (words : list jsstring) (grid : Grid).
Variable cellFromClient : Vec.t -> option Cell.t.

Lemma tryWordA_matched st start lock w line :
  App.tryWord rect grid st start lock w = App.Matched line ->
  readsAlong grid start lock w ∧
  ∃ c0 cl,
    head (cellsFrom start lock (length w)) = Some c0 ∧
    last (cellsFrom start lock (length w)) = Some cl ∧
    App.fingerTooFar rect (fingerPosA rect st cl) (center rect c0) (center rect cl) = false ∧
    line = (center rect c0, center rect cl).
Proof.
  unfold App.tryWord, readsAlong. intros H.
  destruct (existsb _ _) eqn:Hoff; [discriminate |].
  destruct (bool_decide (textOf grid _ ≠ w) && _) eqn:Htext; [discriminate |].
  destruct (head _) as [c0 |] eqn:Hhd; [| discriminate].
  destruct (last _) as [cl |] eqn:Hlast; [| discriminate].
  fold (fingerPosA rect st cl) in H.
  destruct (App.fingerTooFar _ _ _ _) eqn:Hfar; [discriminate |].
  inversion H; subst line. split; [split |].
  - intros c Hc. apply not_true_is_false. intros Hc'.
    assert (existsb (fun c => offGrid (Cell.r c) (Cell.c c))
              (cellsFrom start lock (length w)) = true) as Hex.
    { apply existsb_exists. exists c. split; [now apply list_elem_of_In | exact Hc']. }
    congruence.
  - apply andb_false_iff in Htext as [Ht | Ht];
      apply bool_decide_eq_false in Ht; [left | right]; now apply dec_stable.
  - exists c0, cl. repeat split; assumption.
Qed.

Lemma matchLoopA_sound st start lock ws w line :
  App.matchLoop rect grid st start lock ws = Some (w, line) ->
  w ∈ ws ∧ (w ∉ App.found st) ∧
  App.tryWord rect grid st start lock w = App.Matched line.
Proof.
  induction ws as [| v rest IH]; simpl; [discriminate |].
  destruct (bool_decide (v ∈ App.found st)) eqn:Hf.
  - intros H. destruct (IH H) as (Hin & Hnf & Ht).
    repeat split; [(apply elem_of_cons; now right) | assumption | assumption].
  - apply bool_decide_eq_false in Hf.
    destruct (App.tryWord rect grid st start lock v) as [| l |] eqn:Ht.
    + intros H. destruct (IH H) as (Hin & Hnf & Ht').
      repeat split; [(apply elem_of_cons; now right) | assumption | assumption].
    + intros H. inversion H; subst. repeat split; [(apply elem_of_cons; now left) | assumption | assumption].
    + discriminate.
Qed.

(** A word that [onUp] of [src/App.tsx] adds was matched by the loop,
    from the start cell along the locked direction. *)
Lemma onUpA_new st w :
  w ∈ App.found (App.onUp rect words grid st) -> w ∉ App.found st ->
  ∃ start lock line,
    App.startCell st = Some start ∧ App.dirLock st = Some lock ∧
    w ∈ words ∧ App.tryWord rect grid st start lock w = App.Matched line.
Proof.
  unfold App.onUp, App.release, App.onUpBody. simpl. intros Hin Hnot.
  destruct (negb (isGame _)); [contradiction |].
  destruct (negb (App.gameReady st)); [contradiction |].
  destruct (App.startCell st) as [start |]; [| contradiction].
  destruct (App.dirLock st) as [lock |]; [| contradiction].
  destruct (App.packComplete st); [contradiction |].
  destruct (App.matchLoop _ _ _ _ _ _) as [[v line] |] eqn:Hloop; [| contradiction].
  simpl in Hin. apply elem_of_union in Hin as [Hin | Hin]; [| contradiction].
  apply elem_of_singleton in Hin. subst v.
  apply matchLoopA_sound in Hloop as (Hw & _ & Ht).
  exists start, lock, line. repeat split; assumption.
Qed.

Lemma wordMatchesB_reads liftCell start step w :
  AppB.wordMatches grid liftCell start step w = true ->
  readsTo grid start step w ∧
  AppB.liftCloseTo liftCell (AppB.endOf start step w) AppB.END_TOL = true.
Proof.
  unfold AppB.wordMatches, readsTo. intros H.
  destruct (offGrid _ _) eqn:Hoff; [discriminate |].
  destruct (AppB.liftCloseTo _ _ _) eqn:Hclose; [| discriminate].
  simpl in H. apply negb_true_iff, andb_false_iff in H.
  split; [split |]; [reflexivity | | reflexivity].
  destruct H as [H | H]; apply bool_decide_eq_false in H; [left | right];
    now apply dec_stable.
Qed.

Lemma matchLoopB_sound st liftCell start step ws w :
  AppB.matchLoop grid st liftCell start step ws = Some w ->
  w ∈ ws ∧ (w ∉ AppB.found st) ∧ AppB.wordMatches grid liftCell start step w = true.
Proof.
  induction ws as [| v rest IH]; simpl; [discriminate |].
  destruct (bool_decide (v ∈ AppB.found st)) eqn:Hf.
  - intros H. destruct (IH H) as (Hin & Hnf & Ht).
    repeat split; [(apply elem_of_cons; now right) | assumption | assumption].
  - apply bool_decide_eq_false in Hf.
    destruct (AppB.wordMatches grid liftCell start step v) eqn:Ht.
    + intros H. inversion H; subst.
      repeat split; [(apply elem_of_cons; now left) | assumption | assumption].
    + intros H. destruct (IH H) as (Hin & Hnf & Ht').
      repeat split; [(apply elem_of_cons; now right) | assumption | assumption].
Qed.

(** A word that [onUp] of the second copy adds was matched by the loop,
    from the start cell along the step derived at release. *)
Lemma onUpB_new st w :
  w ∈ AppB.found (AppB.onUp rect words grid cellFromClient st) ->
  w ∉ AppB.found st ->
  ∃ start lift step,
    AppB.startCell st = Some start ∧ AppB.lastClient st = Some lift ∧
    AppB.stepOf st start lift (cellFromClient lift) = Some step ∧
    w ∈ words ∧
    AppB.wordMatches grid (cellFromClient lift) start step w = true.
Proof.
  unfold AppB.onUp, AppB.release, AppB.onUpBody. simpl. intros Hin Hnot.
  destruct (negb (isGame _)); [contradiction |].
  destruct (negb (AppB.gameReady st)); [contradiction |].
  destruct (AppB.packComplete st); [contradiction |].
  destruct (AppB.startCell st) as [start |]; [| contradiction].
  destruct (AppB.lastClient st) as [lift |]; [| contradiction].
  destruct (AppB.stepOf _ _ _ _) as [step |] eqn:Hstep; [| contradiction].
  destruct ((Cell.r step =? 0) && _); [contradiction |].
  destruct (AppB.matchLoop _ _ _ _ _ _) as [v |] eqn:Hloop; [| contradiction].
  destruct (head _) as [c0 |]; [| contradiction].
  destruct (last _) as [cl |]; [| contradiction].
  simpl in Hin. apply elem_of_union in Hin as [Hin | Hin]; [| contradiction].
  apply elem_of_singleton in Hin. subst v.
  apply matchLoopB_sound in Hloop as (Hw & _ & Ht).
  exists start, lift, step. repeat split; assumption.
Qed.

End UpFacts.

Section ExampleFacts.

Import Example.

Lemma catGrid_north_text :
  textOf catGrid (cellsFrom (Cell.mk 2 1) north 3) = str "CXX".
Proof. vm_compute. reflexivity. Qed.

Lemma cat_not_north grid' :
  grid' = catGrid -> ¬ readsAlong grid' (Cell.mk 2 1) north (str "CAT").
Proof.
  intros -> [_ [H | H]]; simpl length in H; rewrite catGrid_north_text in H;
    vm_compute in H; discriminate.
Qed.

Lemma cat_not_north_to grid' :
  grid' = catGrid -> ¬ readsTo grid' (Cell.mk 2 1) north (str "CAT").
Proof.
  intros -> [_ [H | H]]; vm_compute in H; discriminate.
Qed.

End ExampleFacts.

(** C7, as the two variants have it.  Pointer-up matches a word only
    along the one direction it uses: the cells from the start cell along
    that direction, offsets [0 .. length - 1], read the word forward or
    reversed.  In [src/App.tsx] that direction is the lock of the gesture;
    in the second copy it is the step derived at release from the start
    point and the last pointer position.  With ["CAT"] placed eastward
    from row 2, column 1: a gesture from (2,1) to (2,3) that uses East
    matches it, and pointer-up from (2,1) with North does not. *)
Theorem onUp_direction_exact :
  (∀ rect words grid st w,
     w ∈ App.found (App.onUp rect words grid st) -> w ∉ App.found st ->
     ∃ start lock,
       App.startCell st = Some start ∧ App.dirLock st = Some lock ∧
       readsAlong grid start lock w) ∧
  (∀ rect words grid cellFromClient st w,
     w ∈ AppB.found (AppB.onUp rect words grid cellFromClient st) ->
     w ∉ AppB.found st ->
     ∃ start lift step,
       AppB.startCell st = Some start ∧ AppB.lastClient st = Some lift ∧
       AppB.stepOf st start lift (cellFromClient lift) = Some step ∧
       readsTo grid start step w) ∧
  (let st := App.drag Example.rect Example.p21 [Example.p23] Example.idleA in
   App.dirLock st = Some Example.east ∧
   str "CAT" ∈ App.found (App.onUp Example.rect [str "CAT"] Example.catGrid st)) ∧
  (let st := AppB.drag Example.rect Example.hit Example.p21 [Example.p23] Example.idleB in
   AppB.stepOf st (Cell.mk 2 1) Example.p23 (Example.hit Example.p23) = Some Example.east ∧
   str "CAT" ∈ AppB.found
     (AppB.onUp Example.rect [str "CAT"] Example.catGrid Example.hit st)) ∧
  (∀ rect words st,
     App.startCell st = Some (Cell.mk 2 1) -> App.dirLock st = Some Example.north ->
     str "CAT" ∉ App.found st ->
     str "CAT" ∉ App.found (App.onUp rect words Example.catGrid st)) ∧
  (∀ rect words cellFromClient st lift,
     AppB.startCell st = Some (Cell.mk 2 1) -> AppB.lastClient st = Some lift ->
     AppB.stepOf st (Cell.mk 2 1) lift (cellFromClient lift) = Some Example.north ->
     str "CAT" ∉ AppB.found st ->
     str "CAT" ∉ AppB.found (AppB.onUp rect words Example.catGrid cellFromClient st)).
Proof.
  split; [| split; [| split; [| split; [| split]]]].
  - intros rect words grid st w Hin Hnot.
    destruct (onUpA_new rect words grid st w Hin Hnot)
      as (start & lock & line & Hs & Hl & _ & Ht).
    apply tryWordA_matched in Ht as [Hreads _]. eauto.
  - intros rect words grid cellFromClient st w Hin Hnot.
    destruct (onUpB_new rect words grid cellFromClient st w Hin Hnot)
      as (start & lift & step & Hs & Hl & Hstep & _ & Hm).
    apply wordMatchesB_reads in Hm as [Hreads _]. eauto 10.
  - split; [vm_compute; reflexivity |]. vm_compute. reflexivity.
  - split; [vm_compute; reflexivity |]. vm_compute. reflexivity.
  - intros rect words st Hs Hl Hnot Hin.
    destruct (onUpA_new rect words _ st _ Hin Hnot)
      as (start & lock & line & Hs' & Hl' & _ & Ht).
    rewrite Hs in Hs'. rewrite Hl in Hl'. inversion Hs'; inversion Hl'; subst.
    apply tryWordA_matched in Ht as [Hreads _].
    now apply (cat_not_north Example.catGrid).
  - intros rect words cellFromClient st lift Hs Hl Hstep Hnot Hin.
    destruct (onUpB_new rect words _ cellFromClient st _ Hin Hnot)
      as (start & lift' & step & Hs' & Hl' & Hstep' & _ & Hm).
    rewrite Hs in Hs'. rewrite Hl in Hl'. inversion Hs'; inversion Hl'; subst.
    rewrite Hstep in Hstep'. inversion Hstep'; subst.
    apply wordMatchesB_reads in Hm as [Hreads _].
    now apply (cat_not_north_to Example.catGrid).
Qed.

Lemma onUp_direction_exact_witness :
  ∃ start lock,
    App.startCell (App.drag Example.rect Example.p21 [Example.p23] Example.idleA)
      = Some start ∧
    App.dirLock (App.drag Example.rect Example.p21 [Example.p23] Example.idleA)
      = Some lock ∧
    readsAlong Example.catGrid start lock (str "CAT").
Proof.
  apply (proj1 onUp_direction_exact Example.rect [str "CAT"] Example.catGrid
           (App.drag Example.rect Example.p21 [Example.p23] Example.idleA) (str "CAT")).
  - vm_compute. reflexivity.
  - intros H. vm_compute in H. discriminate.
Defined.

(** In the second copy a gesture from (2,1) that locked North and is
    released over (2,3) matches the ["CAT"] that lies eastward. *)
Lemma locked_north_matches_east :
  let st := AppB.drag Example.rect Example.hit Example.p21
              [Example.p21up; Example.p23] Example.idleB in
  AppB.startCell st = Some (Cell.mk 2 1) ∧
  AppB.dirLock st = Some Example.north ∧
  (str "CAT" ∉ AppB.found st) ∧
  str "CAT" ∈ AppB.found
    (AppB.onUp Example.rect [str "CAT"] Example.catGrid Example.hit st).
Proof.
  repeat split; try (vm_compute; reflexivity).
  intros H. vm_compute in H. discriminate.
Qed.

(** ** Release tolerance *)

Section ToleranceFacts.

Lemma liftCloseTo_chebyshev liftCell endCell tol :
  AppB.liftCloseTo liftCell endCell tol = true <->
  ∀ lc, liftCell = Some lc -> chebyshev lc endCell <= tol.
Proof.
  unfold AppB.liftCloseTo, chebyshev. destruct liftCell as [lc |].
  - rewrite Z.leb_le. split.
    + intros H ? [= <-]. exact H.
    + intros H. now apply H.
  - split; [intros _ ? [=] | reflexivity].
Qed.

Lemma last_cellsFrom start step (n : nat) :
  last (cellsFrom start step (S n))
  = Some (Cell.mk (Cell.r start + Cell.r step * Z.of_nat n)
                  (Cell.c start + Cell.c step * Z.of_nat n)).
Proof.
  unfold cellsFrom. rewrite seq_S, fmap_app. simpl. now rewrite last_snoc.
Qed.

End ToleranceFacts.

(** C8, as the two variants have it.  A word that pointer-up accepts has
    its implied end cell on the grid.  In the second copy the end cell is
    start cell + step x (length - 1) for the step derived at release, and
    a word is rejected when the release point resolves to a cell at
    Chebyshev distance above 1 from it.  In [src/App.tsx] the end cell is
    start cell + locked direction x (length - 1), and a word is accepted
    only when [Math.min(dStart, dEnd) > END_TOLERANCE] is false, for the
    distances of the last pointer position from the centres of the start
    cell and of the end cell and 0.99 of half a cell width, all computed
    in binary64.  On a grid of 350 pixels a release at distance
    17.325000000000003 from the centre of the only cell of ["C"], with
    the tolerance at 17.325, is rejected. *)
Theorem onUp_release_tolerance :
  (∀ rect words grid cellFromClient st w,
     w ∈ AppB.found (AppB.onUp rect words grid cellFromClient st) ->
     w ∉ AppB.found st ->
     ∃ start lift step,
       AppB.startCell st = Some start ∧ AppB.lastClient st = Some lift ∧
       AppB.stepOf st start lift (cellFromClient lift) = Some step ∧
       offGrid (Cell.r (AppB.endOf start step w)) (Cell.c (AppB.endOf start step w)) = false ∧
       ∀ lc, cellFromClient lift = Some lc ->
             chebyshev lc (AppB.endOf start step w) <= 1) ∧
  (∀ rect words grid st w,
     w ∈ App.found (App.onUp rect words grid st) -> w ∉ App.found st ->
     ∃ start lock endCell,
       App.startCell st = Some start ∧ App.dirLock st = Some lock ∧
       endCell = Cell.mk (Cell.r start + Cell.r lock * (Z.of_nat (length w) - 1))
                         (Cell.c start + Cell.c lock * (Z.of_nat (length w) - 1)) ∧
       offGrid (Cell.r endCell) (Cell.c endCell) = false ∧
       let finger := fingerPosA rect st endCell in
       let dStart := App.dist finger (center rect start) in
       let dEnd := App.dist finger (center rect endCell) in
       F64.ltb (App.END_TOLERANCE rect) (F64.min dStart dEnd) = false) ∧
  (let st := App.drag Example.wide Example.c21 [Example.off21] Example.idleA in
   App.startCell st = Some (Cell.mk 2 1) ∧
   App.dirLock st = Some Example.north ∧
   App.END_TOLERANCE Example.wide = F64.ratio 17325 1000 ∧
   App.dist (fingerPosA Example.wide st (Cell.mk 2 1)) (center Example.wide (Cell.mk 2 1))
     = F64.ratio 17325000000000003 1000000000000000 ∧
   App.found (App.onUp Example.wide [str "C"] Example.catGrid st) = ∅).
Proof.
  split; [| split].
  - intros rect words grid cellFromClient st w Hin Hnot.
    destruct (onUpB_new rect words grid cellFromClient st w Hin Hnot)
      as (start & lift & step & Hs & Hl & Hstep & _ & Hm).
    apply wordMatchesB_reads in Hm as [[Hend _] Hclose].
    exists start, lift, step. repeat split; try assumption.
    now apply liftCloseTo_chebyshev.
  - intros rect words grid st w Hin Hnot.
    destruct (onUpA_new rect words grid st w Hin Hnot)
      as (start & lock & line & Hs & Hl & _ & Ht).
    apply tryWordA_matched in Ht as [[Hon _] (c0 & cl & Hhd & Hlast & Hfar & _)].
    destruct (length w) as [| n] eqn:Hlen; [discriminate |].
    rewrite last_cellsFrom in Hlast. inversion Hlast; subst cl.
    unfold cellsFrom in Hhd. simpl in Hhd. inversion Hhd; subst c0.
    replace (Z.of_nat (S n) - 1) with (Z.of_nat n) by lia.
    eexists start, lock, _. repeat split; try eassumption.
    + apply Hon. apply last_Some_elem_of, last_cellsFrom.
    + unfold App.fingerTooFar in Hfar.
      rewrite !Z.mul_0_r, !Z.add_0_r in Hfar. destruct start. exact Hfar.
  - repeat split; vm_compute; reflexivity.
Qed.

Lemma onUp_release_tolerance_witness :
  ∃ start lift step,
    AppB.startCell (AppB.drag Example.rect Example.hit Example.p21 [Example.p23] Example.idleB)
      = Some start ∧
    AppB.lastClient (AppB.drag Example.rect Example.hit Example.p21 [Example.p23] Example.idleB)
      = Some lift ∧
    AppB.stepOf (AppB.drag Example.rect Example.hit Example.p21 [Example.p23] Example.idleB)
      start lift (Example.hit lift) = Some step ∧
    offGrid (Cell.r (AppB.endOf start step (str "CAT")))
            (Cell.c (AppB.endOf start step (str "CAT"))) = false ∧
    ∀ lc, Example.hit lift = Some lc ->
          chebyshev lc (AppB.endOf start step (str "CAT")) <= 1.
Proof.
  apply (proj1 onUp_release_tolerance Example.rect [str "CAT"] Example.catGrid Example.hit
           (AppB.drag Example.rect Example.hit Example.p21 [Example.p23] Example.idleB)
           (str "CAT")).
  - vm_compute. reflexivity.
  - intros H. vm_compute in H. discriminate.
Defined.

(** [src/App.tsx] accepts ["CAT"] when the pointer, having locked East,
    returns to the start cell (2,1) and lifts there, two cells from the
    end cell (2,3).  The second copy accepts it when the gesture locked
    North and lifts over (2,3), two cells from (0,1), the end cell that
    the locked direction implies. *)
Lemma release_far_from_end_accepted :
  (let st := App.drag Example.rect Example.p21 [Example.p23; Example.p21] Example.idleA in
   App.startCell st = Some (Cell.mk 2 1) ∧
   App.dirLock st = Some Example.east ∧
   App.liveLine st
     = Some (center Example.rect (Cell.mk 2 1), Pt.mk (F64.ofZ 45) (F64.ofZ 75)) ∧
   App.cellOfPoint Example.rect Example.p21 = Some (Cell.mk 2 1) ∧
   1 < chebyshev (Cell.mk 2 1) (Cell.mk (2 + 0 * (3 - 1)) (1 + 1 * (3 - 1))) ∧
   (str "CAT" ∉ App.found st) ∧
   str "CAT" ∈ App.found (App.onUp Example.rect [str "CAT"] Example.catGrid st)) ∧
  (let st := AppB.drag Example.rect Example.hit Example.p21
               [Example.p21up; Example.p23] Example.idleB in
   AppB.startCell st = Some (Cell.mk 2 1) ∧
   AppB.dirLock st = Some Example.north ∧
   AppB.lastClient st = Some Example.p23 ∧
   Example.hit Example.p23 = Some (Cell.mk 2 3) ∧
   1 < chebyshev (Cell.mk 2 3) (AppB.endOf (Cell.mk 2 1) Example.north (str "CAT")) ∧
   (str "CAT" ∉ AppB.found st) ∧
   str "CAT" ∈ AppB.found
     (AppB.onUp Example.rect [str "CAT"] Example.catGrid Example.hit st)).
Proof.
  split; repeat split; try (vm_compute; reflexivity);
    intros H; vm_compute in H; discriminate.
Qed.

(** ** Drags below the threshold *)

Section SubThreshold.

Variables (rect : Rect) (words : list jsstring) (grid : Grid).
Variable cellFromClient : Vec.t -> option Cell.t.

Lemma onMovesA_unstarted moves : forall st,
  App.startCell st = None ->
  fold_left (fun st p => App.onMove rect p st) moves st = st.
Proof.
  induction moves as [| p rest IH]; intros st Hs; simpl; [reflexivity |].
  assert (App.onMove rect p st = st) as ->.
  { unfold App.onMove. rewrite Hs.
    now destruct (isGame (App.page st)), (App.gameReady st). }
  now apply IH.
Qed.

Lemma onMovesA_below moves : forall st start sp,
  draggingA st start sp -> App.dirLock st = None ->
  Forall (within App.MIN_PIXELS sp) moves ->
  App.dirLock (fold_left (fun st p => App.onMove rect p st) moves st) = None ∧
  App.found (fold_left (fun st p => App.onMove rect p st) moves st) = App.found st.
Proof.
  induction moves as [| p rest IH]; intros st start sp Hdrag Hl Hall; simpl.
  - split; [exact Hl | reflexivity].
  - apply Forall_cons in Hall as [Hp Hrest].
    assert (Hl' : App.dirLock (App.onMove rect p st) = None).
    { rewrite (onMoveA_unlocked rect st start sp p Hdrag Hl).
      apply belowThreshold_within in Hp. now rewrite Hp. }
    assert (Hdrag' : draggingA (App.onMove rect p st) start sp
                     ∧ App.found (App.onMove rect p st) = App.found st).
    { destruct Hdrag as (Hpg & Hr & Hc & Hs & Hsp). unfold App.onMove, draggingA.
      rewrite Hpg, Hr, Hc, Hs. simpl. repeat split; assumption. }
    destruct Hdrag' as [Hdrag' Hf].
    destruct (IH _ start sp Hdrag' Hl' Hrest) as [H1 H2].
    split; [exact H1 | now rewrite H2].
Qed.

Lemma onUpA_unlocked st :
  App.startCell st = None ∨ App.dirLock st = None ->
  App.found (App.onUp rect words grid st) = App.found st.
Proof.
  unfold App.onUp, App.release, App.onUpBody. simpl. intros H.
  destruct (negb (isGame _)); [reflexivity |].
  destruct (negb (App.gameReady st)); [reflexivity |].
  destruct (App.startCell st), (App.dirLock st); try reflexivity.
  destruct H; discriminate.
Qed.

Lemma onDownA_cases p0 st :
  App.onDown rect p0 st = st ∨
  ∃ start, draggingA (App.onDown rect p0 st) start p0 ∧
           App.dirLock (App.onDown rect p0 st) = None ∧
           App.found (App.onDown rect p0 st) = App.found st.
Proof.
  unfold App.onDown.
  destruct (isGame (App.page st)) eqn:Hpg; [| now left].
  destruct (App.gameReady st) eqn:Hr; [| now left].
  destruct (App.packComplete st) eqn:Hc; [now left |]. simpl.
  destruct (App.cellOfPoint rect p0) as [cell |]; [| now left].
  right. exists cell. unfold draggingA. simpl.
  destruct (App.page st); try discriminate. repeat split; assumption.
Qed.

Lemma last_cons_default {A} (l : list A) : forall x d,
  List.last (x :: l) d = List.last l x.
Proof.
  induction l as [| y l IH]; intros x d; [reflexivity |].
  change (List.last (x :: y :: l) d) with (List.last (y :: l) d).
  now rewrite !IH.
Qed.

Lemma onMovesB_unstarted moves : forall st,
  AppB.startCell st = None ->
  fold_left (fun st p => AppB.onMove rect p st) moves st = st.
Proof.
  induction moves as [| p rest IH]; intros st Hs; simpl; [reflexivity |].
  assert (AppB.onMove rect p st = st) as ->.
  { unfold AppB.onMove. rewrite Hs.
    now destruct (isGame (AppB.page st)), (AppB.gameReady st). }
  now apply IH.
Qed.

Lemma onMovesB_below moves : forall st start sp lift,
  draggingB st start sp -> AppB.dirLock st = None ->
  AppB.lastClient st = Some lift ->
  Forall (within AppB.MIN_PIXELS sp) moves ->
  let st' := fold_left (fun st p => AppB.onMove rect p st) moves st in
  draggingB st' start sp ∧ AppB.dirLock st' = None ∧
  AppB.found st' = AppB.found st ∧
  AppB.lastClient st' = Some (List.last moves lift).
Proof.
  induction moves as [| p rest IH]; intros st start sp lift Hdrag Hl Hlast Hall; simpl.
  - repeat split; assumption || apply Hdrag.
  - apply Forall_cons in Hall as [Hp Hrest].
    assert (Hl' : AppB.dirLock (AppB.onMove rect p st) = None).
    { rewrite (onMoveB_unlocked rect st start sp p Hdrag Hl).
      apply belowThreshold_within in Hp. now rewrite Hp. }
    assert (Hdrag' : draggingB (AppB.onMove rect p st) start sp
                     ∧ AppB.found (AppB.onMove rect p st) = AppB.found st
                     ∧ AppB.lastClient (AppB.onMove rect p st) = Some p).
    { destruct Hdrag as (Hpg & Hr & Hc & Hs & Hsp). unfold AppB.onMove, draggingB.
      rewrite Hpg, Hr, Hc, Hs. simpl. repeat split; assumption. }
    destruct Hdrag' as (Hdrag' & Hf & Hlast').
    destruct (IH _ start sp p Hdrag' Hl' Hlast' Hrest) as (H1 & H2 & H3 & H4).
    repeat split; try assumption || apply H1.
    + now rewrite H3.
    + rewrite H4. f_equal. symmetry. apply last_cons_default.
Qed.

Lemma onDownB_cases p0 st :
  AppB.onDown rect cellFromClient p0 st = st ∨
  ∃ start, draggingB (AppB.onDown rect cellFromClient p0 st) start p0 ∧
           AppB.dirLock (AppB.onDown rect cellFromClient p0 st) = None ∧
           AppB.lastClient (AppB.onDown rect cellFromClient p0 st) = Some p0 ∧
           AppB.found (AppB.onDown rect cellFromClient p0 st) = AppB.found st.
Proof.
  unfold AppB.onDown.
  destruct (isGame (AppB.page st)) eqn:Hpg; [| now left].
  destruct (AppB.gameReady st) eqn:Hr; [| now left].
  destruct (AppB.packComplete st) eqn:Hc; [now left |]. simpl.
  destruct (cellFromClient p0) as [cell |]; [| now left].
  right. exists cell. unfold draggingB. simpl.
  destruct (AppB.page st); try discriminate. repeat split; assumption.
Qed.

Lemma onUpB_unstarted st :
  AppB.startCell st = None ->
  AppB.found (AppB.onUp rect words grid cellFromClient st) = AppB.found st.
Proof.
  unfold AppB.onUp, AppB.release, AppB.onUpBody. simpl. intros ->.
  now destruct (isGame (AppB.page st)), (AppB.gameReady st), (AppB.packComplete st).
Qed.

(** The "ignore tiny drags/taps" return of the second copy. *)
Lemma onUpB_tiny st start sp lift :
  draggingB st start sp -> AppB.lastClient st = Some lift ->
  within (F64.ofZ 8) sp lift ->
  AppB.found (AppB.onUp rect words grid cellFromClient st) = AppB.found st.
Proof.
  intros (Hpg & Hr & Hc & Hs & Hsp) Hlast [Hx Hy].
  unfold AppB.onUp, AppB.release, AppB.onUpBody. simpl.
  rewrite Hpg, Hr, Hc, Hs, Hlast. simpl. unfold AppB.stepOf. rewrite Hsp.
  now rewrite Hx, Hy.
Qed.

End SubThreshold.

(** C9, as the two variants have it.  A gesture whose displacement from
    the start point, as the handlers compute it in binary64, is below the
    minimum-pixel threshold in both axes at every pointer-move never
    locks a direction.  In [src/App.tsx] such a gesture matches nothing
    on pointer-up: the found set is unchanged.  In the second copy
    pointer-up takes no account of the lock; the found set is unchanged
    when the displacement at the last pointer position is below its own
    threshold of 8 pixels in both axes.  The threshold is on the computed
    difference: from 0.1 to 14.1 it is the number 14, not below 14, and
    [src/App.tsx] locks East. *)
Theorem subthreshold_gesture :
  (∀ rect words grid st p0 moves,
     restingA st -> Forall (within App.MIN_PIXELS p0) moves ->
     App.dirLock (App.drag rect p0 moves st) = None ∧
     App.found (App.gesture rect words grid p0 moves st) = App.found st) ∧
  (∀ rect words grid cellFromClient st p0 moves,
     restingB st -> Forall (within AppB.MIN_PIXELS p0) moves ->
     AppB.dirLock (AppB.drag rect cellFromClient p0 moves st) = None ∧
     (within (F64.ofZ 8) p0 (List.last moves p0) ->
      AppB.found (AppB.gesture rect words grid cellFromClient p0 moves st)
        = AppB.found st)) ∧
  (let p0 := Vec.mk (F64.finRatio 1 10) (F64.finZ 75) in
   let p := Vec.mk (F64.finRatio 141 10) (F64.finZ 75) in
   dxOf p0 p = F64.ofZ 14 ∧
   ¬ within App.MIN_PIXELS p0 p ∧
   App.dirLock (App.drag Example.rect p0 [p] Example.idleA) = Some Example.east).
Proof.
  split; [| split].
  - intros rect words grid st p0 moves [Hs Hl] Hall.
    unfold App.gesture, App.drag.
    destruct (onDownA_cases rect p0 st) as [-> | (start & Hdrag & Hl' & Hf)].
    + rewrite onMovesA_unstarted by assumption.
      split; [exact Hl | apply onUpA_unlocked; now left].
    + destruct (onMovesA_below rect moves _ start p0 Hdrag Hl' Hall) as [H1 H2].
      split; [exact H1 |].
      rewrite onUpA_unlocked by (now right). now rewrite H2.
  - intros rect words grid cellFromClient st p0 moves [Hs Hl] Hall.
    unfold AppB.gesture, AppB.drag.
    destruct (onDownB_cases rect cellFromClient p0 st)
      as [-> | (start & Hdrag & Hl' & Hlast & Hf)].
    + rewrite onMovesB_unstarted by assumption.
      split; [exact Hl | intros _; now apply onUpB_unstarted].
    + destruct (onMovesB_below rect moves _ start p0 p0 Hdrag Hl' Hlast Hall)
        as (H1 & H2 & H3 & H4).
      split; [exact H2 |]. intros Htiny.
      rewrite (onUpB_tiny rect words grid cellFromClient _ start p0 _ H1 H4 Htiny).
      now rewrite H3.
  - split; [vm_compute; reflexivity |]. split; [| vm_compute; reflexivity].
    intros [H _]. vm_compute in H. discriminate.
Qed.

Lemma subthreshold_gesture_witness :
  App.dirLock (App.drag Example.rect Example.p21 [Vec.ofZ 54 75] Example.idleA) = None ∧
  App.found (App.gesture Example.rect [str "CAT"] Example.catGrid
               Example.p21 [Vec.ofZ 54 75] Example.idleA)
    = App.found Example.idleA.
Proof.
  apply (proj1 subthreshold_gesture Example.rect [str "CAT"] Example.catGrid
           Example.idleA Example.p21 [Vec.ofZ 54 75]).
  - split; reflexivity.
  - apply Forall_cons. split; [split; vm_compute; reflexivity | constructor].
Defined.

(** In the second copy a drag of 9 pixels, from the right edge of cell
    (2,1) into cell (2,2), stays below the 10-pixel threshold, locks
    nothing, and marks ["CAT"] found on pointer-up. *)
Lemma subthreshold_drag_matches :
  let p0 := Vec.ofZ 59 75 in
  let moves := [Vec.ofZ 68 75] in
  restingB Example.idleB ∧
  Forall (within AppB.MIN_PIXELS p0) moves ∧
  AppB.dirLock (AppB.drag Example.rect Example.hit p0 moves Example.idleB) = None ∧
  (str "CAT" ∉ AppB.found Example.idleB) ∧
  str "CAT" ∈ AppB.found
    (AppB.gesture Example.rect [str "CAT"] Example.catGrid Example.hit p0 moves
       Example.idleB).
Proof.
  split; [split; reflexivity |]. split.
  - apply Forall_cons. split; [split; vm_compute; reflexivity | constructor].
  - repeat split; try (vm_compute; reflexivity).
    intros H. vm_compute in H. discriminate.
Qed.

(** * More of the generator *)

(** ** Cells of a well-formed grid *)

Section GridFacts.

Lemma wellFormed_filled v : wellFormed (filledGrid v).
Proof.
  unfold wellFormed, filledGrid. rewrite length_replicate. split; [reflexivity |].
  apply Forall_replicate. apply length_replicate.
Qed.

Lemma cellAt_filled v r c :
  0 <= r < GRID_SIZE -> 0 <= c < GRID_SIZE -> cellAt (filledGrid v) r c = Some v.
Proof.
  intros Hr Hc. unfold cellAt, filledGrid, GRID_SIZE in *.
  destruct (Z.ltb_spec r 0), (Z.ltb_spec c 0); try lia. cbn [orb].
  rewrite lookup_replicate_2 by lia. cbn [mbind option_bind].
  apply lookup_replicate_2. lia.
Qed.

Lemma cellAt_Some_onGrid grid r c cell :
  wellFormed grid -> cellAt grid r c = Some cell -> offGrid r c = false.
Proof.
  intros [Hlen Hrows] H. unfold cellAt in H.
  destruct (Z.ltb_spec r 0), (Z.ltb_spec c 0); try discriminate. cbn [orb] in H.
  destruct (grid !! Z.to_nat r) as [row |] eqn:Hrow; [| discriminate].
  cbn [mbind option_bind] in H.
  pose proof (lookup_lt_Some _ _ _ Hrow) as Hr.
  pose proof (lookup_lt_Some _ _ _ H) as Hc.
  rewrite Forall_forall in Hrows.
  rewrite (Hrows row) in Hc by (eapply list_elem_of_lookup_2; eassumption).
  apply offGrid_false. unfold GRID_SIZE in *. lia.
Qed.

Lemma wellFormed_setCell grid r c v : wellFormed grid -> wellFormed (setCell grid r c v).
Proof.
  intros [Hlen Hrows]. unfold setCell.
  destruct ((r <? 0) || (c <? 0)); [now split |].
  destruct (grid !! Z.to_nat r) as [row |] eqn:Hrow; [| now split].
  split; [now rewrite length_insert |].
  apply Forall_insert; [assumption |]. rewrite length_insert.
  rewrite Forall_forall in Hrows. apply Hrows.
  eapply list_elem_of_lookup_2; eassumption.
Qed.

Lemma cellAt_setCell_eq grid r c v :
  wellFormed grid -> offGrid r c = false -> cellAt (setCell grid r c v) r c = Some v.
Proof.
  intros [Hlen Hrows] Hon. apply offGrid_false in Hon. unfold GRID_SIZE in *.
  unfold cellAt, setCell.
  destruct (Z.ltb_spec r 0), (Z.ltb_spec c 0); try lia. cbn [orb].
  destruct (lookup_lt_is_Some_2 grid (Z.to_nat r) ltac:(lia)) as [row Hrow].
  rewrite Hrow, list_lookup_insert_eq by lia. cbn [mbind option_bind].
  apply list_lookup_insert_eq.
  rewrite Forall_forall in Hrows.
  rewrite (Hrows row) by (eapply list_elem_of_lookup_2; eassumption). lia.
Qed.

Lemma cellAt_setCell_ne grid r c v r' c' :
  (r', c') ≠ (r, c) -> cellAt (setCell grid r c v) r' c' = cellAt grid r' c'.
Proof.
  intros Hne. unfold cellAt, setCell.
  destruct (Z.ltb_spec r 0), (Z.ltb_spec c 0); try reflexivity. cbn [orb].
  destruct (Z.ltb_spec r' 0), (Z.ltb_spec c' 0); try reflexivity. cbn [orb].
  destruct (grid !! Z.to_nat r) as [row |] eqn:Hrow; [| reflexivity].
  destruct (decide (r' = r)) as [-> | Hr].
  - rewrite list_lookup_insert_eq by (eapply lookup_lt_Some; eassumption).
    rewrite Hrow. cbn [mbind option_bind].
    apply list_lookup_insert_ne. intros Heq. apply Hne. f_equal. lia.
  - rewrite list_lookup_insert_ne by lia. reflexivity.
Qed.

End GridFacts.

(** ** The verifier is exact *)

Section VerifierFacts.

Lemma scanWord_complete grid word rev r c d todo : forall okF okR,
  (fst (scanWord grid word rev r c d todo okF okR) = true <->
   okF = true ∧
   ∀ i, i ∈ todo ->
     offGrid (r + Cell.r d * Z.of_nat i) (c + Cell.c d * Z.of_nat i) = false ∧
     cellAt grid (r + Cell.r d * Z.of_nat i) (c + Cell.c d * Z.of_nat i) = charAt word i) ∧
  (snd (scanWord grid word rev r c d todo okF okR) = true <->
   okR = true ∧
   ∀ i, i ∈ todo ->
     offGrid (r + Cell.r d * Z.of_nat i) (c + Cell.c d * Z.of_nat i) = false ∧
     cellAt grid (r + Cell.r d * Z.of_nat i) (c + Cell.c d * Z.of_nat i) = charAt rev i).
Proof.
  induction todo as [| i rest IH]; intros okF okR; cbn [scanWord].
  - cbn [fst snd]. split; split.
    + intros H. split; [exact H | intros i Hi; inversion Hi].
    + intros [H _]. exact H.
    + intros H. split; [exact H | intros i Hi; inversion Hi].
    + intros [H _]. exact H.
  - destruct (offGrid _ _) eqn:Hoff.
    { cbn [fst snd]. split; split; try discriminate; intros [_ H];
        destruct (H i) as [H' _]; try (apply elem_of_cons; now left); congruence. }
    destruct (IH (if decide (cellAt grid (r + Cell.r d * Z.of_nat i) (c + Cell.c d * Z.of_nat i)
                               ≠ charAt word i) then false else okF)
                 (if decide (cellAt grid (r + Cell.r d * Z.of_nat i) (c + Cell.c d * Z.of_nat i)
                               ≠ charAt rev i) then false else okR)) as [HF HR].
    split.
    + rewrite HF. clear HF HR. split.
      * intros [Hok Hall].
        destruct (decide (_ ≠ charAt word i)) as [| Heq] in Hok; [discriminate |].
        split; [exact Hok |]. intros k Hk.
        apply elem_of_cons in Hk as [-> | Hk]; [| now apply Hall].
        split; [exact Hoff | now apply dec_stable].
      * intros [Hok Hall]. split.
        -- destruct (Hall i) as [_ Heq]; [apply elem_of_cons; now left |].
           destruct (decide (_ ≠ charAt word i)) as [Hne |]; [contradiction | exact Hok].
        -- intros k Hk. apply Hall. apply elem_of_cons. now right.
    + rewrite HR. clear HF HR. split.
      * intros [Hok Hall].
        destruct (decide (_ ≠ charAt rev i)) as [| Heq] in Hok; [discriminate |].
        split; [exact Hok |]. intros k Hk.
        apply elem_of_cons in Hk as [-> | Hk]; [| now apply Hall].
        split; [exact Hoff | now apply dec_stable].
      * intros [Hok Hall]. split.
        -- destruct (Hall i) as [_ Heq]; [apply elem_of_cons; now left |].
           destruct (decide (_ ≠ charAt rev i)) as [Hne |]; [contradiction | exact Hok].
        -- intros k Hk. apply Hall. apply elem_of_cons. now right.
Qed.

Lemma readCells_pointwise grid r c d (w : jsstring) :
  readCells grid r c d (length w) = Some (lettersOf w) ->
  ∀ i, i ∈ seq 0 (length w) ->
    offGrid (r + Cell.r d * Z.of_nat i) (c + Cell.c d * Z.of_nat i) = false ∧
    cellAt grid (r + Cell.r d * Z.of_nat i) (c + Cell.c d * Z.of_nat i) = charAt w i.
Proof.
  unfold readCells. intros H i Hi. apply mapM_Some in H.
  apply elem_of_seq in Hi.
  destruct (lookup_lt_is_Some_2 w i ltac:(lia)) as [u Hu].
  assert (Hseq : seq 0 (length w) !! i = Some i) by (apply lookup_seq; lia).
  assert (Hcell : lettersOf w !! i = Some [u])
    by (unfold lettersOf; now rewrite list_lookup_fmap, Hu).
  pose proof (Forall2_lookup_lr _ _ _ _ _ _ H Hseq Hcell) as Hi'. simpl in Hi'.
  destruct (offGrid _ _); [discriminate |].
  split; [reflexivity |]. unfold charAt. now rewrite Hu.
Qed.

Lemma gridIndices_elem r : 0 <= r < GRID_SIZE -> r ∈ gridIndices.
Proof.
  intros Hr. unfold gridIndices. apply list_elem_of_fmap.
  exists (Z.to_nat r). split; [lia |]. apply elem_of_seq. unfold GRID_SIZE in *. lia.
Qed.

Lemma findable_gridContainsWord grid w :
  findable grid w -> gridContainsWord grid w = true.
Proof.
  intros (r & c & d & Hr & Hc & Hd & Hread). unfold gridContainsWord.
  apply existsb_exists. exists r. split; [apply list_elem_of_In, gridIndices_elem, Hr |].
  apply existsb_exists. exists c. split; [apply list_elem_of_In, gridIndices_elem, Hc |].
  apply existsb_exists. exists d. split; [now apply list_elem_of_In |].
  destruct (scanWord_complete grid w (reverse w) r c d (seq 0 (length w)) true true)
    as [HF HR].
  destruct (scanWord _ _ _ _ _ _ _ _ _) as [okF okR]. simpl in HF, HR.
  apply orb_true_iff. destruct Hread as [H | H].
  - left. apply HF. split; [reflexivity |]. now apply readCells_pointwise.
  - right. apply HR. split; [reflexivity |].
    rewrite <- (length_reverse w) in H |- *. now apply readCells_pointwise.
Qed.

End VerifierFacts.

(** X1.  [gridContainsWord] answers [true] exactly when some start cell
    of the grid and one of the eight directions read the word, forward or
    reversed, without leaving the grid: the search misses nothing and
    accepts nothing else. *)
Theorem gridContainsWord_exact (grid : Grid) (w : jsstring) :
  gridContainsWord grid w = true <-> findable grid w.
Proof.
  split; [apply gridContainsWord_findable | apply findable_gridContainsWord].
Qed.

(** ** Placement keeps what is placed *)

Section PlacementFacts.

Context {R : Type} (rng : R -> Z * R).

Lemma keeps_refl g : keeps g g.
Proof. intros r c cell H _. exact H. Qed.

Lemma keeps_trans g1 g2 g3 : keeps g1 g2 -> keeps g2 g3 -> keeps g1 g3.
Proof. intros H12 H23 r c cell H Hne. apply H23; [now apply H12 | exact Hne]. Qed.

Lemma liesAt_keeps g g' w r c d : keeps g g' -> liesAt g w r c d -> liesAt g' w r c d.
Proof.
  intros Hk Hl i u Hu. destruct (Hl i u Hu) as [Hon Hat].
  split; [exact Hon |]. apply Hk; [exact Hat | discriminate].
Qed.

Lemma placed_keeps g g' w : keeps g g' -> placed g w -> placed g' w.
Proof.
  intros Hk (r & c & d & Hd & Hl). exists r, c, d.
  split; [exact Hd | eapply liesAt_keeps; eassumption].
Qed.

(** Along one of the eight directions no two letters share a cell. *)
Lemma positions_distinct r c d (i j : nat) :
  d ∈ dirs ->
  (r + Cell.r d * Z.of_nat i, c + Cell.c d * Z.of_nat i)
    = (r + Cell.r d * Z.of_nat j, c + Cell.c d * Z.of_nat j) ->
  i = j.
Proof.
  intros Hd Heq. inversion Heq as [[Hr Hc]]. clear Heq.
  unfold dirs in Hd. rewrite !elem_of_cons in Hd.
  destruct Hd as [-> | [-> | [-> | [-> | [-> | [-> | [-> | [-> | Hd]]]]]]]];
    [.. | inversion Hd]; simpl in Hr, Hc; lia.
Qed.

(** What [canPlace] has checked. *)
Lemma canPlace_true grid (w : jsstring) r c d :
  canPlace grid w r c d = true ->
  ∀ i u, w !! i = Some u ->
    offGrid (r + Cell.r d * Z.of_nat i) (c + Cell.c d * Z.of_nat i) = false ∧
    ∀ cell, cellAt grid (r + Cell.r d * Z.of_nat i) (c + Cell.c d * Z.of_nat i) = Some cell ->
            cell ≠ [] -> cell = [u].
Proof.
  unfold canPlace. rewrite forallb_forall. intros Hall i u Hu.
  assert (Hi : In i (seq 0 (length w))).
  { apply list_elem_of_In, elem_of_seq. apply lookup_lt_Some in Hu. lia. }
  apply Hall in Hi. apply negb_true_iff, orb_false_iff in Hi as [Hon Hcell].
  split; [exact Hon |]. intros cell Hat Hne. rewrite Hat in Hcell.
  destruct cell as [| x cell]; [contradiction |].
  apply bool_decide_eq_false in Hcell. apply dec_stable in Hcell.
  unfold charAt in Hcell. rewrite Hu in Hcell. cbn in Hcell. now inversion Hcell.
Qed.

(** The first [n] writes of [writeWord]. *)
Lemma writeWord_prefix grid (w : jsstring) r c d (n : nat) :
  wellFormed grid -> d ∈ dirs -> (n <= length w)%nat ->
  (∀ i u, w !! i = Some u ->
     offGrid (r + Cell.r d * Z.of_nat i) (c + Cell.c d * Z.of_nat i) = false) ->
  let g' := fold_left (fun g i =>
              setCell g (r + Cell.r d * Z.of_nat i) (c + Cell.c d * Z.of_nat i)
                      (default [] (charAt w i))) (seq 0 n) grid in
  wellFormed g' ∧
  (∀ i u, (i < n)%nat -> w !! i = Some u ->
     cellAt g' (r + Cell.r d * Z.of_nat i) (c + Cell.c d * Z.of_nat i) = Some [u]) ∧
  (∀ r' c', (∀ i, (i < n)%nat ->
               (r', c') ≠ (r + Cell.r d * Z.of_nat i, c + Cell.c d * Z.of_nat i)) ->
     cellAt g' r' c' = cellAt grid r' c').
Proof.
  intros Hwf Hd Hn Hon. induction n as [| n IH].
  - simpl. split; [exact Hwf |]. split; [intros; lia | reflexivity].
  - rewrite seq_S, fold_left_app. cbn [fold_left Nat.add].
    destruct (IH ltac:(lia)) as (Hwf' & Hat & Hother). clear IH.
    set (g := fold_left _ (seq 0 n) grid) in *.
    destruct (lookup_lt_is_Some_2 w n ltac:(lia)) as [un Hun].
    split; [now apply wellFormed_setCell |]. split.
    + intros i u Hi Hu. destruct (decide (i = n)) as [-> | Hne].
      * rewrite cellAt_setCell_eq by (assumption || eapply Hon; eassumption).
        unfold charAt. now rewrite Hu.
      * rewrite cellAt_setCell_ne.
        -- apply Hat; [lia | exact Hu].
        -- intros Heq. apply Hne. eapply positions_distinct; eassumption.
    + intros r' c' Hfree. rewrite cellAt_setCell_ne by (apply Hfree; lia).
      apply Hother. intros i Hi. apply Hfree. lia.
Qed.

(** A valid placement, once written, holds the word and has changed no
    letter that was there. *)
Lemma writeWord_placed grid (w : jsstring) r c d :
  wellFormed grid -> d ∈ dirs -> canPlace grid w r c d = true ->
  wellFormed (writeWord grid w r c d) ∧
  keeps grid (writeWord grid w r c d) ∧
  liesAt (writeWord grid w r c d) w r c d.
Proof.
  intros Hwf Hd Hok. pose proof (canPlace_true grid w r c d Hok) as Hcan.
  destruct (writeWord_prefix grid w r c d (length w) Hwf Hd (le_n _)
              (fun i u Hu => proj1 (Hcan i u Hu))) as (Hwf' & Hat & Hother).
  fold (writeWord grid w r c d) in Hwf', Hat, Hother.
  split; [exact Hwf' |]. split.
  - intros r' c' cell Hcell Hne.
    destruct (decide (Exists (fun i : nat =>
                (r', c') = (r + Cell.r d * Z.of_nat i, c + Cell.c d * Z.of_nat i))
                (seq 0 (length w)))) as [Hex | Hno].
    + apply Exists_exists in Hex as (i & Hi & Heq). apply elem_of_seq in Hi.
      inversion Heq; subst r' c'.
      destruct (lookup_lt_is_Some_2 w i ltac:(lia)) as [u Hu].
      destruct (Hcan i u Hu) as [_ Hsame].
      rewrite (Hsame cell Hcell Hne). apply Hat; [lia | exact Hu].
    + rewrite Hother; [exact Hcell |]. intros i Hi Heq. apply Hno.
      apply Exists_exists. exists i. split; [apply elem_of_seq; lia | exact Heq].
  - intros i u Hu. split; [apply (Hcan i u Hu) |].
    apply Hat; [eapply lookup_lt_Some; eassumption | exact Hu].
Qed.

Lemma tryPlace_placed t : forall grid (w : jsstring) s g' s',
  wellFormed grid -> tryPlace rng t grid w s = (Some g', s') ->
  wellFormed g' ∧ keeps grid g' ∧ placed g' w.
Proof.
  induction t as [| t IH]; intros grid w s g' s' Hwf H; cbn [tryPlace] in H.
  - discriminate.
  - destruct (rng s) as [u1 s1]. destruct (rng s1) as [u2 s2].
    destruct (rng s2) as [u3 s3].
    destruct (canPlace _ _ _ _ _) eqn:Hok.
    + inversion H; subst g' s'.
      destruct (writeWord_placed grid w _ _ _ Hwf (pickDir_dirs u1) Hok)
        as (Hwf' & Hk & Hl).
      split; [exact Hwf' |]. split; [exact Hk |].
      eexists _, _, _. split; [apply pickDir_dirs | exact Hl].
    + eapply IH; eassumption.
Qed.

Lemma placeWords_placed words : forall grid s g' s',
  wellFormed grid -> placeWords rng words grid s = (Some g', s') ->
  wellFormed g' ∧ keeps grid g' ∧ ∀ w, w ∈ words -> placed g' w.
Proof.
  induction words as [| v rest IH]; intros grid s g' s' Hwf H; cbn [placeWords] in H.
  - inversion H; subst. split; [exact Hwf |]. split; [apply keeps_refl |].
    intros w Hw. inversion Hw.
  - destruct (tryPlace rng 600 grid v s) as [[g1 |] s1] eqn:Htry; [| discriminate].
    destruct (tryPlace_placed 600 grid v s g1 s1 Hwf Htry) as (Hwf1 & Hk1 & Hp1).
    destruct (IH g1 s1 g' s' Hwf1 H) as (Hwf' & Hk' & Hall).
    split; [exact Hwf' |]. split; [eapply keeps_trans; eassumption |].
    intros w Hw. apply elem_of_cons in Hw as [-> | Hw]; [| now apply Hall].
    eapply placed_keeps; eassumption.
Qed.

Lemma fillCells_keeps cells : forall grid s,
  wellFormed grid ->
  wellFormed (fst (fillCells rng cells grid s)) ∧
  keeps grid (fst (fillCells rng cells grid s)).
Proof.
  induction cells as [| [r c] rest IH]; intros grid s Hwf; cbn [fillCells].
  - split; [exact Hwf | apply keeps_refl].
  - assert (Hstep : ∀ s' letter,
              cellAt grid r c = None ∨ cellAt grid r c = Some [] ->
              wellFormed (fst (fillCells rng rest (setCell grid r c letter) s')) ∧
              keeps grid (fst (fillCells rng rest (setCell grid r c letter) s'))).
    { intros s' letter Hempty.
      destruct (IH (setCell grid r c letter) s' (wellFormed_setCell _ _ _ _ Hwf))
        as [Hwf' Hk'].
      split; [exact Hwf' |]. eapply keeps_trans; [| exact Hk'].
      intros r' c' cell Hcell Hne.
      rewrite cellAt_setCell_ne; [exact Hcell |].
      intros Heq. inversion Heq; subst r' c'.
      destruct Hempty as [He | He]; rewrite He in Hcell; [discriminate |].
      inversion Hcell; subst cell. contradiction. }
    destruct (cellAt grid r c) as [[| u cell] |] eqn:Hcell.
    + destruct (rng s) as [u' s']. apply Hstep. now right.
    + now apply IH.
    + destruct (rng s) as [u' s']. apply Hstep. now left.
Qed.

Lemma placed_findable grid w : placed grid w -> findable grid w.
Proof.
  intros (r & c & d & Hd & Hl). destruct w as [| u0 w'] eqn:Hw.
  - exists 0, 0, d. unfold GRID_SIZE. repeat split; try lia; try assumption.
    left. reflexivity.
  - rewrite <- Hw in *. assert (Hon : offGrid r c = false).
    { destruct (Hl 0%nat u0) as [Hon _]; [now rewrite Hw |].
      now rewrite !Z.mul_0_r, !Z.add_0_r in Hon. }
    apply offGrid_false in Hon as [Hr Hc].
    exists r, c, d. repeat split; try lia; try assumption.
    left. apply readCells_letters. intros i Hi. apply elem_of_seq in Hi.
    destruct (lookup_lt_is_Some_2 w i ltac:(lia)) as [u Hu].
    destruct (Hl i u Hu) as [Hon Hat]. split; [exact Hon |].
    rewrite Hat. unfold charAt. now rewrite Hu.
Qed.

End PlacementFacts.

(** X2.  A placement try that succeeds has written the word along one
    of the eight directions, inside the grid, and has changed no letter
    that was on the grid before: words cross only on equal letters. *)
Theorem tryPlace_overwrite_compatible {R : Type} (rng : R -> Z * R) (t : nat)
    (grid : Grid) (w : jsstring) (s : R) (grid' : Grid) (s' : R) :
  wellFormed grid ->
  tryPlace rng t grid w s = (Some grid', s') ->
  wellFormed grid' ∧ keeps grid grid' ∧
  ∃ r c d, d ∈ dirs ∧ liesAt grid' w r c d.
Proof. intros Hwf H. exact (tryPlace_placed rng t grid w s grid' s' Hwf H). Qed.

Lemma tryPlace_overwrite_compatible_witness :
  let grid' := writeWord (filledGrid []) (str "CAT") 0 0 (Cell.mk 0 1) in
  wellFormed grid' ∧ keeps (filledGrid []) grid' ∧
  ∃ r c d, d ∈ dirs ∧ liesAt grid' (str "CAT") r c d.
Proof.
  apply (tryPlace_overwrite_compatible (fun s : unit => (0, s)) 1
           (filledGrid []) (str "CAT") tt
           (writeWord (filledGrid []) (str "CAT") 0 0 (Cell.mk 0 1)) tt).
  - apply wellFormed_filled.
  - vm_compute. reflexivity.
Defined.

(** ** A pass fails only on placement; the grid returned is full *)

Section PassFacts.

Context {R : Type} (rng : R -> Z * R).

Lemma placed_gridContainsWord grid w : placed grid w -> gridContainsWord grid w = true.
Proof. intros H. apply findable_gridContainsWord, placed_findable, H. Qed.

Lemma attempt_verifies words s grid s' :
  placeWords rng words (filledGrid []) s = (Some grid, s') ->
  forallb (gridContainsWord (fst (fillCells rng allCells grid s'))) words = true.
Proof.
  intros Hplace.
  destruct (placeWords_placed rng words _ s grid s' (wellFormed_filled []) Hplace)
    as (Hwf & _ & Hall).
  destruct (fillCells_keeps rng allCells grid s' Hwf) as [_ Hk].
  apply forallb_forall. intros w Hw. apply list_elem_of_In in Hw.
  apply placed_gridContainsWord. eapply placed_keeps; [exact Hk | now apply Hall].
Qed.

Lemma cellAt_setCell_inv grid r c v r' c' cell :
  wellFormed grid ->
  cellAt (setCell grid r c v) r' c' = Some cell ->
  cell = v ∨ cellAt grid r' c' = Some cell.
Proof.
  intros Hwf H. destruct (decide ((r', c') = (r, c))) as [Heq | Hne].
  - inversion Heq; subst r' c'. left.
    pose proof (cellAt_Some_onGrid _ _ _ _ (wellFormed_setCell grid r c v Hwf) H) as Hon.
    rewrite cellAt_setCell_eq in H by assumption. now inversion H.
  - right. now rewrite cellAt_setCell_ne in H.
Qed.

Lemma lettersOnly_setCell grid r c v :
  wellFormed grid -> (length v <= 1)%nat -> lettersOnly grid ->
  lettersOnly (setCell grid r c v).
Proof.
  intros Hwf Hv Hl r' c' cell H.
  destruct (cellAt_setCell_inv _ _ _ _ _ _ _ Hwf H) as [-> | H']; [exact Hv |].
  eapply Hl; eassumption.
Qed.

Lemma charAt_length (w : jsstring) i : (length (default [] (charAt w i)) <= 1)%nat.
Proof. unfold charAt. destruct (w !! i); simpl; lia. Qed.

Lemma lettersOnly_writes (w : jsstring) r c d idx : forall grid,
  wellFormed grid -> lettersOnly grid ->
  let g' := fold_left (fun g i =>
              setCell g (r + Cell.r d * Z.of_nat i) (c + Cell.c d * Z.of_nat i)
                      (default [] (charAt w i))) idx grid in
  wellFormed g' ∧ lettersOnly g'.
Proof.
  induction idx as [| i rest IH]; intros grid Hwf Hl; cbn [fold_left].
  - now split.
  - apply IH; [now apply wellFormed_setCell |].
    apply lettersOnly_setCell; [assumption | apply charAt_length | assumption].
Qed.

Lemma tryPlace_lettersOnly t : forall grid (w : jsstring) s g' s',
  wellFormed grid -> lettersOnly grid ->
  tryPlace rng t grid w s = (Some g', s') -> lettersOnly g'.
Proof.
  induction t as [| t IH]; intros grid w s g' s' Hwf Hl H; cbn [tryPlace] in H.
  - discriminate.
  - destruct (rng s) as [u1 s1]. destruct (rng s1) as [u2 s2].
    destruct (rng s2) as [u3 s3].
    destruct (canPlace _ _ _ _ _).
    + inversion H; subst g' s'.
      exact (proj2 (lettersOnly_writes w _ _ _ _ grid Hwf Hl)).
    + eapply IH; eassumption.
Qed.

Lemma placeWords_lettersOnly words : forall grid s g' s',
  wellFormed grid -> lettersOnly grid ->
  placeWords rng words grid s = (Some g', s') -> lettersOnly g'.
Proof.
  induction words as [| v rest IH]; intros grid s g' s' Hwf Hl H; cbn [placeWords] in H.
  - now inversion H; subst.
  - destruct (tryPlace rng 600 grid v s) as [[g1 |] s1] eqn:Htry; [| discriminate].
    destruct (tryPlace_placed rng 600 grid v s g1 s1 Hwf Htry) as (Hwf1 & _ & _).
    eapply IH; [exact Hwf1 | | exact H].
    exact (tryPlace_lettersOnly 600 grid v s g1 s1 Hwf Hl Htry).
Qed.

Hypothesis rng_range : forall s, 0 <= fst (rng s) < 2 ^ 32.

(** [letters[Math.floor(rng() * letters.length)]] is a letter. *)
Lemma fill_letter u :
  0 <= u < 2 ^ 32 ->
  ∃ x, default [] (charAt letters (Z.to_nat (JS.floorMul u (Z.of_nat (length letters))))) = [x].
Proof.
  intros Hu. unfold charAt.
  assert (Hidx : (Z.to_nat (JS.floorMul u (Z.of_nat (length letters))) < length letters)%nat).
  { unfold JS.floorMul. change (Z.of_nat (length letters)) with 26.
    change (length letters) with 26%nat.
    assert (u * 26 / 2 ^ 32 < 26) by (apply Z.div_lt_upper_bound; lia).
    assert (0 <= u * 26 / 2 ^ 32) by (apply Z.div_pos; lia). lia. }
  destruct (lookup_lt_is_Some_2 letters _ Hidx) as [x Hx].
  exists x. now rewrite Hx.
Qed.

Lemma fillCells_fills cells : forall grid s,
  wellFormed grid -> lettersOnly grid ->
  lettersOnly (fst (fillCells rng cells grid s)) ∧
  ∀ r c, (r, c) ∈ cells -> offGrid r c = false ->
    ∃ x, cellAt (fst (fillCells rng cells grid s)) r c = Some [x].
Proof.
  induction cells as [| [r c] rest IH]; intros grid s Hwf Hl; cbn [fillCells].
  - split; [exact Hl |]. intros r c H. inversion H.
  - assert (Hone : ∀ g x, cellAt g r c = Some [x] -> wellFormed g -> lettersOnly g ->
              ∀ s1, lettersOnly (fst (fillCells rng rest g s1)) ∧
                ∀ r' c', (r', c') ∈ (r, c) :: rest -> offGrid r' c' = false ->
                  ∃ x', cellAt (fst (fillCells rng rest g s1)) r' c' = Some [x']).
    { intros g x Hx Hwfg Hlg s1. destruct (IH g s1 Hwfg Hlg) as [Hl' Hall].
      split; [exact Hl' |]. intros r' c' Hin Hon.
      apply elem_of_cons in Hin as [Heq | Hin]; [| now apply Hall].
      inversion Heq; subst r' c'. exists x.
      apply (proj2 (fillCells_keeps rng rest g s1 Hwfg)); [exact Hx | discriminate]. }
    assert (Hfill : ∀ s1 u, 0 <= u < 2 ^ 32 ->
              (∀ r' c', (r', c') = (r, c) -> offGrid r' c' = false -> False)
              ∨ offGrid r c = false ->
              let letter := default [] (charAt letters
                              (Z.to_nat (JS.floorMul u (Z.of_nat (length letters))))) in
              lettersOnly (fst (fillCells rng rest (setCell grid r c letter) s1)) ∧
              ∀ r' c', (r', c') ∈ (r, c) :: rest -> offGrid r' c' = false ->
                ∃ x', cellAt (fst (fillCells rng rest (setCell grid r c letter) s1)) r' c'
                      = Some [x']).
    { intros s1 u Hu Hcase letter. destruct (fill_letter u Hu) as [x Hx].
      fold letter in Hx.
      assert (Hwf' : wellFormed (setCell grid r c letter)) by now apply wellFormed_setCell.
      assert (Hl' : lettersOnly (setCell grid r c letter)).
      { apply lettersOnly_setCell; try assumption. rewrite Hx. simpl. lia. }
      destruct Hcase as [Hoff | Hon].
      - destruct (IH _ s1 Hwf' Hl') as [Hl'' Hall]. split; [exact Hl'' |].
        intros r' c' Hin Hon'. apply elem_of_cons in Hin as [Heq | Hin]; [| now apply Hall].
        exfalso. eapply Hoff; eassumption.
      - apply (Hone _ x); try assumption.
        rewrite cellAt_setCell_eq by assumption. now rewrite Hx. }
    destruct (cellAt grid r c) as [[| x cell] |] eqn:Hcell.
    + pose proof (rng_range s) as Hu. destruct (rng s) as [u s1]. simpl in Hu.
      apply Hfill; [exact Hu |]. right. eapply cellAt_Some_onGrid; eassumption.
    + assert (cell = []) as ->.
      { pose proof (Hl r c _ Hcell) as Hlen. simpl in Hlen.
        destruct cell; [reflexivity | simpl in Hlen; lia]. }
      now apply (Hone grid x).
    + pose proof (rng_range s) as Hu. destruct (rng s) as [u s1]. simpl in Hu.
      apply Hfill; [exact Hu |]. left. intros r' c' Heq Hon. inversion Heq; subst r' c'.
      apply offGrid_false in Hon. unfold GRID_SIZE in Hon.
      destruct Hwf as [Hlen Hrows]. unfold cellAt in Hcell.
      destruct (Z.ltb_spec r 0), (Z.ltb_spec c 0); try lia. cbn [orb] in Hcell.
      destruct (lookup_lt_is_Some_2 grid (Z.to_nat r)) as [row Hrow];
        [unfold GRID_SIZE in Hlen; lia |].
      rewrite Hrow in Hcell. cbn [mbind option_bind] in Hcell.
      apply lookup_ge_None in Hcell. rewrite Forall_forall in Hrows.
      rewrite (Hrows row) in Hcell by (eapply list_elem_of_lookup_2; eassumption).
      unfold GRID_SIZE in Hcell. lia.
Qed.

Lemma allCells_all r c : offGrid r c = false -> (r, c) ∈ allCells.
Proof.
  intros Hon. apply offGrid_false in Hon as [Hr Hc]. unfold allCells.
  apply list_elem_of_bind. exists r. split; [| now apply gridIndices_elem].
  apply list_elem_of_bind. exists c. split; [| now apply gridIndices_elem].
  apply list_elem_of_singleton. reflexivity.
Qed.

Lemma lettersOnly_filled v : (length v <= 1)%nat -> lettersOnly (filledGrid v).
Proof.
  intros Hv r c cell H.
  pose proof (cellAt_Some_onGrid _ _ _ _ (wellFormed_filled v) H) as Hon.
  apply offGrid_false in Hon as [Hr Hc].
  rewrite cellAt_filled in H by assumption. now inversion H; subst.
Qed.

Lemma attempt_full words s grid s' :
  attempt rng words s = (Some grid, s') -> wellFormed grid ∧ fullyLettered grid.
Proof.
  unfold attempt. intros H.
  destruct (placeWords rng words (filledGrid []) s) as [[g1 |] s1] eqn:Hplace;
    [| discriminate].
  destruct (placeWords_placed rng words _ s g1 s1 (wellFormed_filled []) Hplace)
    as (Hwf1 & _ & _).
  assert (Hl1 : lettersOnly g1).
  { eapply placeWords_lettersOnly; [apply wellFormed_filled | | exact Hplace].
    apply lettersOnly_filled. simpl. lia. }
  destruct (fillCells_keeps rng allCells g1 s1 Hwf1) as [Hwf2 _].
  destruct (fillCells_fills allCells g1 s1 Hwf1 Hl1) as [_ Hfull].
  destruct (fillCells rng allCells g1 s1) as [g2 s2]. simpl in *.
  destruct (forallb _ _); [| discriminate]. inversion H; subst grid s'.
  split; [exact Hwf2 |]. intros r c Hr Hc. apply Hfull.
  - apply allCells_all. now apply offGrid_false.
  - now apply offGrid_false.
Qed.

Lemma attempts_full n words : forall s,
  wellFormed (fst (attempts rng n words s)) ∧ fullyLettered (fst (attempts rng n words s)).
Proof.
  induction n as [| n IH]; intros s; cbn [attempts].
  - simpl. split; [apply wellFormed_filled |]. intros r c Hr Hc.
    exists 88. now apply cellAt_filled.
  - destruct (attempt rng words s) as [[g |] s'] eqn:Hatt; [| apply IH].
    simpl. eapply attempt_full; eassumption.
Qed.

End PassFacts.

(** X3.  The check after the fill never rejects a grid: when every word
    has been placed, every word passes [gridContainsWord] on the filled
    grid, so a pass of the outer loop fails exactly when some word found
    no placement in 600 tries. *)
Theorem attempt_fails_only_on_placement {R : Type} (rng : R -> Z * R)
    (words : list jsstring) (s : R) :
  fst (attempt rng words s) = None <->
  fst (placeWords rng words (filledGrid []) s) = None.
Proof.
  unfold attempt.
  destruct (placeWords rng words (filledGrid []) s) as [[g1 |] s1] eqn:Hplace.
  - pose proof (attempt_verifies rng words s g1 s1 Hplace) as Hall.
    destruct (fillCells rng allCells g1 s1) as [g2 s2]. simpl in Hall.
    rewrite Hall. simpl. split; discriminate.
  - simpl. split; reflexivity.
Qed.

(** X4.  Whatever the words and the seed, the grid that
    [generatePuzzleGuaranteed] returns has ten rows of ten cells and
    every cell holds exactly one code unit: no cell is left empty.  The
    closure returns numbers in [[0, 1)]. *)
Theorem generated_grid_full {R : Type} (rng : R -> Z * R) (words : list jsstring) (s0 : R) :
  (forall s, 0 <= fst (rng s) < 2 ^ 32) ->
  wellFormed (fst (generatePuzzleGuaranteed rng words s0)) ∧
  fullyLettered (fst (generatePuzzleGuaranteed rng words s0)).
Proof. intros Hrange. now apply attempts_full. Qed.

Lemma generated_grid_full_witness :
  wellFormed (generateGrid [str "CAT"; str "DOG"] (str "seed")) ∧
  fullyLettered (generateGrid [str "CAT"; str "DOG"] (str "seed")).
Proof.
  apply (generated_grid_full mulberry32 [str "CAT"; str "DOG"]
           (createSeededRandom (str "seed"))).
  apply mulberry32_range.
Defined.

(** * More of the word picker *)

Section ShuffleFacts.

Lemma swapAt_Permutation {A} (arr : list A) i j : swapAt arr i j ≡ₚ arr.
Proof.
  unfold swapAt.
  destruct (arr !! j) as [aj |] eqn:Hj; [| reflexivity].
  destruct (arr !! i) as [ai |] eqn:Hi; [| reflexivity].
  pose proof (lookup_lt_Some _ _ _ Hi) as Hli.
  pose proof (lookup_lt_Some _ _ _ Hj) as Hlj.
  apply Permutation_inj. split; [now rewrite !length_insert |].
  exists (fun k => if decide (k = j) then i else if decide (k = i) then j else k).
  split.
  - intros x y Hxy. repeat case_decide; congruence.
  - intros k. destruct (decide (k = j)) as [-> | Hkj].
    + rewrite list_lookup_insert_eq by (rewrite length_insert; lia). now rewrite Hi.
    + rewrite list_lookup_insert_ne by congruence.
      destruct (decide (k = i)) as [-> | Hki].
      * rewrite list_lookup_insert_eq by lia. now rewrite Hj.
      * now rewrite list_lookup_insert_ne by congruence.
Qed.

Lemma shuffleLoop_Permutation i : forall (arr : list jsstring) a,
  shuffleLoop i arr a ≡ₚ arr.
Proof.
  induction i as [| i IH]; intros arr a; cbn [shuffleLoop].
  - reflexivity.
  - destruct (mulberry32 a) as [u a']. rewrite IH. apply swapAt_Permutation.
Qed.

End ShuffleFacts.

(** X5.  The shuffle of [pickWords] loses and repeats nothing: the words
    returned are the upper-cased forms of words chosen among the words of
    the bank that fit the grid, each chosen no more often than it occurs
    there; and when at most [count] words fit, all of them are returned. *)
Theorem pickWords_from_bank (toUpperCase : list Z -> list Z) (bank : list jsstring)
    (count gridSize : nat) (seed : jsstring) :
  let fits := filter (fun w : jsstring => (length w <= gridSize)%nat) bank in
  (∃ chosen rest,
     fits ≡ₚ chosen ++ rest ∧
     pickWords toUpperCase bank count gridSize seed = toUpperCase <$> chosen) ∧
  (∀ w, w ∈ pickWords toUpperCase bank count gridSize seed ->
     ∃ v, v ∈ bank ∧ (length v <= gridSize)%nat ∧ w = toUpperCase v) ∧
  ((length fits <= count)%nat ->
     pickWords toUpperCase bank count gridSize seed ≡ₚ toUpperCase <$> fits).
Proof.
  intros fits. unfold pickWords. fold fits.
  set (shuffled := shuffleLoop (length fits - 1) fits (hashSeed seed)).
  assert (Hperm : shuffled ≡ₚ fits) by apply shuffleLoop_Permutation.
  split; [| split].
  - exists (take count shuffled), (drop count shuffled).
    split; [now rewrite take_drop | reflexivity].
  - intros w Hw. apply list_elem_of_fmap in Hw as (v & -> & Hv).
    apply elem_of_take in Hv as (k & Hv & _).
    apply list_elem_of_lookup_2 in Hv. rewrite Hperm in Hv.
    apply list_elem_of_filter in Hv as [Hlen Hv]. eauto.
  - intros Hle. rewrite take_ge.
    + now rewrite Hperm.
    + rewrite (Permutation_length Hperm). exact Hle.
Qed.

(** * More of the generator of numbers *)

(** X6.  The closure of [mulberry32] reads its state only through 32-bit
    operators, and adds to it as a number.  While the state stays below
    [2^53], two seeds that agree modulo 2^32 give the same numbers, call
    after call, each of them one of the 2^32 values [u / 4294967296] with
    [0 <= u < 2^32], and the state after [k] calls is the seed plus [k]
    times [0x6d2b79f5].  From [2^53] on the sum is rounded: one call in
    the state [2^53] leaves [2^53 + 0x6d2b79f4]. *)
Theorem mulberry32_reads_seed_mod_2_32 (a a' : Z) (k : nat) :
  0 <= a -> 0 <= a' ->
  a + Z.of_nat (S k) * 0x6d2b79f5 < 2 ^ 53 ->
  a' + Z.of_nat (S k) * 0x6d2b79f5 < 2 ^ 53 ->
  a mod 2 ^ 32 = a' mod 2 ^ 32 ->
  streamNth mulberry32 a k = streamNth mulberry32 a' k ∧
  0 <= streamNth mulberry32 a k < 2 ^ 32 ∧
  advance mulberry32 k a = a + Z.of_nat k * 0x6d2b79f5 ∧
  snd (mulberry32 (2 ^ 53)) = 2 ^ 53 + 0x6d2b79f4.
Proof.
  intros Ha Ha' Hk Hk' H. split; [| split; [| split]].
  - unfold streamNth. rewrite !advance_mulberry32 by lia.
    apply mulberry32_wraps; [lia | lia |].
    apply add_mod_congr; [exact H | reflexivity].
  - apply streamNth_range.
  - apply advance_mulberry32; lia.
  - vm_compute. reflexivity.
Qed.

Lemma mulberry32_reads_seed_mod_2_32_witness :
  streamNth mulberry32 5 3 = streamNth mulberry32 (5 + 2 ^ 32) 3 ∧
  0 <= streamNth mulberry32 5 3 < 2 ^ 32 ∧
  advance mulberry32 3 5 = 5 + Z.of_nat 3 * 0x6d2b79f5 ∧
  snd (mulberry32 (2 ^ 53)) = 2 ^ 53 + 0x6d2b79f4.
Proof.
  apply (mulberry32_reads_seed_mod_2_32 5 (5 + 2 ^ 32) 3);
    [lia | lia | vm_compute; reflexivity | vm_compute; reflexivity | reflexivity].
Defined.

(** * More of the gesture handlers *)

(** ** The found set *)

Section FoundFacts.

Variables (rect : Rect) (words : list jsstring) (grid : Grid).
Variable cellFromClient : Vec.t -> option Cell.t.

Lemma onDownA_found p st : App.found (App.onDown rect p st) = App.found st.
Proof.
  unfold App.onDown.
  destruct (negb (isGame _)), (negb (App.gameReady st)), (App.packComplete st),
    (App.cellOfPoint rect p); reflexivity.
Qed.

Lemma onMoveA_found p st : App.found (App.onMove rect p st) = App.found st.
Proof.
  unfold App.onMove.
  destruct (negb (isGame _)), (negb (App.gameReady st)), (App.startCell st),
    (App.packComplete st); reflexivity.
Qed.

Lemma dragA_found p0 moves st : App.found (App.drag rect p0 moves st) = App.found st.
Proof.
  unfold App.drag. rewrite <- (onDownA_found p0 st).
  generalize (App.onDown rect p0 st). clear st.
  induction moves as [| p rest IH]; intros st; simpl; [reflexivity |].
  now rewrite IH, onMoveA_found.
Qed.

Lemma onUpA_found st :
  App.found (App.onUp rect words grid st) = App.found st ∨
  ∃ w, w ∈ words ∧ (w ∉ App.found st) ∧
       App.found (App.onUp rect words grid st) = {[w]} ∪ App.found st.
Proof.
  unfold App.onUp, App.release, App.onUpBody. simpl.
  destruct (negb (isGame _)); [now left |].
  destruct (negb (App.gameReady st)); [now left |].
  destruct (App.startCell st) as [start |]; [| now left].
  destruct (App.dirLock st) as [lock |]; [| now left].
  destruct (App.packComplete st); [now left |].
  destruct (App.matchLoop _ _ _ _ _ _) as [[w line] |] eqn:Hloop; [| now left].
  right. exists w. apply matchLoopA_sound in Hloop as (Hw & Hnf & _).
  repeat split; assumption.
Qed.

Lemma onDownB_found p st :
  AppB.found (AppB.onDown rect cellFromClient p st) = AppB.found st.
Proof.
  unfold AppB.onDown.
  destruct (negb (isGame _)), (negb (AppB.gameReady st)), (AppB.packComplete st),
    (cellFromClient p); reflexivity.
Qed.

Lemma onMoveB_found p st : AppB.found (AppB.onMove rect p st) = AppB.found st.
Proof.
  unfold AppB.onMove.
  destruct (negb (isGame _)), (negb (AppB.gameReady st)), (AppB.startCell st),
    (AppB.packComplete st); reflexivity.
Qed.

Lemma dragB_found p0 moves st :
  AppB.found (AppB.drag rect cellFromClient p0 moves st) = AppB.found st.
Proof.
  unfold AppB.drag. rewrite <- (onDownB_found p0 st).
  generalize (AppB.onDown rect cellFromClient p0 st). clear st.
  induction moves as [| p rest IH]; intros st; simpl; [reflexivity |].
  now rewrite IH, onMoveB_found.
Qed.

Lemma onUpB_found st :
  AppB.found (AppB.onUp rect words grid cellFromClient st) = AppB.found st ∨
  ∃ w, w ∈ words ∧ (w ∉ AppB.found st) ∧
       AppB.found (AppB.onUp rect words grid cellFromClient st) = {[w]} ∪ AppB.found st.
Proof.
  unfold AppB.onUp, AppB.release, AppB.onUpBody. simpl.
  destruct (negb (isGame _)); [now left |].
  destruct (negb (AppB.gameReady st)); [now left |].
  destruct (AppB.packComplete st); [now left |].
  destruct (AppB.startCell st) as [start |]; [| now left].
  destruct (AppB.lastClient st) as [lift |]; [| now left].
  destruct (AppB.stepOf _ _ _ _) as [step |]; [| now left].
  destruct ((Cell.r step =? 0) && _); [now left |].
  destruct (AppB.matchLoop _ _ _ _ _ _) as [w |] eqn:Hloop; [| now left].
  destruct (head _) as [c0 |]; [| now left].
  destruct (last _) as [cl |]; [| now left].
  right. exists w. apply matchLoopB_sound in Hloop as (Hw & Hnf & _).
  repeat split; assumption.
Qed.

Lemma gestureA_found p0 moves st :
  App.found (App.gesture rect words grid p0 moves st) = App.found st ∨
  ∃ w, w ∈ words ∧ (w ∉ App.found st) ∧
       App.found (App.gesture rect words grid p0 moves st) = {[w]} ∪ App.found st.
Proof.
  unfold App.gesture.
  destruct (onUpA_found (App.drag rect p0 moves st)) as [H | (w & Hw & Hnf & H)];
    rewrite dragA_found in *; [now left |].
  right. exists w. repeat split; assumption.
Qed.

Lemma gestureB_found p0 moves st :
  AppB.found (AppB.gesture rect words grid cellFromClient p0 moves st) = AppB.found st ∨
  ∃ w, w ∈ words ∧ (w ∉ AppB.found st) ∧
       AppB.found (AppB.gesture rect words grid cellFromClient p0 moves st)
         = {[w]} ∪ AppB.found st.
Proof.
  unfold AppB.gesture.
  destruct (onUpB_found (AppB.drag rect cellFromClient p0 moves st))
    as [H | (w & Hw & Hnf & H)];
    rewrite dragB_found in *; [now left |].
  right. exists w. repeat split; assumption.
Qed.

End FoundFacts.

(** ** Directions *)

Section DirectionFacts.

Lemma dirs_unit d :
  d ∈ dirs <->
  (-1 <= Cell.r d <= 1 ∧ -1 <= Cell.c d <= 1 ∧ ¬ (Cell.r d = 0 ∧ Cell.c d = 0)).
Proof.
  destruct d as [r c]. unfold dirs. simpl. split.
  - intros H. apply list_elem_of_In in H. simpl in H.
    repeat (destruct H as [H | H]; [inversion H; subst; lia |]). contradiction.
  - intros (Hr & Hc & Hn).
    assert (r = -1 ∨ r = 0 ∨ r = 1) as [-> | [-> | ->]] by lia;
    assert (c = -1 ∨ c = 0 ∨ c = 1) as [-> | [-> | ->]] by lia;
    try lia; apply list_elem_of_In; simpl; tauto.
Qed.

Lemma opposite_dirs d : d ∈ dirs -> opposite d ∈ dirs.
Proof. rewrite !dirs_unit. unfold opposite. simpl. lia. Qed.

Lemma sign_nonzero x : F64.nonzero x -> F64.sign x = 1 ∨ F64.sign x = -1.
Proof. destruct x as [| s | | s m e]; simpl; try contradiction; destruct s; auto. Qed.

(** A diagonal lock needs both components of the displacement to be
    numbers other than zero: with either at zero [min / max] is zero or
    NaN. *)
Lemma diagonal_nonzero ms es dx dy :
  F64.leb (S754_finite false ms es)
    (F64.div (F64.min (F64.abs dx) (F64.abs dy)) (F64.max (F64.abs dx) (F64.abs dy))) = true ->
  F64.nonzero dx ∧ F64.nonzero dy.
Proof.
  intros H.
  destruct dx as [sx | sx | | sx mx ex], dy as [sy | sy | | sy my ey];
    first [ now split | exfalso; cbn in H; discriminate H ].
Qed.

(** The axis tests: [other * AXIS_DOMINANCE <= along] fails when [along]
    is zero or NaN and the displacement is not below the threshold. *)
Lemma axis_nonzero mm em md ed along other :
  -1021 <= Zdigits2 (Zpos md) + em + ed ->
  (F64.ltb (F64.abs other) (S754_finite false mm em)
   && F64.ltb (F64.abs along) (S754_finite false mm em) = false) ->
  F64.leb (F64.mul (F64.abs other) (S754_finite false md ed)) (F64.abs along) = true ->
  F64.nonzero along.
Proof.
  intros Hexp Hb H.
  destruct along as [sa | sa | | sa ma ea]; try exact I.
  - exfalso. cbn [F64.abs SFabs] in H, Hb.
    assert (Hsg : F64.signed false (F64.mul (F64.abs other) (S754_finite false md ed))).
    { apply (mul_signed false false); [apply abs_signed | reflexivity]. }
    apply (leb_zero _ Hsg) in H.
    destruct other as [so | so | | so mo eo]; cbn [F64.abs SFabs] in H, Hb.
    + discriminate Hb.
    + discriminate H.
    + discriminate H.
    + rewrite andb_false_iff in Hb. destruct Hb as [Hb | Hb]; [| discriminate Hb].
      apply ltb_false_exponent in Hb.
      apply (nonzero_not_zero _ (mul_nonzero mo eo md ed ltac:(lia))). exact H.
  - exfalso. destruct (F64.mul _ _); discriminate H.
Qed.

Lemma classify_dirs mm em ms es md ed dx dy d :
  -1021 <= Zdigits2 (Zpos md) + em + ed ->
  belowThreshold (S754_finite false mm em) dx dy = false ->
  classify (S754_finite false ms es) (S754_finite false md ed) dx dy = Some d ->
  d ∈ dirs.
Proof.
  intros Hexp Hb. unfold classify. unfold belowThreshold in Hb.
  destruct (F64.leb (S754_finite false ms es) _) eqn:H1.
  { intros [= <-]. apply diagonal_nonzero in H1 as [Hx Hy].
    apply sign_nonzero in Hx, Hy. apply dirs_unit. simpl. lia. }
  destruct (F64.leb (F64.mul (F64.abs dx) _) _) eqn:H2.
  { intros [= <-]. apply (axis_nonzero mm em md ed dy dx Hexp Hb) in H2.
    apply sign_nonzero in H2. apply dirs_unit. simpl. lia. }
  destruct (F64.leb (F64.mul (F64.abs dy) _) _) eqn:H3; [| discriminate].
  intros [= <-]. rewrite andb_comm in Hb.
  apply (axis_nonzero mm em md ed dx dy Hexp Hb) in H3.
  apply sign_nonzero in H3. apply dirs_unit. simpl. lia.
Qed.

Lemma classifyA_dirs dx dy d :
  belowThreshold App.MIN_PIXELS dx dy = false ->
  classify App.DIAGONAL_SLOP App.AXIS_DOMINANCE dx dy = Some d -> d ∈ dirs.
Proof.
  assert (Hm : App.MIN_PIXELS = S754_finite false 7881299347898368 (-49)) by reflexivity.
  assert (Hs : App.DIAGONAL_SLOP = S754_finite false 5224175567749775 (-53)) by reflexivity.
  assert (Hd : App.AXIS_DOMINANCE = S754_finite false 5854679515581645 (-51)) by reflexivity.
  rewrite Hm, Hs, Hd. apply classify_dirs. vm_compute. discriminate.
Qed.

Lemma classifyB_dirs dx dy d :
  belowThreshold AppB.MIN_PIXELS dx dy = false ->
  classify AppB.DIAGONAL_SLOP AppB.AXIS_DOMINANCE dx dy = Some d -> d ∈ dirs.
Proof.
  assert (Hm : AppB.MIN_PIXELS = S754_finite false 5629499534213120 (-49)) by reflexivity.
  assert (Hs : AppB.DIAGONAL_SLOP = S754_finite false 6845471433603154 (-54)) by reflexivity.
  assert (Hd : AppB.AXIS_DOMINANCE = S754_finite false 5404319552844595 (-51)) by reflexivity.
  rewrite Hm, Hs, Hd. apply classify_dirs. vm_compute. discriminate.
Qed.

End DirectionFacts.

(** ** The direction of a gesture *)

Section LockInvariant.

Variables (rect : Rect) (words : list jsstring) (grid : Grid).
Variable cellFromClient : Vec.t -> option Cell.t.

Lemma onMoveA_lock p st d :
  (∀ d, App.dirLock st = Some d -> d ∈ dirs) ->
  App.dirLock (App.onMove rect p st) = Some d -> d ∈ dirs.
Proof.
  intros Hinv. unfold App.onMove.
  destruct (negb (isGame _)); [apply Hinv |].
  destruct (negb (App.gameReady st)); [apply Hinv |].
  destruct (App.startCell st); [| apply Hinv].
  destruct (App.packComplete st); [apply Hinv |]. simpl.
  destruct (App.dirLock st) as [l |]; [intros [= <-]; now apply Hinv |].
  destruct (App.startPoint st) as [sp |]; [| discriminate].
  destruct (belowThreshold _ _ _) eqn:Hb; [discriminate |].
  now apply (classifyA_dirs (dxOf sp p) (dyOf sp p)).
Qed.

Lemma onMovesA_lock moves : ∀ st d,
  (∀ d, App.dirLock st = Some d -> d ∈ dirs) ->
  App.dirLock (fold_left (fun st p => App.onMove rect p st) moves st) = Some d -> d ∈ dirs.
Proof.
  induction moves as [| p rest IH]; intros st d Hinv; simpl; [apply Hinv |].
  apply IH. intros d'. now apply onMoveA_lock.
Qed.

Lemma dragA_lock p0 moves st d :
  restingA st -> App.dirLock (App.drag rect p0 moves st) = Some d -> d ∈ dirs.
Proof.
  intros [_ Hl]. unfold App.drag. apply onMovesA_lock. intros d'.
  destruct (onDownA_cases rect p0 st) as [-> | (start & _ & Hnone & _)]; congruence.
Qed.

Lemma onMoveB_lock p st d :
  (∀ d, AppB.dirLock st = Some d -> d ∈ dirs) ->
  AppB.dirLock (AppB.onMove rect p st) = Some d -> d ∈ dirs.
Proof.
  intros Hinv. unfold AppB.onMove.
  destruct (negb (isGame _)); [apply Hinv |].
  destruct (negb (AppB.gameReady st)); [apply Hinv |].
  destruct (AppB.startCell st); [| apply Hinv].
  destruct (AppB.packComplete st); [apply Hinv |]. simpl.
  destruct (AppB.dirLock st) as [l |]; [intros [= <-]; now apply Hinv |].
  destruct (AppB.startPoint st) as [sp |]; [| discriminate].
  destruct (belowThreshold _ _ _) eqn:Hb; [discriminate |].
  now apply (classifyB_dirs (dxOf sp p) (dyOf sp p)).
Qed.

Lemma onMovesB_lock moves : ∀ st d,
  (∀ d, AppB.dirLock st = Some d -> d ∈ dirs) ->
  AppB.dirLock (fold_left (fun st p => AppB.onMove rect p st) moves st) = Some d -> d ∈ dirs.
Proof.
  induction moves as [| p rest IH]; intros st d Hinv; simpl; [apply Hinv |].
  apply IH. intros d'. now apply onMoveB_lock.
Qed.

Lemma dragB_lock p0 moves st d :
  restingB st -> AppB.dirLock (AppB.drag rect cellFromClient p0 moves st) = Some d -> d ∈ dirs.
Proof.
  intros [_ Hl]. unfold AppB.drag. apply onMovesB_lock. intros d'.
  destruct (onDownB_cases rect cellFromClient p0 st) as [-> | (start & _ & Hnone & _)];
    congruence.
Qed.

Lemma stepOfB_dirs st start lift liftCell step :
  AppB.stepOf st start lift liftCell = Some step ->
  step ∈ dirs ∨ (step = Cell.mk 0 0 ∧ AppB.startPoint st = None).
Proof.
  unfold AppB.stepOf. destruct (AppB.startPoint st) as [sp |].
  - pose proof (sub_number (Vec.x lift) (Vec.x sp)) as Hnx.
    pose proof (sub_number (Vec.y lift) (Vec.y sp)) as Hny.
    fold (dxOf sp lift) in Hnx. fold (dyOf sp lift) in Hny.
    set (dx := dxOf sp lift) in *. set (dy := dyOf sp lift) in *.
    assert (Hsx : F64.signed false (F64.mul (F64.abs dx) (F64.ofZ 2))).
    { apply (mul_signed false false); [apply abs_signed | reflexivity]. }
    assert (Hsy : F64.signed false (F64.mul (F64.abs dy) (F64.ofZ 2))).
    { apply (mul_signed false false); [apply abs_signed | reflexivity]. }
    destruct (F64.ltb (F64.abs dx) (F64.ofZ 8) && F64.ltb (F64.abs dy) (F64.ofZ 8)) eqn:Hb;
      [discriminate |].
    destruct (F64.ltb (F64.mul (F64.abs dx) (F64.ofZ 2)) (F64.abs dy)) eqn:H1.
    { intros [= <-]. left. apply dirs_unit. simpl.
      pose proof (sign_unit dy). repeat split; try lia. intros [Hz _].
      destruct (sign_zero dy Hz) as [Ha | Hn]; [| contradiction].
      rewrite Ha, ltb_zero in H1 by assumption. discriminate. }
    destruct (F64.ltb (F64.mul (F64.abs dy) (F64.ofZ 2)) (F64.abs dx)) eqn:H2.
    { intros [= <-]. left. apply dirs_unit. simpl.
      pose proof (sign_unit dx). repeat split; try lia. intros [_ Hz].
      destruct (sign_zero dx Hz) as [Ha | Hn]; [| contradiction].
      rewrite Ha, ltb_zero in H2 by assumption. discriminate. }
    intros [= <-]. left. apply dirs_unit. simpl.
    pose proof (sign_unit dx). pose proof (sign_unit dy).
    repeat split; try lia. intros [Hy Hx].
    destruct (sign_zero dx Hx) as [Hzx | Hzx]; [| contradiction].
    destruct (sign_zero dy Hy) as [Hzy | Hzy]; [| contradiction].
    rewrite Hzx, Hzy in Hb. discriminate Hb.
  - destruct liftCell as [lc |]; intros [= <-].
    + destruct (decide (Z.sgn (Cell.r lc - Cell.r start) = 0 ∧
                        Z.sgn (Cell.c lc - Cell.c start) = 0)) as [[-> ->] | Hn].
      * right. split; reflexivity.
      * left. apply dirs_unit. simpl. lia.
    + right. split; reflexivity.
Qed.

End LockInvariant.

(** X7.  The direction that a gesture locks is one of the eight
    directions of the generator: from a state with no gesture under way,
    whatever the pointer-down and the pointer-moves, [dirLock] is unset or
    holds one of [dirs].  In both variants. *)
Theorem drag_locks_one_of_eight (rect : Rect) (cellFromClient : Vec.t -> option Cell.t)
    (p0 : Vec.t) (moves : list Vec.t) (d : Cell.t) :
  (∀ st, restingA st -> App.dirLock (App.drag rect p0 moves st) = Some d -> d ∈ dirs) ∧
  (∀ st, restingB st ->
     AppB.dirLock (AppB.drag rect cellFromClient p0 moves st) = Some d -> d ∈ dirs).
Proof.
  split; intros st Hrest Hlock.
  - now apply (dragA_lock rect p0 moves st).
  - now apply (dragB_lock rect cellFromClient p0 moves st).
Qed.

Lemma drag_locks_one_of_eight_witness : Example.east ∈ dirs.
Proof.
  apply (proj1 (drag_locks_one_of_eight Example.rect Example.hit Example.p21
                  [Example.p23] Example.east) Example.idleA).
  - split; reflexivity.
  - vm_compute. reflexivity.
Defined.

(** X8.  The step that pointer-up of the second copy derives at release
    is one of the eight directions whenever the start point is known; it
    is the zero step, on which pointer-up returns, only when the start
    point is missing and the release cell is the start cell or none. *)
Theorem stepOf_one_of_eight (st : AppB.State) (start : Cell.t) (lift : Vec.t)
    (liftCell : option Cell.t) (step : Cell.t) :
  AppB.stepOf st start lift liftCell = Some step ->
  step ∈ dirs ∨
  (step = Cell.mk 0 0 ∧ AppB.startPoint st = None ∧
   (liftCell = None ∨ liftCell = Some start)).
Proof.
  intros H. destruct (stepOfB_dirs st start lift liftCell step H) as [Hd | [-> Hsp]];
    [now left |].
  right. split; [reflexivity |]. split; [assumption |].
  unfold AppB.stepOf in H. rewrite Hsp in H.
  destruct liftCell as [lc |]; [| now left]. right.
  injection H as Hr Hc. apply Z.sgn_null_iff in Hr, Hc.
  destruct lc, start. simpl in *. f_equal. f_equal; lia.
Qed.

Lemma stepOf_one_of_eight_witness :
  Example.east ∈ dirs ∨
  (Example.east = Cell.mk 0 0 ∧
   AppB.startPoint (AppB.drag Example.rect Example.hit Example.p21 [Example.p23] Example.idleB)
     = None ∧
   (Example.hit Example.p23 = None ∨ Example.hit Example.p23 = Some (Cell.mk 2 1))).
Proof.
  apply (stepOf_one_of_eight
           (AppB.drag Example.rect Example.hit Example.p21 [Example.p23] Example.idleB)
           (Cell.mk 2 1) Example.p23 (Example.hit Example.p23) Example.east).
  vm_compute. reflexivity.
Defined.

(** ** What a gesture reads *)

Section ReadFacts.

Lemma cellsFrom_length start step n : length (cellsFrom start step n) = n.
Proof. unfold cellsFrom. now rewrite length_fmap, length_seq. Qed.

Lemma cellsFrom_lookup start step (n i : nat) :
  (i < n)%nat ->
  cellsFrom start step n !! i
  = Some (Cell.mk (Cell.r start + Cell.r step * Z.of_nat i)
                  (Cell.c start + Cell.c step * Z.of_nat i)).
Proof.
  intros Hi. unfold cellsFrom. rewrite list_lookup_fmap, lookup_seq_lt by assumption.
  reflexivity.
Qed.

(** With the start cell and the end cell on the grid, every cell between
    them is on the grid. *)
Lemma endOf_convex start step (w : jsstring) c :
  offGrid (Cell.r start) (Cell.c start) = false ->
  offGrid (Cell.r (AppB.endOf start step w)) (Cell.c (AppB.endOf start step w)) = false ->
  c ∈ cellsFrom start step (length w) ->
  offGrid (Cell.r c) (Cell.c c) = false.
Proof.
  intros Hs He Hc. apply offGrid_false in Hs as [Hsr Hsc].
  apply offGrid_false in He as [Her Hec]. simpl in Her, Hec.
  unfold cellsFrom in Hc. apply list_elem_of_fmap in Hc as (i & -> & Hi).
  apply elem_of_seq in Hi. simpl. apply offGrid_false. unfold GRID_SIZE in *.
  set (n := Z.of_nat (length w)) in *. set (k := Z.of_nat i).
  assert (Hk : 0 <= k <= n - 1) by lia.
  assert (Hr : 0 <= Cell.r step * k <= Cell.r step * (n - 1) ∨
               Cell.r step * (n - 1) <= Cell.r step * k <= 0).
  { destruct (Z.le_ge_cases 0 (Cell.r step)); [left | right]; nia. }
  assert (Hc : 0 <= Cell.c step * k <= Cell.c step * (n - 1) ∨
               Cell.c step * (n - 1) <= Cell.c step * k <= 0).
  { destruct (Z.le_ge_cases 0 (Cell.c step)); [left | right]; nia. }
  lia.
Qed.

(** On a grid of one-letter cells the text of cells on the grid has one
    code unit per cell. *)
Lemma textOf_pointwise grid cells :
  fullyLettered grid ->
  (∀ c, c ∈ cells -> offGrid (Cell.r c) (Cell.c c) = false) ->
  length (textOf grid cells) = length cells ∧
  ∀ i u, textOf grid cells !! i = Some u ->
    ∃ c, cells !! i = Some c ∧ cellAt grid (Cell.r c) (Cell.c c) = Some [u].
Proof.
  intros Hfull. unfold textOf.
  induction cells as [| c rest IH]; intros Hon.
  - split; [reflexivity |]. simpl. intros i u H. now rewrite lookup_nil in H.
  - assert (Hc : offGrid (Cell.r c) (Cell.c c) = false).
    { apply Hon, elem_of_cons. now left. }
    apply offGrid_false in Hc as [Hr Hc].
    destruct (Hfull (Cell.r c) (Cell.c c) Hr Hc) as [u0 Hu0].
    destruct IH as [Hlen Hpt].
    { intros c' Hc'. apply Hon, elem_of_cons. now right. }
    rewrite fmap_cons. cbn [concat]. rewrite Hu0. cbn [default from_option id app].
    split; [cbn [length]; now rewrite Hlen |].
    intros [| i] u H.
    + injection H as <-. exists c. split; [reflexivity | assumption].
    + apply Hpt, H.
Qed.

Lemma reads_forward grid start step (w : jsstring) :
  fullyLettered grid ->
  (∀ c, c ∈ cellsFrom start step (length w) -> offGrid (Cell.r c) (Cell.c c) = false) ->
  textOf grid (cellsFrom start step (length w)) = w ->
  liesAt grid w (Cell.r start) (Cell.c start) step.
Proof.
  intros Hfull Hon Htext i u Hu.
  destruct (textOf_pointwise grid _ Hfull Hon) as [_ Hpt].
  rewrite Htext in Hpt. destruct (Hpt i u Hu) as (c & Hc & Hcell).
  pose proof (Hon _ (list_elem_of_lookup_2 _ _ _ Hc)) as Hoff.
  rewrite cellsFrom_lookup in Hc by (apply lookup_lt_Some in Hu; lia).
  injection Hc as <-. simpl in Hcell, Hoff. split; assumption.
Qed.

End ReadFacts.

(** X9.  The second copy tests only the end cell of a word against the
    grid before it reads [grid[c.r][c.c]].  With the start cell on the
    grid that is enough: every cell it reads lies on the grid, and on a
    grid of ten rows of ten cells each read returns a cell. *)
Theorem endpoint_check_covers_every_cell (grid : Grid) (start step : Cell.t) (w : jsstring)
    (c : Cell.t) :
  wellFormed grid ->
  offGrid (Cell.r start) (Cell.c start) = false ->
  offGrid (Cell.r (AppB.endOf start step w)) (Cell.c (AppB.endOf start step w)) = false ->
  c ∈ cellsFrom start step (length w) ->
  offGrid (Cell.r c) (Cell.c c) = false ∧
  ∃ cell, cellAt grid (Cell.r c) (Cell.c c) = Some cell.
Proof.
  intros Hwf Hs He Hc.
  assert (Hon : offGrid (Cell.r c) (Cell.c c) = false) by now apply (endOf_convex start step w).
  split; [assumption |]. apply offGrid_false in Hon as [Hr Hcc].
  destruct Hwf as [Hlen Hrows]. unfold cellAt, GRID_SIZE in *.
  destruct (Z.ltb_spec (Cell.r c) 0), (Z.ltb_spec (Cell.c c) 0); try lia. cbn [orb].
  destruct (lookup_lt_is_Some_2 grid (Z.to_nat (Cell.r c)) ltac:(lia)) as [row Hrow].
  rewrite Hrow. cbn [mbind option_bind].
  rewrite Forall_forall in Hrows.
  pose proof (Hrows row (list_elem_of_lookup_2 _ _ _ Hrow)) as Hrl.
  apply lookup_lt_is_Some_2. lia.
Qed.

Lemma endpoint_check_covers_every_cell_witness :
  offGrid 2 2 = false ∧ ∃ cell, cellAt Example.catGrid 2 2 = Some cell.
Proof.
  apply (endpoint_check_covers_every_cell Example.catGrid (Cell.mk 2 1) Example.east
           (str "CAT") (Cell.mk 2 2)).
  - split; [reflexivity |]. vm_compute. repeat constructor.
  - reflexivity.
  - reflexivity.
  - vm_compute. apply elem_of_cons. right. apply elem_of_cons. now left.
Defined.

Section BackwardFacts.

Lemma reads_backward grid start step (w : jsstring) :
  fullyLettered grid ->
  (∀ c, c ∈ cellsFrom start step (length w) -> offGrid (Cell.r c) (Cell.c c) = false) ->
  reverse (textOf grid (cellsFrom start step (length w))) = w ∨
  textOf grid (reverse (cellsFrom start step (length w))) = w ->
  liesAt grid w (Cell.r start + Cell.r step * (Z.of_nat (length w) - 1))
                (Cell.c start + Cell.c step * (Z.of_nat (length w) - 1)) (opposite step).
Proof.
  intros Hfull Hon Hread i u Hu.
  set (cells := cellsFrom start step (length w)) in *.
  assert (Hn : length cells = length w) by apply cellsFrom_length.
  assert (Hc : ∃ c, cells !! (length w - S i)%nat = Some c ∧ (i < length w)%nat ∧
                    cellAt grid (Cell.r c) (Cell.c c) = Some [u]).
  { destruct Hread as [Hrev | Hrev].
    - destruct (textOf_pointwise grid cells Hfull Hon) as [Hlen Hpt].
      rewrite <- Hrev in Hu. apply reverse_lookup_Some in Hu as [Hu Hi].
      rewrite Hlen, Hn in Hu, Hi. destruct (Hpt _ _ Hu) as (c & Hc & Hcell).
      exists c. repeat split; assumption.
    - destruct (textOf_pointwise grid (reverse cells) Hfull) as [Hlen Hpt].
      { intros c Hc. apply Hon. exact (proj1 (elem_of_reverse c cells) Hc). }
      rewrite Hrev in Hpt. destruct (Hpt _ _ Hu) as (c & Hc & Hcell).
      apply reverse_lookup_Some in Hc as [Hc Hi]. rewrite Hn in Hc, Hi.
      exists c. repeat split; assumption. }
  destruct Hc as (c & Hc & Hi & Hcell).
  pose proof (Hon _ (list_elem_of_lookup_2 _ _ _ Hc)) as Hoff.
  unfold cells in Hc. rewrite cellsFrom_lookup in Hc by lia. injection Hc as <-.
  simpl in Hcell, Hoff. unfold opposite. simpl.
  assert (Hk : Z.of_nat (length w - S i) = Z.of_nat (length w) - 1 - Z.of_nat i) by lia.
  rewrite Hk in Hcell, Hoff.
  replace (Cell.r start + Cell.r step * (Z.of_nat (length w) - 1) + - Cell.r step * Z.of_nat i)
    with (Cell.r start + Cell.r step * (Z.of_nat (length w) - 1 - Z.of_nat i)) by ring.
  replace (Cell.c start + Cell.c step * (Z.of_nat (length w) - 1) + - Cell.c step * Z.of_nat i)
    with (Cell.c start + Cell.c step * (Z.of_nat (length w) - 1 - Z.of_nat i)) by ring.
  split; assumption.
Qed.

Lemma readsAlong_placed grid start lock (w : jsstring) :
  fullyLettered grid -> lock ∈ dirs -> readsAlong grid start lock w -> placed grid w.
Proof.
  intros Hfull Hd [Hon [Hf | Hr]].
  - exists (Cell.r start), (Cell.c start), lock. split; [assumption |].
    now apply reads_forward.
  - eexists _, _, (opposite lock). split; [now apply opposite_dirs |].
    apply reads_backward; [exact Hfull | exact Hon | left; exact Hr].
Qed.

Lemma readsTo_placed grid start step (w : jsstring) :
  fullyLettered grid -> step ∈ dirs ->
  offGrid (Cell.r start) (Cell.c start) = false ->
  readsTo grid start step w -> placed grid w.
Proof.
  intros Hfull Hd Hs [He Hread].
  assert (Hon : ∀ c, c ∈ cellsFrom start step (length w) ->
                     offGrid (Cell.r c) (Cell.c c) = false).
  { intros c. now apply endOf_convex. }
  destruct Hread as [Hf | Hr].
  - exists (Cell.r start), (Cell.c start), step. split; [assumption |].
    now apply reads_forward.
  - eexists _, _, (opposite step). split; [now apply opposite_dirs |].
    apply reads_backward; [exact Hfull | exact Hon | right; exact Hr].
Qed.

End BackwardFacts.

Section GestureWords.

Variables (rect : Rect) (words : list jsstring) (grid : Grid).
Variable cellFromClient : Vec.t -> option Cell.t.

Lemma onMoveB_start p st :
  AppB.startCell (AppB.onMove rect p st) = AppB.startCell st.
Proof.
  unfold AppB.onMove.
  destruct (negb (isGame _)), (negb (AppB.gameReady st)), (AppB.startCell st) eqn:Hs,
    (AppB.packComplete st); simpl; congruence.
Qed.

Lemma dragB_start p0 moves st start :
  AppB.startCell st = None ->
  AppB.startCell (AppB.drag rect cellFromClient p0 moves st) = Some start ->
  cellFromClient p0 = Some start.
Proof.
  intros Hnone. unfold AppB.drag.
  assert (Hdown : ∀ c, AppB.startCell (AppB.onDown rect cellFromClient p0 st) = Some c ->
                       cellFromClient p0 = Some c).
  { intros c. unfold AppB.onDown.
    destruct (negb (isGame _)), (negb (AppB.gameReady st)), (AppB.packComplete st),
      (cellFromClient p0); simpl; congruence. }
  revert Hdown. generalize (AppB.onDown rect cellFromClient p0 st). clear Hnone st.
  induction moves as [| p rest IH]; intros st Hdown; simpl; [apply Hdown |].
  apply IH. intros c. rewrite onMoveB_start. apply Hdown.
Qed.

Lemma onUpB_step st w :
  w ∈ AppB.found (AppB.onUp rect words grid cellFromClient st) ->
  w ∉ AppB.found st ->
  ∃ start lift step,
    AppB.startCell st = Some start ∧ AppB.lastClient st = Some lift ∧
    AppB.stepOf st start lift (cellFromClient lift) = Some step ∧ step ∈ dirs ∧
    w ∈ words ∧
    AppB.wordMatches grid (cellFromClient lift) start step w = true.
Proof.
  unfold AppB.onUp, AppB.release, AppB.onUpBody. simpl. intros Hin Hnot.
  destruct (negb (isGame _)); [contradiction |].
  destruct (negb (AppB.gameReady st)); [contradiction |].
  destruct (AppB.packComplete st); [contradiction |].
  destruct (AppB.startCell st) as [start |]; [| contradiction].
  destruct (AppB.lastClient st) as [lift |]; [| contradiction].
  destruct (AppB.stepOf _ _ _ _) as [step |] eqn:Hstep; [| contradiction].
  destruct ((Cell.r step =? 0) && _) eqn:Hz; [contradiction |].
  destruct (AppB.matchLoop _ _ _ _ _ _) as [v |] eqn:Hloop; [| contradiction].
  destruct (head _) as [c0 |]; [| contradiction].
  destruct (last _) as [cl |]; [| contradiction].
  simpl in Hin. apply elem_of_union in Hin as [Hin | Hin]; [| contradiction].
  apply elem_of_singleton in Hin. subst v.
  apply matchLoopB_sound in Hloop as (Hw & _ & Ht).
  exists start, lift, step. repeat split; try assumption.
  destruct (stepOfB_dirs _ _ _ _ _ Hstep) as [Hd | [-> _]]; [assumption | discriminate].
Qed.

Lemma gestureA_placed p0 moves st w :
  fullyLettered grid -> restingA st ->
  w ∈ App.found (App.gesture rect words grid p0 moves st) -> w ∉ App.found st ->
  placed grid w.
Proof.
  intros Hfull Hrest Hin Hnot. unfold App.gesture in Hin.
  rewrite <- (dragA_found rect p0 moves st) in Hnot.
  destruct (onUpA_new _ _ _ _ _ Hin Hnot) as (start & lock & line & _ & Hl & _ & Ht).
  apply tryWordA_matched in Ht as [Hread _].
  apply (readsAlong_placed grid start lock); [assumption | | assumption].
  now apply (dragA_lock rect p0 moves st).
Qed.

Lemma gestureB_placed p0 moves st w :
  fullyLettered grid ->
  (∀ p c, cellFromClient p = Some c -> offGrid (Cell.r c) (Cell.c c) = false) ->
  restingB st ->
  w ∈ AppB.found (AppB.gesture rect words grid cellFromClient p0 moves st) ->
  w ∉ AppB.found st ->
  placed grid w.
Proof.
  intros Hfull Hhit [Hrest _] Hin Hnot. unfold AppB.gesture in Hin.
  rewrite <- (dragB_found rect cellFromClient p0 moves st) in Hnot.
  destruct (onUpB_step _ _ Hin Hnot) as (start & lift & step & Hs & _ & _ & Hd & _ & Ht).
  apply wordMatchesB_reads in Ht as [Hread _].
  apply (readsTo_placed grid start step); [assumption | assumption | | assumption].
  apply (Hhit p0). now apply (dragB_start p0 moves st).
Qed.

End GestureWords.

Section Checks.

(** A grid is fully lettered when the hundred cells pass the test. *)
Lemma fullyLettered_check grid :
  forallb (fun r => forallb (fun c =>
    match cellAt grid r c with Some [_] => true | _ => false end) gridIndices) gridIndices
  = true ->
  fullyLettered grid.
Proof.
  intros H r c Hr Hc. rewrite forallb_forall in H.
  specialize (H r (proj1 (list_elem_of_In _ _) (gridIndices_elem r Hr))).
  rewrite forallb_forall in H.
  specialize (H c (proj1 (list_elem_of_In _ _) (gridIndices_elem c Hc))).
  destruct (cellAt grid r c) as [[| u [| ? ?]] |]; try discriminate. now exists u.
Qed.

Lemma cellOfPoint_onGrid rect p c :
  App.cellOfPoint rect p = Some c -> offGrid (Cell.r c) (Cell.c c) = false.
Proof.
  unfold App.cellOfPoint.
  destruct (F64.floor _) as [rr |]; [| discriminate].
  destruct (F64.floor _) as [cc |]; [| discriminate].
  destruct (offGrid _ _) eqn:Hoff; [discriminate |].
  now intros [= <-].
Qed.

End Checks.

(** X10.  On a grid whose cells hold one letter each, as the generator
    returns it, a word that a gesture adds to the found set lies in the
    grid along one of the eight directions, and [gridContainsWord] accepts
    it.  In the second copy this needs the hit test to return cells of the
    grid. *)
Theorem gesture_finds_words_of_the_grid (rect : Rect) (words : list jsstring) (grid : Grid)
    (cellFromClient : Vec.t -> option Cell.t) (p0 : Vec.t) (moves : list Vec.t)
    (w : jsstring) :
  fullyLettered grid ->
  (∀ st, restingA st ->
     w ∈ App.found (App.gesture rect words grid p0 moves st) -> w ∉ App.found st ->
     placed grid w ∧ gridContainsWord grid w = true) ∧
  ((∀ p c, cellFromClient p = Some c -> offGrid (Cell.r c) (Cell.c c) = false) ->
   ∀ st, restingB st ->
     w ∈ AppB.found (AppB.gesture rect words grid cellFromClient p0 moves st) ->
     w ∉ AppB.found st ->
     placed grid w ∧ gridContainsWord grid w = true).
Proof.
  intros Hfull. split.
  - intros st Hrest Hin Hnot.
    assert (placed grid w) by now apply (gestureA_placed rect words grid p0 moves st).
    split; [assumption | now apply placed_gridContainsWord].
  - intros Hhit st Hrest Hin Hnot.
    assert (placed grid w)
      by now apply (gestureB_placed rect words grid cellFromClient p0 moves st).
    split; [assumption | now apply placed_gridContainsWord].
Qed.

Lemma gesture_finds_words_of_the_grid_witness :
  (placed Example.catGrid (str "CAT") ∧ gridContainsWord Example.catGrid (str "CAT") = true) ∧
  (placed Example.catGrid (str "CAT") ∧ gridContainsWord Example.catGrid (str "CAT") = true).
Proof.
  pose proof (gesture_finds_words_of_the_grid Example.rect [str "CAT"] Example.catGrid
                Example.hit Example.p21 [Example.p23] (str "CAT")
                (fullyLettered_check Example.catGrid eq_refl)) as [HA HB].
  split.
  - apply (HA Example.idleA).
    + split; reflexivity.
    + vm_compute. reflexivity.
    + intros H. vm_compute in H. discriminate.
  - apply (HB (cellOfPoint_onGrid Example.rect) Example.idleB).
    + split; reflexivity.
    + vm_compute. reflexivity.
    + intros H. vm_compute in H. discriminate.
Defined.

(** ** After the release *)

Section Inert.

Variables (rect : Rect) (words : list jsstring) (grid : Grid).
Variable cellFromClient : Vec.t -> option Cell.t.

Lemma onMoveA_unstarted p st : App.startCell st = None -> App.onMove rect p st = st.
Proof. intros Hs. exact (onMovesA_unstarted rect [p] st Hs). Qed.

Lemma onUpBodyA_unstarted st :
  App.startCell st = None -> App.onUpBody rect words grid st = st.
Proof.
  intros Hs. unfold App.onUpBody. rewrite Hs.
  now destruct (negb (isGame _)), (negb (App.gameReady st)).
Qed.

Lemma releasedA st :
  App.liveLine st = None -> App.startCell st = None -> App.dirLock st = None ->
  App.startPoint st = None -> App.release st = st.
Proof. destruct st. simpl. intros -> -> -> ->. reflexivity. Qed.

Lemma inertA p st :
  App.liveLine st = None -> App.startCell st = None -> App.dirLock st = None ->
  App.startPoint st = None ->
  App.onMove rect p st = st ∧ App.onUp rect words grid st = st ∧ clearA st = st.
Proof.
  intros Hl Hs Hd Hp. split; [now apply onMoveA_unstarted |]. split.
  - unfold App.onUp. rewrite onUpBodyA_unstarted by assumption. now apply releasedA.
  - now apply releasedA.
Qed.

Lemma onMoveB_unstarted p st : AppB.startCell st = None -> AppB.onMove rect p st = st.
Proof. intros Hs. exact (onMovesB_unstarted rect [p] st Hs). Qed.

Lemma onUpBodyB_unstarted st :
  AppB.startCell st = None -> AppB.onUpBody rect words grid cellFromClient st = st.
Proof.
  intros Hs. unfold AppB.onUpBody. rewrite Hs.
  now destruct (negb (isGame _)), (negb (AppB.gameReady st)), (AppB.packComplete st).
Qed.

Lemma inertB p st :
  AppB.liveLine st = None -> AppB.startCell st = None -> AppB.dirLock st = None ->
  AppB.startPoint st = None ->
  AppB.onMove rect p st = st ∧
  AppB.onUp rect words grid cellFromClient st = AppB.release st ∧
  clearB st = st.
Proof.
  intros Hl Hs Hd Hp. split; [now apply onMoveB_unstarted |]. split.
  - unfold AppB.onUp. now rewrite onUpBodyB_unstarted.
  - destruct st. simpl in *. now subst.
Qed.

End Inert.

(** X11.  Pointer-up and the window's cleanup listener leave no gesture
    behind: the refs and the live line are empty, and until the next
    pointer-down a pointer-move changes nothing and a pointer-up finds
    nothing.  In the second copy the cleanup listener keeps [lastClient],
    which the next pointer-up clears without reading it. *)
Theorem release_leaves_no_gesture (rect : Rect) (words : list jsstring) (grid : Grid)
    (cellFromClient : Vec.t -> option Cell.t) (p : Vec.t) :
  (∀ st st',
     st' = App.onUp rect words grid st ∨ st' = clearA st ->
     restingA st' ∧ App.liveLine st' = None ∧ App.startPoint st' = None ∧
     App.onMove rect p st' = st' ∧ App.onUp rect words grid st' = st' ∧ clearA st' = st') ∧
  (∀ st st',
     st' = AppB.onUp rect words grid cellFromClient st ∨ st' = clearB st ->
     restingB st' ∧ AppB.liveLine st' = None ∧ AppB.startPoint st' = None ∧
     AppB.onMove rect p st' = st' ∧
     AppB.onUp rect words grid cellFromClient st' = AppB.release st' ∧
     AppB.found (AppB.onUp rect words grid cellFromClient st') = AppB.found st' ∧
     clearB st' = st').
Proof.
  split.
  - intros st st' Hst'.
    assert (H : App.liveLine st' = None ∧ App.startCell st' = None ∧
                App.dirLock st' = None ∧ App.startPoint st' = None).
    { destruct Hst' as [-> | ->]; repeat split. }
    destruct H as (Hl & Hs & Hd & Hp).
    destruct (inertA rect words grid p st' Hl Hs Hd Hp) as (Hm & Hu & Hc).
    repeat split; assumption.
  - intros st st' Hst'.
    assert (H : AppB.liveLine st' = None ∧ AppB.startCell st' = None ∧
                AppB.dirLock st' = None ∧ AppB.startPoint st' = None).
    { destruct Hst' as [-> | ->]; repeat split. }
    destruct H as (Hl & Hs & Hd & Hp).
    destruct (inertB rect words grid cellFromClient p st' Hl Hs Hd Hp) as (Hm & Hu & Hc).
    repeat split; try assumption. now rewrite Hu.
Qed.

(** At a concrete state: a drag under way in [src/App.tsx], released. *)
Lemma release_leaves_no_gesture_witness :
  let st := App.drag Example.rect Example.p21 [Example.p23] Example.idleA in
  let st' := App.onUp Example.rect [str "CAT"] Example.catGrid st in
  App.onMove Example.rect Example.p21up st' = st'.
Proof.
  intros st st'.
  apply (proj1 (release_leaves_no_gesture Example.rect [str "CAT"] Example.catGrid
                  Example.hit Example.p21up) st st').
  left. reflexivity.
Defined.

(** ** Cells and points *)

Section Geometry.




End Geometry.



(** ** Sessions and the advance effect *)

Section Sessions.

Variables (rect : Rect) (words : list jsstring) (grid : Grid).
Variable cellFromClient : Vec.t -> option Cell.t.

(** What a step that adds at most one word of [words] does to a set. *)
Lemma grows_by_one (X Y : gset (list Z)) (n : nat) (base : gset (list Z)) :
  (Y = X ∨ ∃ w, w ∈ words ∧ (w ∉ X) ∧ Y = {[w]} ∪ X) ->
  base ⊆ X ∧ (∀ w, w ∈ X -> w ∈ base ∨ w ∈ words) ∧ (size X <= size base + n)%nat ->
  base ⊆ Y ∧ (∀ w, w ∈ Y -> w ∈ base ∨ w ∈ words) ∧ (size Y <= size base + S n)%nat.
Proof.
  intros [-> | (w & Hw & Hnew & ->)] (Hsub & Hin & Hsize).
  - repeat split; [assumption | assumption | lia].
  - split; [set_solver |]. split.
    + intros v Hv. apply elem_of_union in Hv as [Hv | Hv]; [| now apply Hin].
      apply elem_of_singleton in Hv. subst v. now right.
    + rewrite size_union by set_solver. rewrite size_singleton. lia.
Qed.

Lemma gesturesA_found gs : ∀ st,
  let st' := gesturesA rect words grid gs st in
  App.found st ⊆ App.found st' ∧
  (∀ w, w ∈ App.found st' -> w ∈ App.found st ∨ w ∈ words) ∧
  (size (App.found st') <= size (App.found st) + length gs)%nat.
Proof.
  induction gs as [| g rest IH] using rev_ind; intros st; simpl.
  - repeat split; [set_solver | now left | lia].
  - unfold gesturesA. rewrite fold_left_app, length_app. simpl. rewrite Nat.add_1_r.
    fold (gesturesA rect words grid rest st).
    eapply grows_by_one; [apply gestureA_found | apply IH].
Qed.

Lemma gesturesB_found gs : ∀ st,
  let st' := gesturesB rect words grid cellFromClient gs st in
  AppB.found st ⊆ AppB.found st' ∧
  (∀ w, w ∈ AppB.found st' -> w ∈ AppB.found st ∨ w ∈ words) ∧
  (size (AppB.found st') <= size (AppB.found st) + length gs)%nat.
Proof.
  induction gs as [| g rest IH] using rev_ind; intros st; simpl.
  - repeat split; [set_solver | now left | lia].
  - unfold gesturesB. rewrite fold_left_app, length_app. simpl. rewrite Nat.add_1_r.
    fold (gesturesB rect words grid cellFromClient rest st).
    eapply grows_by_one; [apply gestureB_found | apply IH].
Qed.

End Sessions.

(** X13.  Over a whole session on one puzzle the found set only grows,
    every word it gains is a word of the puzzle, and it gains at most one
    word per gesture: finding [n] words takes at least [n] gestures.  In
    both variants. *)
Theorem session_found_grows_within_words (rect : Rect) (words : list jsstring) (grid : Grid)
    (cellFromClient : Vec.t -> option Cell.t) (gs : list (Vec.t * list Vec.t)) :
  (∀ st,
     let st' := gesturesA rect words grid gs st in
     App.found st ⊆ App.found st' ∧
     (∀ w, w ∈ App.found st' -> w ∈ App.found st ∨ w ∈ words) ∧
     (size (App.found st') <= size (App.found st) + length gs)%nat) ∧
  (∀ st,
     let st' := gesturesB rect words grid cellFromClient gs st in
     AppB.found st ⊆ AppB.found st' ∧
     (∀ w, w ∈ AppB.found st' -> w ∈ AppB.found st ∨ w ∈ words) ∧
     (size (AppB.found st') <= size (AppB.found st) + length gs)%nat).
Proof.
  split; intros st; [apply gesturesA_found | apply gesturesB_found].
Qed.

Section Advance.

Lemma size_list_to_set_le (l : list jsstring) :
  (size (list_to_set l : gset (list Z)) <= length l)%nat.
Proof.
  induction l as [| x l IH].
  - rewrite list_to_set_nil, size_empty. reflexivity.
  - rewrite list_to_set_cons, size_union_alt, size_singleton. cbn [length].
    assert (Hdiff : (list_to_set l ∖ {[x]} : gset (list Z)) ⊆ list_to_set l)
      by apply subseteq_difference_l, reflexivity.
    apply subseteq_size in Hdiff. lia.
Qed.

Lemma size_list_to_set_NoDup (l : list jsstring) :
  size (list_to_set l : gset (list Z)) = length l -> NoDup l.
Proof.
  induction l as [| x l IH]; intros Hsize; [constructor |].
  rewrite list_to_set_cons in Hsize. cbn [length] in Hsize.
  pose proof (size_list_to_set_le l) as Hle.
  destruct (decide (x ∈ l)) as [Hin | Hnin].
  - exfalso.
    assert (Heq : ({[x]} ∪ list_to_set l : gset (list Z)) = list_to_set l).
    { apply set_eq. intros v. rewrite elem_of_union, elem_of_singleton, elem_of_list_to_set.
      split; [intros [-> | ?]; assumption | now right]. }
    rewrite Heq in Hsize. lia.
  - constructor; [assumption |]. apply IH.
    rewrite size_union, size_singleton in Hsize by set_solver. lia.
Qed.

Lemma found_all (words : list jsstring) (found : gset (list Z)) :
  (∀ w, w ∈ found -> w ∈ words) -> size found = length words ->
  NoDup words ∧ ∀ w, w ∈ words -> w ∈ found.
Proof.
  intros Hsub Hsize.
  assert (Hsub' : found ⊆ list_to_set words) by set_solver.
  pose proof (subseteq_size _ _ Hsub') as H1.
  pose proof (size_list_to_set_le words) as H2.
  split; [apply size_list_to_set_NoDup; lia |].
  assert (Heq : found ≡ list_to_set words).
  { apply set_subseteq_size_equiv; [assumption | lia]. }
  intros w Hw. apply Heq. set_solver.
Qed.

Lemma advanceEffect_fires words p :
  advanceEffect words p ≠ p ->
  isGame (App.page (view p)) = true ∧ App.gameReady (view p) = true ∧
  App.packComplete (view p) = false ∧
  size (App.found (view p)) = length words ∧ words ≠ [].
Proof.
  unfold advanceEffect. intros H.
  destruct (isGame _); [| contradiction].
  destruct (App.gameReady _); [| contradiction].
  destruct (App.packComplete _); [contradiction |]. simpl in H.
  destruct (size _ =? length words)%nat eqn:Hs; [| contradiction]. simpl in H.
  destruct (length words =? 0)%nat eqn:Hz; [contradiction |].
  apply Nat.eqb_eq in Hs. apply Nat.eqb_neq in Hz.
  repeat split; try assumption. intros ->. now apply Hz.
Qed.

Lemma advanceEffect_all_found words p :
  isGame (App.page (view p)) = true -> App.gameReady (view p) = true ->
  App.packComplete (view p) = false ->
  size (App.found (view p)) = length words -> words ≠ [] ->
  advanceEffect words p =
    if (puzzleIndex p <? PACK_SIZE - 1)%nat then
      mkPack (App.mkState (App.page (view p)) true false ∅ [] None None None None)
             (puzzleIndex p + 1)
    else
      mkPack (App.mkState (App.page (view p)) true true (App.found (view p))
                (App.lockedLines (view p)) (App.liveLine (view p)) (App.startCell (view p))
                (App.dirLock (view p)) (App.startPoint (view p)))
             (puzzleIndex p).
Proof.
  intros Hp Hr Hc Hs Hw. unfold advanceEffect. rewrite Hp, Hr, Hc. simpl.
  rewrite Hs, Nat.eqb_refl. simpl.
  destruct (length words =? 0)%nat eqn:Hz.
  - apply Nat.eqb_eq in Hz. destruct words; [contradiction | discriminate].
  - reflexivity.
Qed.

Lemma advanceEffect_blocked words p :
  App.packComplete (view p) = true ∨ App.found (view p) = ∅ ->
  advanceEffect words p = p.
Proof.
  intros H. unfold advanceEffect.
  destruct (negb (isGame _)); [reflexivity |].
  destruct (negb (App.gameReady _)); [reflexivity |].
  destruct H as [-> | ->]; [reflexivity |].
  destruct (App.packComplete _); [reflexivity |].
  rewrite size_empty. now destruct words.
Qed.

Lemma advanceEffect_once words words' p :
  advanceEffect words p ≠ p ->
  advanceEffect words' (advanceEffect words p) = advanceEffect words p.
Proof.
  intros H. destruct (advanceEffect_fires words p H) as (Hp & Hr & Hc & Hs & Hw).
  rewrite (advanceEffect_all_found words p Hp Hr Hc Hs Hw).
  apply advanceEffect_blocked.
  destruct (puzzleIndex p <? PACK_SIZE - 1)%nat; [right | left]; reflexivity.
Qed.

End Advance.

(** X14.  The advance effect of [src/App.tsx] compares the size of the
    found set with the length of the word list.  With the found words
    among the words of the puzzle, as the handlers keep them, the effect
    acts only when the word list is not empty, has no word twice and every
    word is found; it then moves to the next puzzle with everything
    cleared, or, on the last puzzle of the pack, sets [packComplete]; and
    once it has acted it does not act again on the state it leaves,
    whatever the next word list. *)
Theorem advance_needs_every_distinct_word (words : list jsstring) (p : Pack) :
  (∀ w, w ∈ App.found (view p) -> w ∈ words) ->
  (advanceEffect words p ≠ p ->
     words ≠ [] ∧ NoDup words ∧ (∀ w, w ∈ words -> w ∈ App.found (view p)) ∧
     ∀ words', advanceEffect words' (advanceEffect words p) = advanceEffect words p) ∧
  (isGame (App.page (view p)) = true -> App.gameReady (view p) = true ->
   App.packComplete (view p) = false ->
   words ≠ [] -> NoDup words -> (∀ w, w ∈ words -> w ∈ App.found (view p)) ->
   ((puzzleIndex p < PACK_SIZE - 1)%nat ->
      puzzleIndex (advanceEffect words p) = (puzzleIndex p + 1)%nat ∧
      App.found (view (advanceEffect words p)) = ∅ ∧
      App.lockedLines (view (advanceEffect words p)) = [] ∧
      restingA (view (advanceEffect words p)) ∧
      App.packComplete (view (advanceEffect words p)) = false) ∧
   ((PACK_SIZE - 1 <= puzzleIndex p)%nat ->
      puzzleIndex (advanceEffect words p) = puzzleIndex p ∧
      App.found (view (advanceEffect words p)) = App.found (view p) ∧
      App.packComplete (view (advanceEffect words p)) = true)).
Proof.
  intros Hsub. split.
  - intros Hfire. destruct (advanceEffect_fires words p Hfire) as (_ & _ & _ & Hs & Hw).
    destruct (found_all words _ Hsub Hs) as [Hnd Hall].
    repeat split; try assumption. intros words'. now apply advanceEffect_once.
  - intros Hp Hr Hc Hw Hnd Hall.
    assert (Hs : size (App.found (view p)) = length words).
    { assert (Heq : App.found (view p) = list_to_set words).
      { apply set_eq. intros w. rewrite elem_of_list_to_set.
        split; [apply Hsub | apply Hall]. }
      rewrite Heq. now apply size_list_to_set. }
    rewrite (advanceEffect_all_found words p Hp Hr Hc Hs Hw). split; intros Hi.
    + apply Nat.ltb_lt in Hi. rewrite Hi. simpl. repeat split.
    + apply Nat.ltb_ge in Hi. rewrite Hi. simpl. repeat split.
Qed.

Lemma advance_needs_every_distinct_word_witness :
  puzzleIndex (advanceEffect [str "CAT"] (mkPack Example.foundCat 0)) = (0 + 1)%nat.
Proof.
  refine (proj1 (proj1 (proj2 (advance_needs_every_distinct_word [str "CAT"]
                                 (mkPack Example.foundCat 0) _)
                          eq_refl eq_refl eq_refl _ _ _) _)).
  - intros w Hw. cbn [view App.found Example.foundCat] in Hw.
    apply elem_of_singleton in Hw. subst w. apply elem_of_cons. now left.
  - discriminate.
  - apply NoDup_singleton.
  - intros w Hw. cbn [view App.found Example.foundCat].
    apply elem_of_cons in Hw as [-> | Hw]; [now apply elem_of_singleton |].
    now apply elem_of_nil in Hw.
  - unfold PACK_SIZE. simpl. lia.
Defined.

(** ** A correct release finds a word *)

Section Progress.

Variables (rect : Rect) (words : list jsstring) (grid : Grid).
Variable cellFromClient : Vec.t -> option Cell.t.

Lemma head_cellsFrom start step (n : nat) :
  head (cellsFrom start step (S n)) = Some start.
Proof.
  unfold cellsFrom. simpl. rewrite !Z.mul_0_r, !Z.add_0_r. now destruct start.
Qed.

Lemma tryWordA_TypeError st start lock w :
  App.tryWord rect grid st start lock w = App.TypeError -> w = [].
Proof.
  unfold App.tryWord. destruct w as [| u w']; [reflexivity |]. intros H. exfalso.
  destruct (existsb _ _); [discriminate |].
  destruct (bool_decide _ && _); [discriminate |].
  change (length (u :: w')) with (S (length w')) in H.
  rewrite head_cellsFrom, last_cellsFrom in H.
  destruct (App.fingerTooFar _ _ _ _); discriminate.
Qed.

Lemma tryWordA_complete st start lock (w : jsstring) :
  w ≠ [] ->
  readsAlong grid start lock w ->
  App.fingerTooFar rect
    (fingerPosA rect st
       (Cell.mk (Cell.r start + Cell.r lock * (Z.of_nat (length w) - 1))
                (Cell.c start + Cell.c lock * (Z.of_nat (length w) - 1))))
    (center rect start)
    (center rect
       (Cell.mk (Cell.r start + Cell.r lock * (Z.of_nat (length w) - 1))
                (Cell.c start + Cell.c lock * (Z.of_nat (length w) - 1)))) = false ->
  ∃ line, App.tryWord rect grid st start lock w = App.Matched line.
Proof.
  intros Hne [Hon Hread] Hfar. unfold App.tryWord.
  destruct (existsb _ _) eqn:Hoff.
  { apply existsb_exists in Hoff as (c & Hc & Hc').
    apply list_elem_of_In, Hon in Hc. congruence. }
  destruct (bool_decide (textOf grid _ ≠ w) && _) eqn:Htext.
  { apply andb_true_iff in Htext as [H1 H2].
    apply bool_decide_eq_true in H1, H2. destruct Hread; contradiction. }
  destruct (length w) as [| n] eqn:Hlen; [destruct w; [contradiction | discriminate] |].
  rewrite head_cellsFrom, last_cellsFrom.
  replace (Z.of_nat (S n) - 1) with (Z.of_nat n) in Hfar by lia.
  unfold fingerPosA in Hfar. rewrite Hfar. eexists. reflexivity.
Qed.

Lemma matchLoopA_complete st start lock ws w line :
  (∀ v, v ∈ ws -> v ≠ []) ->
  w ∈ ws -> w ∉ App.found st ->
  App.tryWord rect grid st start lock w = App.Matched line ->
  ∃ v line', App.matchLoop rect grid st start lock ws = Some (v, line').
Proof.
  intros Hne Hin Hnf Ht. induction ws as [| v rest IH]; [now apply elem_of_nil in Hin |].
  simpl. destruct (bool_decide (v ∈ App.found st)) eqn:Hf.
  - apply bool_decide_eq_true in Hf. apply IH.
    + intros u Hu. apply Hne, elem_of_cons. now right.
    + apply elem_of_cons in Hin as [-> | Hin]; [contradiction | assumption].
  - destruct (App.tryWord rect grid st start lock v) as [| l |] eqn:Hv.
    + apply IH.
      * intros u Hu. apply Hne, elem_of_cons. now right.
      * apply elem_of_cons in Hin as [-> | Hin]; [congruence | assumption].
    + now exists v, l.
    + apply tryWordA_TypeError in Hv. exfalso. apply (Hne v); [| assumption].
      apply elem_of_cons. now left.
Qed.

Lemma onUpA_complete st start lock w line :
  isGame (App.page st) = true -> App.gameReady st = true -> App.packComplete st = false ->
  App.startCell st = Some start -> App.dirLock st = Some lock ->
  (∀ v, v ∈ words -> v ≠ []) ->
  w ∈ words -> w ∉ App.found st ->
  App.tryWord rect grid st start lock w = App.Matched line ->
  ∃ v, v ∈ words ∧ (v ∉ App.found st) ∧
       App.found (App.onUp rect words grid st) = {[v]} ∪ App.found st.
Proof.
  intros Hp Hr Hc Hs Hl Hne Hw Hnf Ht.
  destruct (matchLoopA_complete st start lock words w line Hne Hw Hnf Ht) as (v & l & Hloop).
  exists v. destruct (matchLoopA_sound _ _ _ _ _ _ _ _ Hloop) as (Hv & Hvn & _).
  split; [assumption |]. split; [assumption |].
  unfold App.onUp, App.release, App.onUpBody. rewrite Hp, Hr, Hs, Hl, Hc, Hloop.
  reflexivity.
Qed.

Lemma wordMatchesB_complete liftCell start step (w : jsstring) :
  readsTo grid start step w ->
  AppB.liftCloseTo liftCell (AppB.endOf start step w) AppB.END_TOL = true ->
  AppB.wordMatches grid liftCell start step w = true.
Proof.
  intros [Hend Hread] Hclose. unfold AppB.wordMatches. rewrite Hend, Hclose. simpl.
  apply negb_true_iff, andb_false_iff.
  destruct Hread as [H | H]; [left | right]; apply bool_decide_eq_false; now intros ?.
Qed.

Lemma matchLoopB_complete st liftCell start step ws w :
  w ∈ ws -> w ∉ AppB.found st ->
  AppB.wordMatches grid liftCell start step w = true ->
  ∃ v, AppB.matchLoop grid st liftCell start step ws = Some v.
Proof.
  intros Hin Hnf Ht. induction ws as [| v rest IH]; [now apply elem_of_nil in Hin |].
  simpl. destruct (bool_decide (v ∈ AppB.found st)) eqn:Hf.
  - apply bool_decide_eq_true in Hf. apply IH.
    apply elem_of_cons in Hin as [-> | Hin]; [contradiction | assumption].
  - destruct (AppB.wordMatches grid liftCell start step v) eqn:Hv; [now exists v |].
    apply IH. apply elem_of_cons in Hin as [-> | Hin]; [congruence | assumption].
Qed.

Lemma onUpB_complete st start lift step w :
  isGame (AppB.page st) = true -> AppB.gameReady st = true ->
  AppB.packComplete st = false ->
  AppB.startCell st = Some start -> AppB.lastClient st = Some lift ->
  AppB.stepOf st start lift (cellFromClient lift) = Some step ->
  step ≠ Cell.mk 0 0 ->
  (∀ v, v ∈ words -> v ≠ []) ->
  w ∈ words -> w ∉ AppB.found st ->
  AppB.wordMatches grid (cellFromClient lift) start step w = true ->
  ∃ v, v ∈ words ∧ (v ∉ AppB.found st) ∧
       AppB.wordMatches grid (cellFromClient lift) start step v = true ∧
       AppB.found (AppB.onUp rect words grid cellFromClient st) = {[v]} ∪ AppB.found st.
Proof.
  intros Hp Hr Hc Hs Hl Hstep Hnz Hne Hw Hnf Ht.
  destruct (matchLoopB_complete st _ start step words w Hw Hnf Ht) as (v & Hloop).
  exists v. destruct (matchLoopB_sound _ _ _ _ _ _ _ Hloop) as (Hv & Hvn & Hvt).
  split; [assumption |]. split; [assumption |]. split; [assumption |].
  unfold AppB.onUp, AppB.release, AppB.onUpBody. rewrite Hp, Hr, Hc, Hs, Hl, Hstep.
  simpl.
  destruct ((Cell.r step =? 0) && (Cell.c step =? 0)) eqn:Hz.
  { apply andb_true_iff in Hz as [H1 H2]. apply Z.eqb_eq in H1, H2.
    exfalso. apply Hnz. destruct step; simpl in *; congruence. }
  rewrite Hloop.
  destruct (length v) as [| n] eqn:Hlen.
  { exfalso. apply (Hne v Hv). now destruct v. }
  rewrite head_cellsFrom, last_cellsFrom. reflexivity.
Qed.

End Progress.

(** X15.  The converse of what pointer-up requires of a match, when the
    list of words holds no empty word.  In [src/App.tsx], with the game
    running, a gesture started and locked, and a word not yet found whose
    cells from the start cell along the lock are on the grid and read it
    forward or reversed, a release whose binary64 distance to the centre
    of the start cell or of the end cell is not above the binary64
    tolerance adds a word of the puzzle to the found set.  In the second
    copy the same holds for the step derived at release, when it is one
    of the eight directions, the end cell is on the grid and the release
    point resolves to no cell or to a cell at Chebyshev distance at most 1
    from the end cell.  The word added is the first word of the list that
    passes, which need not be the one named. *)
Theorem correct_release_finds_a_word (rect : Rect) (words : list jsstring) (grid : Grid)
    (cellFromClient : Vec.t -> option Cell.t) (w : jsstring) :
  w ∈ words ->
  (∀ v, v ∈ words -> v ≠ []) ->
  (∀ st start lock,
     isGame (App.page st) = true -> App.gameReady st = true ->
     App.packComplete st = false ->
     App.startCell st = Some start -> App.dirLock st = Some lock ->
     w ∉ App.found st ->
     readsAlong grid start lock w ->
     let endCell := Cell.mk (Cell.r start + Cell.r lock * (Z.of_nat (length w) - 1))
                            (Cell.c start + Cell.c lock * (Z.of_nat (length w) - 1)) in
     let finger := fingerPosA rect st endCell in
     let dStart := App.dist finger (center rect start) in
     let dEnd := App.dist finger (center rect endCell) in
     F64.ltb (App.END_TOLERANCE rect) (F64.min dStart dEnd) = false ->
     ∃ v, v ∈ words ∧ (v ∉ App.found st) ∧
          App.found (App.onUp rect words grid st) = {[v]} ∪ App.found st) ∧
  (∀ st start lift step,
     isGame (AppB.page st) = true -> AppB.gameReady st = true ->
     AppB.packComplete st = false ->
     AppB.startCell st = Some start -> AppB.lastClient st = Some lift ->
     AppB.stepOf st start lift (cellFromClient lift) = Some step -> step ∈ dirs ->
     w ∉ AppB.found st ->
     readsTo grid start step w ->
     (∀ lc, cellFromClient lift = Some lc -> chebyshev lc (AppB.endOf start step w) <= 1) ->
     ∃ v, v ∈ words ∧ (v ∉ AppB.found st) ∧
          AppB.found (AppB.onUp rect words grid cellFromClient st) = {[v]} ∪ AppB.found st).
Proof.
  intros Hw Hne. split.
  - intros st start lock Hp Hr Hc Hs Hl Hnf Hread endCell finger dStart dEnd Htol.
    destruct (tryWordA_complete rect grid st start lock w (Hne w Hw) Hread Htol) as [line Ht].
    now apply (onUpA_complete rect words grid st start lock w line).
  - intros st start lift step Hp Hr Hc Hs Hl Hstep Hd Hnf Hread Hclose.
    destruct (onUpB_complete rect words grid cellFromClient st start lift step w)
      as (v & Hv & Hvn & _ & Hfound); try assumption.
    + apply dirs_unit in Hd as (_ & _ & Hnz). intros ->. now apply Hnz.
    + apply wordMatchesB_complete; [assumption |].
      now apply liftCloseTo_chebyshev.
    + exists v. repeat split; assumption.
Qed.

Lemma correct_release_finds_a_word_witness :
  ∃ v, v ∈ [str "CAT"] ∧
       (v ∉ App.found (App.drag Example.rect Example.p21 [Example.p23] Example.idleA)) ∧
       App.found (App.onUp Example.rect [str "CAT"] Example.catGrid
                    (App.drag Example.rect Example.p21 [Example.p23] Example.idleA))
       = {[v]} ∪ App.found (App.drag Example.rect Example.p21 [Example.p23] Example.idleA).
Proof.
  refine (proj1 (correct_release_finds_a_word Example.rect [str "CAT"] Example.catGrid
                   Example.hit (str "CAT") _ _)
            (App.drag Example.rect Example.p21 [Example.p23] Example.idleA)
            (Cell.mk 2 1) Example.east eq_refl eq_refl eq_refl eq_refl _ _ _ _).
  - apply elem_of_cons. now left.
  - intros v Hv. apply elem_of_cons in Hv as [-> | Hv]; [discriminate |].
    now apply elem_of_nil in Hv.
  - vm_compute. reflexivity.
  - intros H. vm_compute in H. discriminate.
  - split; [| left; vm_compute; reflexivity].
    intros c Hc. apply list_elem_of_In in Hc. simpl in Hc.
    destruct Hc as [<- | [<- | [<- | []]]]; reflexivity.
  - vm_compute. reflexivity.
Defined.

(** ** Lifting outside the grid *)

Section LiftOutside.

Variable grid : Grid.

(** Cells that hold the code units of [w], one each and in order, are
    joined to [w]. *)
Lemma textOf_units cells (w : jsstring) :
  length cells = length w ->
  (∀ i c u, cells !! i = Some c -> w !! i = Some u ->
            cellAt grid (Cell.r c) (Cell.c c) = Some [u]) ->
  textOf grid cells = w.
Proof.
  unfold textOf. revert w. induction cells as [| c rest IH]; intros w Hlen Hpt.
  - destruct w; [reflexivity | discriminate].
  - destruct w as [| u w']; [discriminate |].
    rewrite fmap_cons. cbn [concat].
    rewrite (Hpt 0%nat c u eq_refl eq_refl). cbn [default from_option id app].
    f_equal. apply IH.
    + simpl in Hlen. lia.
    + intros i c' u' Hc Hu. exact (Hpt (S i) c' u' Hc Hu).
Qed.

Lemma liesAt_forward start step (w : jsstring) :
  liesAt grid w (Cell.r start) (Cell.c start) step ->
  textOf grid (cellsFrom start step (length w)) = w.
Proof.
  intros Hlies. apply textOf_units; [apply cellsFrom_length |].
  intros i c u Hc Hu.
  rewrite cellsFrom_lookup in Hc by (apply lookup_lt_Some in Hu; lia).
  injection Hc as <-. simpl. exact (proj2 (Hlies i u Hu)).
Qed.

Lemma liesAt_backward start step (w : jsstring) :
  liesAt grid w (Cell.r (AppB.endOf start step w)) (Cell.c (AppB.endOf start step w))
    (opposite step) ->
  textOf grid (reverse (cellsFrom start step (length w))) = w.
Proof.
  intros Hlies. apply textOf_units.
  { now rewrite length_reverse, cellsFrom_length. }
  intros i c u Hc Hu. apply reverse_lookup_Some in Hc as [Hc Hi].
  rewrite cellsFrom_length in Hc, Hi.
  rewrite cellsFrom_lookup in Hc by lia. injection Hc as <-. simpl.
  destruct (Hlies i u Hu) as [_ Hcell]. unfold AppB.endOf, opposite in Hcell.
  simpl in Hcell.
  assert (Hk : Z.of_nat (length w - S i) = Z.of_nat (length w) - 1 - Z.of_nat i) by lia.
  rewrite Hk.
  replace (Cell.r start + Cell.r step * (Z.of_nat (length w) - 1 - Z.of_nat i))
    with (Cell.r start + Cell.r step * (Z.of_nat (length w) - 1)
          + - Cell.r step * Z.of_nat i) by ring.
  replace (Cell.c start + Cell.c step * (Z.of_nat (length w) - 1 - Z.of_nat i))
    with (Cell.c start + Cell.c step * (Z.of_nat (length w) - 1)
          + - Cell.c step * Z.of_nat i) by ring.
  exact Hcell.
Qed.

(** A word that lies in the grid from the start cell along the step, or
    from the end cell against it, ends on the grid and is read there. *)
Lemma liesAt_readsTo start step (w : jsstring) :
  w ≠ [] ->
  liesAt grid w (Cell.r start) (Cell.c start) step ∨
  liesAt grid w (Cell.r (AppB.endOf start step w)) (Cell.c (AppB.endOf start step w))
    (opposite step) ->
  readsTo grid start step w.
Proof.
  intros Hne Hlies. split.
  - destruct (length w) as [| n] eqn:Hlen; [destruct w; [contradiction | discriminate] |].
    destruct Hlies as [H | H].
    + destruct (lookup_lt_is_Some_2 w n ltac:(lia)) as [u Hu].
      destruct (H n u Hu) as [Hoff _]. unfold AppB.endOf. rewrite Hlen. simpl.
      replace (Z.of_nat (S n) - 1) with (Z.of_nat n) by lia. exact Hoff.
    + destruct (lookup_lt_is_Some_2 w 0%nat ltac:(lia)) as [u Hu].
      destruct (H 0%nat u Hu) as [Hoff _].
      change (Z.of_nat 0) with 0 in Hoff. rewrite !Z.mul_0_r, !Z.add_0_r in Hoff.
      exact Hoff.
  - destruct Hlies as [H | H]; [left; now apply liesAt_forward |
                               right; now apply liesAt_backward].
Qed.

End LiftOutside.

(** C10.  When the release point resolves to no cell, [liftCloseTo]
    answers [true] for every end cell and tolerance, and pointer-up does
    add a word: with the game running, a gesture started, a step derived
    at release that is not (0,0), no empty word in the list, and a word
    not yet found that lies in the grid letter by letter from the start
    cell along the step, or from the end cell against it, the release adds
    to the found set a word of the list that was not yet found, that ends
    on the grid from the start cell along the step and is read there by
    the grid letters.  The release point takes no part in it.  The word
    added is the first of the list that passes, which need not be the one
    named. *)
Theorem lift_outside_grid (rect : Rect) (words : list jsstring) (grid : Grid)
    (cellFromClient : Vec.t -> option Cell.t) (st : AppB.State)
    (start step : Cell.t) (lift : Vec.t) (w : jsstring) :
  AppB.page st = game -> AppB.gameReady st = true -> AppB.packComplete st = false ->
  AppB.startCell st = Some start -> AppB.lastClient st = Some lift ->
  cellFromClient lift = None ->
  AppB.stepOf st start lift (cellFromClient lift) = Some step ->
  step ≠ Cell.mk 0 0 ->
  (∀ v, v ∈ words -> v ≠ []) ->
  w ∈ words -> w ∉ AppB.found st ->
  liesAt grid w (Cell.r start) (Cell.c start) step ∨
  liesAt grid w (Cell.r (AppB.endOf start step w)) (Cell.c (AppB.endOf start step w))
    (opposite step) ->
  (∀ endCell tol, AppB.liftCloseTo (cellFromClient lift) endCell tol = true) ∧
  ∃ v, v ∈ words ∧ (v ∉ AppB.found st) ∧ readsTo grid start step v ∧
       AppB.found (AppB.onUp rect words grid cellFromClient st) = {[v]} ∪ AppB.found st.
Proof.
  intros Hpg Hr Hc Hs Hlast Hnone Hstep Hnz Hne Hw Hnf Hlies.
  assert (Hclose : ∀ endCell tol,
             AppB.liftCloseTo (cellFromClient lift) endCell tol = true).
  { intros endCell tol. now rewrite Hnone. }
  split; [exact Hclose |].
  destruct (onUpB_complete rect words grid cellFromClient st start lift step w)
    as (v & Hv & Hvn & Hvt & Hfound); try assumption.
  - now rewrite Hpg.
  - apply wordMatchesB_complete; [| apply Hclose].
    apply liesAt_readsTo; [now apply Hne | exact Hlies].
  - exists v. apply wordMatchesB_reads in Hvt as [Hread _].
    repeat split; try assumption; apply Hread.
Qed.

Lemma lift_outside_grid_witness :
  let st := AppB.drag Example.rect Example.hit (Vec.ofZ 45 15) [Vec.ofZ 105 (-5)]
              Example.idleB in
  (∀ endCell tol,
     AppB.liftCloseTo (Example.hit (Vec.ofZ 105 (-5))) endCell tol = true) ∧
  ∃ v, v ∈ [str "CAT"] ∧ (v ∉ AppB.found st) ∧
       readsTo Example.topGrid (Cell.mk 0 1) Example.east v ∧
       AppB.found (AppB.onUp Example.rect [str "CAT"] Example.topGrid Example.hit st)
       = {[v]} ∪ AppB.found st.
Proof.
  apply (lift_outside_grid Example.rect [str "CAT"] Example.topGrid Example.hit
           (AppB.drag Example.rect Example.hit (Vec.ofZ 45 15) [Vec.ofZ 105 (-5)]
              Example.idleB)
           (Cell.mk 0 1) Example.east (Vec.ofZ 105 (-5)) (str "CAT"));
    try (vm_compute; reflexivity).
  - intros H. discriminate H.
  - intros v Hv. apply elem_of_cons in Hv as [-> | Hv]; [discriminate |].
    now apply elem_of_nil in Hv.
  - apply elem_of_cons. now left.
  - intros H. vm_compute in H. discriminate.
  - left. intros i u Hu.
    destruct i as [| [| [| i]]]; try discriminate Hu;
      injection Hu as <-; split; vm_compute; reflexivity.
Defined.

(** ** The locked line of a found word *)

Section LockedLines.

Variables (rect : Rect) (words : list jsstring) (grid : Grid).
Variable cellFromClient : Vec.t -> option Cell.t.

Lemma hd_head {A} (l : list A) (x d : A) : head l = Some x -> hd d l = x.
Proof. destruct l; [discriminate |]. now intros [= ->]. Qed.

Lemma last_default {A} (l : list A) (x d : A) : last l = Some x -> List.last l d = x.
Proof.
  revert d. induction l as [| y l IH]; intros d; [discriminate |].
  destruct l as [| z l]; [now intros [= ->] |].
  intros H. change (List.last (y :: z :: l) d) with (List.last (z :: l) d).
  apply IH. exact H.
Qed.

Lemma dragA_lockedLines p0 moves st :
  App.lockedLines (App.drag rect p0 moves st) = App.lockedLines st.
Proof.
  unfold App.drag.
  assert (Hdown : App.lockedLines (App.onDown rect p0 st) = App.lockedLines st).
  { unfold App.onDown.
    destruct (negb (isGame _)), (negb (App.gameReady st)), (App.packComplete st),
      (App.cellOfPoint rect p0); reflexivity. }
  rewrite <- Hdown. generalize (App.onDown rect p0 st). clear Hdown st.
  induction moves as [| p rest IH]; intros st; simpl; [reflexivity |].
  rewrite IH. unfold App.onMove.
  destruct (negb (isGame _)), (negb (App.gameReady st)), (App.startCell st),
    (App.packComplete st); reflexivity.
Qed.

Lemma dragB_lockedLines p0 moves st :
  AppB.lockedLines (AppB.drag rect cellFromClient p0 moves st) = AppB.lockedLines st.
Proof.
  unfold AppB.drag.
  assert (Hdown : AppB.lockedLines (AppB.onDown rect cellFromClient p0 st)
                  = AppB.lockedLines st).
  { unfold AppB.onDown.
    destruct (negb (isGame _)), (negb (AppB.gameReady st)), (AppB.packComplete st),
      (cellFromClient p0); reflexivity. }
  rewrite <- Hdown. generalize (AppB.onDown rect cellFromClient p0 st). clear Hdown st.
  induction moves as [| p rest IH]; intros st; simpl; [reflexivity |].
  rewrite IH. unfold AppB.onMove.
  destruct (negb (isGame _)), (negb (AppB.gameReady st)), (AppB.startCell st),
    (AppB.packComplete st); reflexivity.
Qed.

Lemma onUpA_line st :
  (App.found (App.onUp rect words grid st) = App.found st ∧
   App.lockedLines (App.onUp rect words grid st) = App.lockedLines st) ∨
  ∃ w start lock,
    App.startCell st = Some start ∧ App.dirLock st = Some lock ∧
    w ∈ words ∧ (w ∉ App.found st) ∧ w ≠ [] ∧
    App.found (App.onUp rect words grid st) = {[w]} ∪ App.found st ∧
    App.lockedLines (App.onUp rect words grid st)
    = App.lockedLines st ++
        [(center rect start,
          center rect (Cell.mk (Cell.r start + Cell.r lock * (Z.of_nat (length w) - 1))
                               (Cell.c start + Cell.c lock * (Z.of_nat (length w) - 1))))].
Proof.
  unfold App.onUp, App.release, App.onUpBody. simpl.
  destruct (negb (isGame _)); [now left |].
  destruct (negb (App.gameReady st)); [now left |].
  destruct (App.startCell st) as [start |]; [| now left].
  destruct (App.dirLock st) as [lock |]; [| now left].
  destruct (App.packComplete st); [now left |].
  destruct (App.matchLoop _ _ _ _ _ _) as [[w line] |] eqn:Hloop; [| now left].
  right. exists w, start, lock. apply matchLoopA_sound in Hloop as (Hw & Hnf & Ht).
  apply tryWordA_matched in Ht as [_ (c0 & cl & Hhd & Hlast & _ & ->)].
  destruct (length w) as [| n] eqn:Hlen; [discriminate |].
  rewrite head_cellsFrom in Hhd. rewrite last_cellsFrom in Hlast.
  injection Hhd as <-. injection Hlast as <-.
  replace (Z.of_nat (S n) - 1) with (Z.of_nat n) by lia.
  repeat split; try assumption. intros ->. discriminate.
Qed.

Lemma onUpB_line st :
  (AppB.found (AppB.onUp rect words grid cellFromClient st) = AppB.found st ∧
   AppB.lockedLines (AppB.onUp rect words grid cellFromClient st) = AppB.lockedLines st) ∨
  ∃ w start lift step,
    AppB.startCell st = Some start ∧ AppB.lastClient st = Some lift ∧
    AppB.stepOf st start lift (cellFromClient lift) = Some step ∧
    w ∈ words ∧ (w ∉ AppB.found st) ∧ w ≠ [] ∧
    AppB.found (AppB.onUp rect words grid cellFromClient st) = {[w]} ∪ AppB.found st ∧
    AppB.lockedLines (AppB.onUp rect words grid cellFromClient st)
    = AppB.lockedLines st ++ [(center rect start, center rect (AppB.endOf start step w))].
Proof.
  unfold AppB.onUp, AppB.release, AppB.onUpBody. simpl.
  destruct (negb (isGame _)); [now left |].
  destruct (negb (AppB.gameReady st)); [now left |].
  destruct (AppB.packComplete st); [now left |].
  destruct (AppB.startCell st) as [start |]; [| now left].
  destruct (AppB.lastClient st) as [lift |]; [| now left].
  destruct (AppB.stepOf _ _ _ _) as [step |] eqn:Hstep; [| now left].
  destruct ((Cell.r step =? 0) && _); [now left |].
  destruct (AppB.matchLoop _ _ _ _ _ _) as [w |] eqn:Hloop; [| now left].
  destruct (length w) as [| n] eqn:Hlen; [now left |].
  rewrite head_cellsFrom, last_cellsFrom.
  right. exists w, start, lift, step. apply matchLoopB_sound in Hloop as (Hw & Hnf & _).
  unfold AppB.endOf. rewrite Hlen.
  replace (Z.of_nat (S n) - 1) with (Z.of_nat n) by lia.
  repeat split; try assumption. intros ->. discriminate.
Qed.

Lemma gestureA_line p0 moves st :
  (App.found (App.gesture rect words grid p0 moves st) = App.found st ∧
   App.lockedLines (App.gesture rect words grid p0 moves st) = App.lockedLines st) ∨
  ∃ w start lock,
    App.startCell (App.drag rect p0 moves st) = Some start ∧
    App.dirLock (App.drag rect p0 moves st) = Some lock ∧
    w ∈ words ∧ (w ∉ App.found st) ∧ w ≠ [] ∧
    App.found (App.gesture rect words grid p0 moves st) = {[w]} ∪ App.found st ∧
    App.lockedLines (App.gesture rect words grid p0 moves st)
    = App.lockedLines st ++
        [(center rect start,
          center rect (Cell.mk (Cell.r start + Cell.r lock * (Z.of_nat (length w) - 1))
                               (Cell.c start + Cell.c lock * (Z.of_nat (length w) - 1))))].
Proof.
  unfold App.gesture.
  destruct (onUpA_line (App.drag rect p0 moves st))
    as [[Hf Hl] | (w & start & lock & Hs & Hd & Hw & Hnf & Hne & Hf & Hl)];
    rewrite dragA_found, dragA_lockedLines in *; [now left |].
  right. exists w, start, lock. repeat split; assumption.
Qed.

Lemma gestureB_line p0 moves st :
  (AppB.found (AppB.gesture rect words grid cellFromClient p0 moves st) = AppB.found st ∧
   AppB.lockedLines (AppB.gesture rect words grid cellFromClient p0 moves st)
   = AppB.lockedLines st) ∨
  ∃ w start lift step,
    AppB.startCell (AppB.drag rect cellFromClient p0 moves st) = Some start ∧
    AppB.lastClient (AppB.drag rect cellFromClient p0 moves st) = Some lift ∧
    AppB.stepOf (AppB.drag rect cellFromClient p0 moves st) start lift (cellFromClient lift)
      = Some step ∧
    w ∈ words ∧ (w ∉ AppB.found st) ∧ w ≠ [] ∧
    AppB.found (AppB.gesture rect words grid cellFromClient p0 moves st)
      = {[w]} ∪ AppB.found st ∧
    AppB.lockedLines (AppB.gesture rect words grid cellFromClient p0 moves st)
    = AppB.lockedLines st ++ [(center rect start, center rect (AppB.endOf start step w))].
Proof.
  unfold AppB.gesture.
  destruct (onUpB_line (AppB.drag rect cellFromClient p0 moves st))
    as [[Hf Hl] | (w & start & lift & step & Hs & Hlc & Hstep & Hw & Hnf & Hne & Hf & Hl)];
    rewrite dragB_found, dragB_lockedLines in *; [now left |].
  right. exists w, start, lift, step. repeat split; assumption.
Qed.

End LockedLines.

(** X16.  A gesture that adds a word adds exactly one locked line, and a
    gesture that adds no word adds none.  The word added is not empty, and
    the line runs from the centre of the start cell to the centre of the
    end cell of the word: start cell plus (length - 1) times the locked
    direction in [src/App.tsx], times the step derived at release in the
    second copy.  An empty word adds nothing in either copy: in
    [src/App.tsx] the handler raises before it records anything, in the
    second copy the updater of the locked lines raises when it is run. *)
Theorem gesture_locks_the_line_of_its_word (rect : Rect) (words : list jsstring)
    (grid : Grid) (cellFromClient : Vec.t -> option Cell.t) (p0 : Vec.t)
    (moves : list Vec.t) :
  (∀ st,
     (App.found (App.gesture rect words grid p0 moves st) = App.found st ∧
      App.lockedLines (App.gesture rect words grid p0 moves st) = App.lockedLines st) ∨
     ∃ w start lock,
       App.startCell (App.drag rect p0 moves st) = Some start ∧
       App.dirLock (App.drag rect p0 moves st) = Some lock ∧
       w ∈ words ∧ (w ∉ App.found st) ∧ w ≠ [] ∧
       App.found (App.gesture rect words grid p0 moves st) = {[w]} ∪ App.found st ∧
       App.lockedLines (App.gesture rect words grid p0 moves st)
       = App.lockedLines st ++
           [(center rect start,
             center rect (Cell.mk (Cell.r start + Cell.r lock * (Z.of_nat (length w) - 1))
                                  (Cell.c start + Cell.c lock * (Z.of_nat (length w) - 1))))]) ∧
  (∀ st,
     (AppB.found (AppB.gesture rect words grid cellFromClient p0 moves st) = AppB.found st ∧
      AppB.lockedLines (AppB.gesture rect words grid cellFromClient p0 moves st)
      = AppB.lockedLines st) ∨
     ∃ w start lift step,
       AppB.startCell (AppB.drag rect cellFromClient p0 moves st) = Some start ∧
       AppB.lastClient (AppB.drag rect cellFromClient p0 moves st) = Some lift ∧
       AppB.stepOf (AppB.drag rect cellFromClient p0 moves st) start lift
         (cellFromClient lift) = Some step ∧
       w ∈ words ∧ (w ∉ AppB.found st) ∧ w ≠ [] ∧
       AppB.found (AppB.gesture rect words grid cellFromClient p0 moves st)
         = {[w]} ∪ AppB.found st ∧
       AppB.lockedLines (AppB.gesture rect words grid cellFromClient p0 moves st)
       = AppB.lockedLines st ++
           [(center rect start, center rect (AppB.endOf start step w))]).
Proof.
  split; intros st; [apply gestureA_line | apply gestureB_line].
Qed.
